(** * simple-app-update-server: version comparison, release notes and
      update resolution

    A shallow embedding of the update-resolution code of the server
    (src/github.ts, src/server.ts, the version comparator of src/stats.ts)
    together with the statements of its specification.

    Conventions of the embedding.
    - A JavaScript string is a [string]: a sequence of code units, each
      below 256.  Every literal used by the code is ASCII.
    - A JavaScript number holding an integer is a [Z].  The two agree
      up to [Number.MAX_SAFE_INTEGER]; what is stated of the arithmetic of
      [src/stats.ts] is stated for segments in that range ([safeKey]).
    - [null] / [undefined] results are [None].
    - A JSON object used as a dictionary ([LatestJson.platforms]) and the
      [Map]s of the server are [gmap string _]. *)

From Stdlib Require Import ZArith Lia Ascii String Sorted.
From stdpp Require Import gmap strings list pretty.
Local Open Scope Z_scope.

(** ** The JavaScript string primitives used by the code *)

Module JS.

Definition LF : string := String (ascii_of_nat 10) "".

(** WhiteSpace and LineTerminator code units below 256 (what
    [String.prototype.trim] and [parseInt] skip). *)
Definition isWhiteSpace (c : ascii) : bool :=
  let n := nat_of_ascii c in
  ((9 <=? n) && (n <=? 13) || (n =? 32) || (n =? 160))%nat.

Definition isDigit (c : ascii) : bool :=
  let n := nat_of_ascii c in ((48 <=? n) && (n <=? 57))%nat.

Definition digitValue (c : ascii) : Z := Z.of_nat (nat_of_ascii c) - 48.

Fixpoint trimStart (s : string) : string :=
  match s with
  | EmptyString => EmptyString
  | String c s' => if isWhiteSpace c then trimStart s' else s
  end.

Fixpoint trimEnd (s : string) : string :=
  match s with
  | EmptyString => EmptyString
  | String c s' =>
      match trimEnd s' with
      | EmptyString => if isWhiteSpace c then EmptyString else String c EmptyString
      | r => String c r
      end
  end.

(** [s.trim()] *)
Definition trim (s : string) : string := trimEnd (trimStart s).

(** [s.startsWith(p)] *)
Definition startsWith (s p : string) : bool := String.prefix p s.

Fixpoint indexOfFrom (pat s : string) (i : Z) : Z :=
  if String.prefix pat s then i
  else match s with
       | EmptyString => -1
       | String _ s' => indexOfFrom pat s' (i + 1)
       end.

(** [s.indexOf(pat)]: the first position where [pat] occurs, or [-1]. *)
Definition indexOf (s pat : string) : Z := indexOfFrom pat s 0.

(** The relative index of [String.prototype.slice]: negative counts
    from the end, everything is clamped to [0 .. len]. *)
Definition relIndex (len i : Z) : Z :=
  if i <? 0 then Z.max (len + i) 0 else Z.min i len.

(** [s.slice(start, end)] *)
Definition slice (s : string) (start stop : Z) : string :=
  let len := Z.of_nat (String.length s) in
  let from := relIndex len start in
  let to := relIndex len stop in
  String.substring (Z.to_nat from) (Z.to_nat (Z.max (to - from) 0)) s.

(** [s.slice(start)] *)
Definition sliceFrom (s : string) (start : Z) : string :=
  slice s start (Z.of_nat (String.length s)).

(** [s.split(sep)] for a separator of one code unit. *)
Fixpoint split (sep : ascii) (s : string) : list string :=
  match s with
  | EmptyString => [EmptyString]
  | String c s' =>
      if Ascii.eqb c sep then EmptyString :: split sep s'
      else match split sep s' with
           | h :: t => String c h :: t
           | [] => [String c EmptyString]
           end
  end.

(** [l.join(sep)] on an array of strings. *)
Definition join (sep : string) (l : list string) : string := String.concat sep l.

Fixpoint allDigits (s : string) : bool :=
  match s with
  | EmptyString => true
  | String c s' => isDigit c && allDigits s'
  end.

(** The value of the longest prefix of decimal digits, most significant
    first, and whether at least one digit was read. *)
Fixpoint digitsPrefix (s : string) (acc : Z) (seen : bool) : Z * bool :=
  match s with
  | EmptyString => (acc, seen)
  | String c s' =>
      if isDigit c then digitsPrefix s' (acc * 10 + digitValue c) true
      else (acc, seen)
  end.

(** [Number.parseInt(s, 10)]: skip leading white space, read an optional
    sign, then the longest prefix of digits; [None] stands for [NaN]. *)
Definition parseInt10 (s : string) : option Z :=
  let t := trimStart s in
  let '(sign, rest) :=
    match t with
    | String "-"%char r => (-1, r)
    | String "+"%char r => (1, r)
    | _ => (1, t)
    end in
  match digitsPrefix rest 0 false with
  | (n, true) => Some (sign * n)
  | (_, false) => None
  end.

(** [x || 0] on a number that may be [NaN] or [undefined]. *)
Definition orZero (x : option Z) : Z :=
  match x with
  | Some n => n
  | None => 0
  end.

End JS.

(** ** src/version.ts *)

(** Modelled from the spec: section 4.1, a segment that "is parseable as a
    base-10 non-negative integer (leading zeros permitted)". *)
Definition validSegment (seg : string) : bool :=
  negb (String.eqb seg "") && JS.allDigits seg.

(** Modelled from the spec: [isValidVersion] of [src/version.ts], which is
    missing.  Section 4.1: "true iff [v] is non-empty and every
    [.]-delimited segment is parseable as a base-10 non-negative
    integer". *)
Definition isValidVersion (v : string) : bool :=
  negb (String.eqb v "") && forallb validSegment (JS.split "."%char v).

(** Modelled from the spec: section 4.1, "non-numeric segments parse as 0". *)
Definition parseSegment (seg : string) : Z :=
  if validSegment seg then fst (JS.digitsPrefix seg 0 false) else 0.

(** Modelled from the spec: the VersionTuple of section 3. *)
Definition versionTuple (v : string) : list Z :=
  map parseSegment (JS.split "."%char v).

(** Modelled from the spec: "padding the shorter tuple with trailing zeros
    out to the longer length". *)
Definition padTo (n : nat) (t : list Z) : list Z :=
  t ++ repeat 0 (n - length t)%nat.

(** Modelled from the spec: "lexicographically on the integer tuple",
    with results in [{-1, 0, 1}]. *)
Fixpoint lexCompare (ta tb : list Z) : Z :=
  match ta, tb with
  | x :: ta', y :: tb' =>
      if x <? y then -1 else if y <? x then 1 else lexCompare ta' tb'
  | _, _ => 0
  end.

(** Modelled from the spec: [compareVersions] of [src/version.ts], which
    is missing; it is [compare(a, b)] of section 4.1. *)
Definition compareVersions (a b : string) : Z :=
  let ta := versionTuple a in
  let tb := versionTuple b in
  let n := Nat.max (length ta) (length tb) in
  lexCompare (padTo n ta) (padTo n tb).

(** The [j]-th integer of the tuple of [v], [0] past its end. *)
Definition segmentAt (v : string) (j : nat) : Z :=
  default 0 (versionTuple v !! j).

(** ** src/stats.ts: the version ordering of the dashboard *)

(** [v.split(".").map((s) => Number.parseInt(s, 10) || 0)] *)
Definition verKey (v : string) : list Z :=
  map (fun s => JS.orZero (JS.parseInt10 s)) (JS.split "."%char v).

(** The [for] loop of the comparator of [sortVersions]: [i] is the loop
    index, [todo] the number of iterations left before [i] reaches
    [Math.max(ka.length, kb.length)]. *)
Fixpoint sortVersionsLoop (ka kb : list Z) (i todo : nat) : Z :=
  match todo with
  | O => 0
  | S todo' =>
      let diff := JS.orZero (ka !! i) - JS.orZero (kb !! i) in
      if negb (diff =? 0) then diff
      else sortVersionsLoop ka kb (S i) todo'
  end.

(** [Number.MAX_SAFE_INTEGER] *)
Definition MAX_SAFE_INTEGER : Z := 2 ^ 53 - 1.

(** Every number of the key is one that a JavaScript number holds
    exactly. *)
Definition safeKey (k : list Z) : Prop :=
  Forall (fun n => 0 <= n <= MAX_SAFE_INTEGER) k.

(** The comparator [(a, b) => ...] passed to [sort] in [sortVersions]. *)
Definition sortVersionsCmp (a b : string) : Z :=
  let ka := verKey a in
  let kb := verKey b in
  sortVersionsLoop ka kb 0 (Nat.max (length ka) (length kb)).

(** ** src/github.ts *)

Record PlatformEntry := { entry_signature : string; entry_url : string }.

Record LatestJson := {
  latest_version : string;
  latest_notes : string;
  latest_pub_date : string;
  platforms : gmap string PlatformEntry
}.

Record SimpleRelease := {
  simple_version : string;
  simple_notes : string;
  simple_pub_date : string
}.

Record PlatformUpdate := {
  update_version : string;
  update_notes : string;
  update_pub_date : string;
  update_url : string;
  update_signature : string
}.

Record VersionNotes := { version : string; notes : string }.

Record GitHubAsset := { asset_name : string; browser_download_url : string }.

Record GitHubRelease := {
  tag_name : string;
  body : option string;
  published_at : option string;
  assets : list GitHubAsset
}.

(** Strip the "## Download" section that CI appends to release bodies. *)
Definition stripDownloadSection (body : string) : string :=
  let idx := JS.indexOf body "## Download" in
  if idx =? -1 then JS.trim body
  else JS.trim (JS.slice body 0 idx).

(** [r.body ? stripDownloadSection(r.body) : ""]: an absent and an empty
    body are both falsy. *)
Definition releaseNotes (r : GitHubRelease) : string :=
  match body r with
  | Some b => if String.eqb b "" then "" else stripDownloadSection b
  | None => ""
  end.

Definition extractVersionNotes (releases : list GitHubRelease) (tagPrefix : string)
  : list VersionNotes :=
  List.filter (fun n => (0 <? String.length (notes n))%nat)
    (map (fun r => {| version := JS.sliceFrom (tag_name r) (Z.of_nat (String.length tagPrefix));
                      notes := releaseNotes r |})
         releases).

(** The predicate of the [filter] of [aggregateNotes]. *)
Definition isNewer (currentVersion : string) (n : VersionNotes) : bool :=
  isValidVersion (version n) && (0 <? compareVersions (version n) currentVersion).

(** The template literal [`## ${n.version}\n${n.notes}`]. *)
Definition section (n : VersionNotes) : string :=
  "## " +:+ version n +:+ JS.LF +:+ notes n.

(** Aggregate release notes for all versions newer than currentVersion. *)
Definition aggregateNotes (allNotes : list VersionNotes) (currentVersion : string) : string :=
  let relevant := List.filter (isNewer currentVersion) allNotes in
  if (length relevant =? 0)%nat then ""
  else if (length relevant =? 1)%nat then
         match relevant !! 0%nat with
         | Some n => notes n
         | None => ""
         end
  else JS.join (JS.LF +:+ JS.LF) (map section relevant).

(** [latest.platforms[key]] reads an own property of the object: [key]
    contains a ["-"], which no inherited property name does. *)
Definition findPlatformUpdate (latest : LatestJson) (target arch notes : string)
  : option PlatformUpdate :=
  let key := target +:+ "-" +:+ arch in
  match platforms latest !! key with
  | None => None
  | Some platform =>
      Some {| update_version := latest_version latest;
              update_notes := notes;
              update_pub_date := latest_pub_date latest;
              update_url := entry_url platform;
              update_signature := entry_signature platform |}
  end.

(** ** src/products.ts and src/analytics.ts: the data the server uses *)

Record ProductConfig := {
  id : string;
  displayName : string;
  hostnames : list string;
  githubRepo : string;
  tagPrefix : string;
  tauriUpdates : bool
}.

Record UpdateCheckEvent := {
  ts : string;
  ev_product : string;
  ip : string;
  ev_target : string;
  ev_arch : string;
  currentVersion : string;
  latestVersion : string;
  updateAvailable : bool;
  userAgent : string;
  cfuId : string;
  checkReason : string
}.

(** ** src/server.ts *)

(** An incoming request: the parts of [http.IncomingMessage] the server
    reads.  [pathname] is the path that [new URL(req.url || "/", ...)]
    yields; header names are lower case, as Node delivers them. *)
Record Request := {
  method : string;
  pathname : string;
  headers : gmap string string;
  remoteAddress : option string
}.

(** What was written to the [http.ServerResponse]. *)
Inductive Body :=
| NoBody
| Text (s : string)
| Script
| Html (s : string)
| JsonOk
| JsonError (error : string)
| JsonVersion (version pub_date : string)
| JsonRelease (version notes pub_date : string)
| JsonUpdate (data : option PlatformUpdate).

Record Response := { status : Z; payload : Body }.

(** What a handler did: its response and the events it passed to
    [analytics.log]. *)
Record Handled := { response : Response; logged : list UpdateCheckEvent }.

(** [sendJson(res, status, data)] *)
Definition sendJson (status : Z) (data : Body) : Response :=
  {| status := status; payload := data |}.

(** The value held by the [Cache] of a product, as [await state.cache.get()]
    yields it: [None] is [null]. *)
Inductive CacheValue :=
| TauriCache (latest : option LatestJson)
| SimpleCache (latest : option SimpleRelease).

(** Per-product state.  [cache] stands for the outcome of
    [state.cache.get()] and [notesStore] for that of
    [state.notesStore.getAll()]; the classes behind them are in
    [src/cache.ts] and [src/notes-store.ts]. *)
Record ProductState := {
  product : ProductConfig;
  cache : CacheValue;
  notesStore : list VersionNotes
}.

(** A truthy header value, or the empty string: [(h as string) || ""]. *)
Definition header (req : Request) (name : string) : string :=
  default "" (headers req !! name).

Definition getClientIp (req : Request) : string :=
  match headers req !! "x-forwarded-for" with
  | Some forwarded => JS.trim (default "" (JS.split ","%char forwarded !! 0%nat))
  | None =>
      match remoteAddress req with
      | Some a => if String.eqb a "" then "unknown" else a
      | None => "unknown"
      end
  end.

Definition handleTauriUpdateCheck
    (now : string) (req : Request) (productId : string)
    (cached : option LatestJson) (allNotes : list VersionNotes)
    (target arch currentVersion : string) : Handled :=
  match cached with
  | None =>
      {| response := sendJson 500 (JsonError "Unable to fetch release info");
         logged := [] |}
  | Some latest =>
      let notes := aggregateNotes allNotes currentVersion in
      let platform := findPlatformUpdate latest target arch notes in
      let updateAvailable :=
        bool_decide (is_Some platform)
        && (0 <? compareVersions (latest_version latest) currentVersion) in
      let event :=
        {| ts := now; ev_product := productId; ip := getClientIp req;
           ev_target := target; ev_arch := arch;
           currentVersion := currentVersion;
           latestVersion := latest_version latest;
           updateAvailable := updateAvailable;
           userAgent := header req "user-agent";
           cfuId := header req "x-cfu-id";
           checkReason := header req "x-check-reason" |} in
      if negb updateAvailable
      then {| response := {| status := 204; payload := NoBody |}; logged := [event] |}
      else {| response := sendJson 200 (JsonUpdate platform); logged := [event] |}
  end.

(** [currentVersion?: string] is [None] when absent; the test
    [if (currentVersion)] also fails on the empty string. *)
Definition supplied (currentVersion : option string) : option string :=
  match currentVersion with
  | Some c => if String.eqb c "" then None else Some c
  | None => None
  end.

Definition handleVersionCheck
    (now : string) (req : Request) (productId : string)
    (cached : option SimpleRelease) (allNotes : list VersionNotes)
    (currentVersion : option string) : Handled :=
  match cached with
  | None =>
      {| response := sendJson 500 (JsonError "Unable to fetch release info");
         logged := [] |}
  | Some latest =>
      match supplied currentVersion with
      | Some current =>
          let updateAvailable := 0 <? compareVersions (simple_version latest) current in
          let event :=
            {| ts := now; ev_product := productId; ip := getClientIp req;
               ev_target := ""; ev_arch := "";
               currentVersion := current;
               latestVersion := simple_version latest;
               updateAvailable := updateAvailable;
               userAgent := header req "user-agent";
               cfuId := header req "x-cfu-id";
               checkReason := header req "x-check-reason" |} in
          if negb updateAvailable
          then {| response := {| status := 204; payload := NoBody |}; logged := [event] |}
          else {| response :=
                    sendJson 200 (JsonRelease (simple_version latest)
                                    (aggregateNotes allNotes current)
                                    (simple_pub_date latest));
                  logged := [event] |}
      | None =>
          {| response :=
               sendJson 200 (JsonRelease (simple_version latest) (simple_notes latest)
                               (simple_pub_date latest));
             logged := [] |}
      end
  end.

(** The process-wide tables of the server.  [statsHtml] stands for
    [generateStatsHtml(config.logDir, id, displayName)] and [now] for
    [new Date().toISOString()].  [logThrows entry] tells whether
    [analytics.log(entry)] throws: its [fs.mkdirSync] does when the
    directory of the product cannot be made. *)
Record Env := {
  productByHostname : gmap string ProductConfig;
  productById : gmap string ProductConfig;
  defaultProductId : string;
  productStates : gmap string ProductState;
  statsHtml : string -> string -> string;
  now : string;
  logThrows : UpdateCheckEvent -> bool
}.

Definition resolveProduct (env : Env) (req : Request) : option ProductConfig :=
  let hostHeader :=
    match headers req !! "x-forwarded-host" with
    | Some forwardedHost => forwardedHost
    | None => header req "host"
    end in
  let host := default "" (JS.split ":"%char hostHeader !! 0%nat) in
  match productByHostname env !! host with
  | Some p => Some p
  | None => productById env !! defaultProductId env
  end.

(** [pathname.split("/").filter(Boolean)] *)
Definition segmentsOf (pathname : string) : list string :=
  List.filter (fun s => negb (String.eqb s "")) (JS.split "/"%char pathname).

(** [segments[0] === name] *)
Definition firstIs (segments : list string) (name : string) : bool :=
  bool_decide (segments !! 0%nat = Some name).

(** What the request listener does with a request: it answers by itself,
    or it awaits one of the two handlers, or (for [/version] of a Tauri
    product) it reads the cache in place. *)
Inductive Dispatch :=
| Reply (r : Response)
| CallTauriUpdateCheck (state : ProductState) (target arch currentVersion : string)
| CallVersionCheck (state : ProductState) (currentVersion : option string)
| TauriVersion (state : ProductState).

(** The body of the listener passed to [http.createServer], up to the
    point where it hands over to a handler. *)
Definition route (env : Env) (req : Request) : Dispatch :=
  if negb (String.eqb (method req) "GET") then Reply {| status := 405; payload := NoBody |}
  else
    let segments := segmentsOf (pathname req) in
    if firstIs segments "health" then Reply (sendJson 200 JsonOk)
    else
      match resolveProduct env req with
      | None => Reply (sendJson 404 (JsonError "Unknown product for this hostname"))
      | Some product =>
          match productStates env !! id product with
          | None => Reply (sendJson 500 (JsonError "Product state not initialized"))
          | Some state =>
              if firstIs segments "sw.js" then Reply {| status := 200; payload := Script |}
              else if firstIs segments "stats" then
                Reply {| status := 200;
                         payload := Html (statsHtml env (id product) (displayName product)) |}
              else if firstIs segments "tauri" && (length segments =? 4)%nat then
                if negb (tauriUpdates product) then
                  Reply (sendJson 404 (JsonError "This product does not use Tauri updates"))
                else
                  let target := default "" (segments !! 1%nat) in
                  let arch := default "" (segments !! 2%nat) in
                  let currentVersion := default "" (segments !! 3%nat) in
                  if negb (isValidVersion currentVersion) then
                    Reply (sendJson 400 (JsonError "Invalid version format"))
                  else CallTauriUpdateCheck state target arch currentVersion
              else if firstIs segments "version" then
                let currentVersion := segments !! 1%nat in
                if match supplied currentVersion with
                   | Some c => negb (isValidVersion c)
                   | None => false
                   end
                then Reply (sendJson 400 (JsonError "Invalid version format"))
                else if tauriUpdates product then TauriVersion state
                else CallVersionCheck state currentVersion
              else Reply {| status := 404; payload := Text "Not Found" |}
          end
      end.

(** [state as TauriProductState]: the cast changes nothing at run time.
    A simple release read as a manifest has no [platforms]; the handler
    then throws on [latest.platforms[key]], which is [inr tt]. *)
Definition asTauriCache (c : CacheValue) : option LatestJson + unit :=
  match c with
  | TauriCache l => inl l
  | SimpleCache None => inl None
  | SimpleCache (Some _) => inr tt
  end.

(** [state as SimpleProductState]: a manifest has the three fields of a
    simple release. *)
Definition asSimpleCache (c : CacheValue) : option SimpleRelease :=
  match c with
  | SimpleCache l => l
  | TauriCache l =>
      (fun m => {| simple_version := latest_version m;
                   simple_notes := latest_notes m;
                   simple_pub_date := latest_pub_date m |}) <$> l
  end.

(** [try { await handler(...) } catch (err) { sendJson(res, 500, ...) }]
    around a handler that got as far as [handled]: a handler calls
    [analytics.log] before it writes its response, so when that call
    throws nothing is written to the log, the handler has sent nothing,
    and the [catch] answers 500.  In the result [logged] holds the
    entries that [analytics.log] took. *)
Definition awaited (env : Env) (handled : Handled) : Handled :=
  if existsb (logThrows env) (logged handled)
  then {| response := sendJson 500 (JsonError "Internal server error"); logged := [] |}
  else handled.

(** The request listener: [route], then the handler it awaits.  The
    [catch] around each handler answers 500. *)
Definition server (env : Env) (req : Request) : Handled :=
  match route env req with
  | Reply r => {| response := r; logged := [] |}
  | CallTauriUpdateCheck state target arch currentVersion =>
      match asTauriCache (cache state) with
      | inl cached =>
          awaited env
            (handleTauriUpdateCheck (now env) req (id (product state)) cached
               (notesStore state) target arch currentVersion)
      | inr _ =>
          {| response := sendJson 500 (JsonError "Internal server error"); logged := [] |}
      end
  | CallVersionCheck state currentVersion =>
      awaited env
        (handleVersionCheck (now env) req (id (product state)) (asSimpleCache (cache state))
           (notesStore state) currentVersion)
  | TauriVersion state =>
      match asSimpleCache (cache state) with
      | None =>
          {| response := sendJson 500 (JsonError "Unable to fetch release info"); logged := [] |}
      | Some latest =>
          {| response := sendJson 200 (JsonVersion (simple_version latest) (simple_pub_date latest));
             logged := [] |}
      end
  end.

(** ** src/cache.ts *)

Module Cache.

(** Modelled from the spec: the class [Cache] of [src/cache.ts], which is
    missing (its test [test/cache.test.ts] is present).  This is the
    ResilientCache of sections 3 and 4.2.  [t], [refresh] and [get] are
    the cache as a caller sees it who awaits each [get()] before the
    next one, as the tests of stale-on-error do; [Shared], [arrive] and
    [settle] below add the in-flight handle, for callers that arrive
    while a refresh is running. *)
Record CacheEntry (T : Type) := { value : T; fetchedAt : Z }.
Arguments value {T}.
Arguments fetchedAt {T}.

(** Modelled from the spec: the state of a ResilientCache (section 3),
    without the in-flight handle. *)
Record t (T : Type) := {
  entry : option (CacheEntry T);
  ttlMs : Z;
  persistPath : option string
}.
Arguments entry {T}.
Arguments ttlMs {T}.
Arguments persistPath {T}.

(** One invocation of the producer: it returns a value or fails. *)
Inductive Outcome (T : Type) :=
| Produced (v : T)
| Failed (err : string).
Arguments Produced {T}.
Arguments Failed {T}.

(** What a [get()] did besides returning. *)
Inductive Effect (T : Type) :=
| LogFailure (err : string)
| Persist (path : string) (v : T).
Arguments LogFailure {T}.
Arguments Persist {T}.

(** How a call ends: with a value or [null], or with an exception. *)
Inductive Completion (T : Type) :=
| Returns (v : option T)
| Throws (err : string).
Arguments Returns {T}.
Arguments Throws {T}.

Record Got (T W : Type) := {
  result : Completion T;
  after : t T;
  world : W;
  effects : list (Effect T)
}.
Arguments result {T W}.
Arguments after {T W}.
Arguments world {T W}.
Arguments effects {T W}.

Section Operations.
Context {T W : Type}.

(** The caller-supplied producer; [W] is whatever it reads and
    changes (a call counter in the tests, GitHub in the server). *)
Variable producer : W -> Outcome T * W.

(** Modelled from the spec: step 1 of [get()], an entry exists and
    [now - fetchedAt < ttlMs]. *)
Definition fresh (c : t T) (now : Z) : option T :=
  match entry c with
  | Some e => if now - fetchedAt e <? ttlMs c then Some (value e) else None
  | None => None
  end.

(** Modelled from the spec: steps 3 and 4 of [get()].  Invoke the
    producer; on success replace the entry and persist; on failure log
    and fall back on the previous entry. *)
Definition refresh (c : t T) (now : Z) (w : W) : Got T W :=
  match producer w with
  | (Produced v, w') =>
      {| result := Returns (Some v);
         after := {| entry := Some {| value := v; fetchedAt := now |};
                     ttlMs := ttlMs c; persistPath := persistPath c |};
         world := w';
         effects := match persistPath c with
                    | Some path => [Persist path v]
                    | None => []
                    end |}
  | (Failed err, w') =>
      {| result := Returns (value <$> entry c);
         after := c;
         world := w';
         effects := [LogFailure err] |}
  end.

(** Modelled from the spec: what the settlement of a producer invocation
    with [outcome] does to the cache (steps 3 and 4 of [get()]); this is
    [refresh] for the producer that settles with [outcome]. *)
Definition settled (c : t T) (now : Z) (outcome : Outcome T) : Got T unit :=
  match outcome with
  | Produced v =>
      {| result := Returns (Some v);
         after := {| entry := Some {| value := v; fetchedAt := now |};
                     ttlMs := ttlMs c; persistPath := persistPath c |};
         world := tt;
         effects := match persistPath c with
                    | Some path => [Persist path v]
                    | None => []
                    end |}
  | Failed err =>
      {| result := Returns (value <$> entry c);
         after := c;
         world := tt;
         effects := [LogFailure err] |}
  end.

(** Modelled from the spec: [get()] of section 4.2. *)
Definition get (c : t T) (now : Z) (w : W) : Got T W :=
  match fresh c now with
  | Some v => {| result := Returns (Some v); after := c; world := w; effects := [] |}
  | None => refresh c now w
  end.

(** Modelled from the spec: [invalidate()] clears the cached entry. *)
Definition invalidate (c : t T) : t T :=
  {| entry := None; ttlMs := ttlMs c; persistPath := persistPath c |}.

End Operations.

(** Modelled from the spec: [new Cache(producer, ttlMs, persistPath?)],
    with no entry yet. *)
Definition create {T : Type} (ttl : Z) (path : option string) : t T :=
  {| entry := None; ttlMs := ttl; persistPath := path |}.

(** Modelled from the spec: a PendingFetch (section 3), the handle to
    the producer invocation in flight, with the callers that await it in
    the order of their arrival. *)
Record PendingFetch := { waiters : list nat }.

(** Modelled from the spec: the state of a ResilientCache with its
    in-flight handle (section 3). *)
Record Shared (T : Type) := {
  current : t T;
  inflight : option PendingFetch
}.
Arguments current {T}.
Arguments inflight {T}.

(** What a call of [get()] does before it returns or awaits. *)
Inductive Arrival (T : Type) :=
| Served (v : T)
| Joined (s : Shared T)
| Started (s : Shared T).
Arguments Served {T}.
Arguments Joined {T}.
Arguments Started {T}.

(** Modelled from the spec: [get()] of section 4.2 up to its await.
    Step 1 serves a fresh entry; step 2 joins the refresh in flight,
    without a producer call; step 3 starts a refresh, which invokes the
    producer. *)
Definition arrive {T : Type} (s : Shared T) (caller : nat) (now : Z) : Arrival T :=
  match fresh (current s) now with
  | Some v => Served v
  | None =>
      match inflight s with
      | Some p =>
          Joined {| current := current s;
                    inflight := Some {| waiters := waiters p ++ [caller] |} |}
      | None =>
          Started {| current := current s; inflight := Some {| waiters := [caller] |} |}
      end
  end.

Record Settlement (T : Type) := {
  shared : Shared T;
  delivered : list (nat * Completion T);
  done : list (Effect T)
}.
Arguments shared {T}.
Arguments delivered {T}.
Arguments done {T}.

(** Modelled from the spec: the producer invocation in flight settles
    with [outcome] (steps 3 and 4).  The cache changes as in [settled],
    the handle is removed, and every waiter gets the same result. *)
Definition settle {T : Type} (s : Shared T) (now : Z) (outcome : Outcome T) : Settlement T :=
  {| shared := {| current := after (settled (current s) now outcome); inflight := None |};
     delivered :=
       map (fun caller => (caller, result (settled (current s) now outcome)))
         (match inflight s with
          | Some p => waiters p
          | None => []
          end);
     done := effects (settled (current s) now outcome) |}.

End Cache.

(** The producer of the test "returns stale data on fetch error" of
    [test/cache.test.ts]: it counts its calls and fails on the second. *)
Definition failsSecond (calls : nat) : Cache.Outcome string * nat :=
  let calls := S calls in
  if (calls =? 2)%nat then (Cache.Failed "fail", calls)
  else (Cache.Produced ("data-" +:+ pretty calls), calls).

(** The producer of the test "returns null when first fetch fails". *)
Definition alwaysFails (calls : nat) : Cache.Outcome string * nat :=
  (Cache.Failed "fail", S calls).

(** ** The specification's reading of [aggregateNotes] *)

(** [n] comes strictly before [m] in version order. *)
Definition ascending (n m : VersionNotes) : Prop :=
  compareVersions (version n) (version m) < 0.

Fixpoint insertByVersion (n : VersionNotes) (l : list VersionNotes) : list VersionNotes :=
  match l with
  | [] => [n]
  | m :: l' =>
      if compareVersions (version n) (version m) <=? 0 then n :: l
      else m :: insertByVersion n l'
  end.

(** Notes in ascending version order (insertion sort). *)
Definition sortByVersion (l : list VersionNotes) : list VersionNotes :=
  foldr insertByVersion [] l.

(** Section 4.4 of the specification, in its words: the matching notes
    "ordered by ascending version (oldest-newer-than-current first)",
    whatever the order of [allNotes]. *)
Definition aggregateNotesAscending (allNotes : list VersionNotes) (currentVersion : string)
  : string :=
  let relevant := sortByVersion (List.filter (isNewer currentVersion) allNotes) in
  match relevant with
  | [] => ""
  | [n] => notes n
  | _ => JS.join (JS.LF +:+ JS.LF) (map section relevant)
  end.

(** ** The specification's reading of [stripDownloadSection] *)

(** [b] is [pre], then [pat], then [post], and [pat] occurs nowhere
    earlier in [b]: [pre] is what stands before the first [pat]. *)
Definition firstOccurrence (pat b pre post : string) : Prop :=
  b = pre +:+ pat +:+ post
  /\ forall pre' post', b = pre' +:+ pat +:+ post' ->
                        (String.length pre <= String.length pre')%nat.

(** [pat] occurs nowhere in [b]. *)
Definition noOccurrence (pat b : string) : Prop :=
  forall pre post, b <> pre +:+ pat +:+ post.

(** The note that [extractVersionNotes] makes of a release. *)
Definition noteOf (tagPrefix : string) (r : GitHubRelease) : VersionNotes :=
  {| version := JS.sliceFrom (tag_name r) (Z.of_nat (String.length tagPrefix));
     notes := releaseNotes r |}.

(** ** The data of test/server.test.ts *)

Definition freshNotes : list VersionNotes :=
  [ {| version := "0.1.21"; notes := "- Remember window position across restarts" |};
    {| version := "0.1.20";
       notes := "- Add magnet/torrent routing" +:+ JS.LF +:+ "- Launch desktop app from extension" |};
    {| version := "0.1.19"; notes := "- Add profile picker UI" |};
    {| version := "0.1.18"; notes := "- Add profile system" |} ].

Definition mockLatest : LatestJson :=
  {| latest_version := "0.1.21";
     latest_notes := "- Remember window position across restarts";
     latest_pub_date := "2026-02-11T07:33:31.665Z";
     platforms :=
       <["darwin-aarch64" :=
           {| entry_signature := "sig-darwin-aarch64";
              entry_url := "https://github.com/example/releases/download/v0.1.21/App_aarch64.app.tar.gz" |}]>
       (<["windows-x86_64" :=
           {| entry_signature := "sig-windows-x86_64";
              entry_url := "https://github.com/example/releases/download/v0.1.21/App_0.1.21_x64.msi" |}]>
       (<["linux-x86_64" :=
           {| entry_signature := "sig-linux-x86_64";
              entry_url := "https://github.com/example/releases/download/v0.1.21/App_0.1.21_amd64.AppImage" |}]>
        ∅)) |}.

Definition mockSimple : SimpleRelease :=
  {| simple_version := "0.4.6"; simple_notes := "- New feature";
     simple_pub_date := "2026-02-28T00:00:00.000Z" |}.

Definition simpleNotes : list VersionNotes :=
  [ {| version := "0.4.6"; notes := "- New feature" |};
    {| version := "0.4.5"; notes := "- Bug fix" |} ].

(** A release as CI publishes it: notes, then the download section. *)
Definition releaseWithDownloads : GitHubRelease :=
  {| tag_name := "v0.4.6";
     body := Some ("- New feature" +:+ JS.LF +:+ JS.LF +:+ "## Download" +:+ JS.LF
                   +:+ "- app.dmg");
     published_at := Some "2026-02-28T00:00:00.000Z";
     assets := [] |}.

Definition testTauri : ProductConfig :=
  {| id := "test-tauri"; displayName := "Test Tauri App"; hostnames := ["tauri.test"];
     githubRepo := "test/tauri"; tagPrefix := "v"; tauriUpdates := true |}.

Definition testSimple : ProductConfig :=
  {| id := "test-simple"; displayName := "Test Simple App"; hostnames := ["simple.test"];
     githubRepo := "test/simple"; tagPrefix := "v"; tauriUpdates := false |}.

Definition testEnv : Env :=
  {| productByHostname := <["tauri.test" := testTauri]> (<["simple.test" := testSimple]> ∅);
     productById := <["test-tauri" := testTauri]> (<["test-simple" := testSimple]> ∅);
     defaultProductId := "test-tauri";
     productStates :=
       <["test-tauri" := {| product := testTauri; cache := TauriCache (Some mockLatest);
                            notesStore := freshNotes |}]>
       (<["test-simple" := {| product := testSimple; cache := SimpleCache (Some mockSimple);
                              notesStore := simpleNotes |}]> ∅);
     statsHtml := fun _ _ => "";
     now := "2026-03-01T00:00:00.000Z";
     logThrows := fun _ => false |}.

(** [fetch(baseUrl + path, { headers: { "X-Forwarded-Host": host } })] *)
Definition fetchFrom (host path : string) : Request :=
  {| method := "GET"; pathname := path;
     headers := <["x-forwarded-host" := host]> ∅;
     remoteAddress := Some "127.0.0.1" |}.

(** ** src/stats.ts: sortVersions *)

(** [Array.prototype.sort] with a comparator is a stable sort: elements
    that compare equal keep their order.  It is written here as the
    stable insertion sort, which is what every stable sort computes once
    the comparator is consistent. *)
Fixpoint sortInsert {A : Type} (cmp : A -> A -> Z) (x : A) (l : list A) : list A :=
  match l with
  | [] => [x]
  | y :: l' => if cmp x y <=? 0 then x :: l else y :: sortInsert cmp x l'
  end.

Definition arraySort {A : Type} (cmp : A -> A -> Z) (l : list A) : list A :=
  foldr (sortInsert cmp) [] l.

(** [[...versions].sort((a, b) => ...)] *)
Definition sortVersions (versions : list string) : list string :=
  arraySort sortVersionsCmp versions.

(** [ka[i] || 0] for the key of a version. *)
Definition keyAt (v : string) (i : nat) : Z := JS.orZero (verKey v !! i).

(** [a] sorts before [b], or with it. *)
Definition versionLe (a b : string) : Prop := sortVersionsCmp a b <= 0.

(** ** src/stats.ts: aggregateDay *)

(** The property names that an object literal [{}] inherits from
    [Object.prototype]: reading one of them on an object that has no own
    property of that name yields a function (or the prototype), not
    [undefined]. *)
Definition inheritedNames : list string :=
  [ "constructor"; "__defineGetter__"; "__defineSetter__"; "hasOwnProperty";
    "__lookupGetter__"; "__lookupSetter__"; "isPrototypeOf"; "propertyIsEnumerable";
    "toString"; "valueOf"; "__proto__"; "toLocaleString" ].

Definition inherited (k : string) : bool := bool_decide (k ∈ inheritedNames).

(** [clients] holds the arrays made of the sets at the end of
    [aggregateDay], in the order in which the ids were added. *)
Record DayStats := {
  day_clients : gmap string (list string);
  day_requests : gmap string Z;
  day_platforms : gmap string Z
}.

(** [s || "unknown"] *)
Definition orUnknown (s : string) : string :=
  if String.eqb s "" then "unknown" else s.

(** [e.currentVersion || "unknown"] *)
Definition versionOf (e : UpdateCheckEvent) : string := orUnknown (currentVersion e).

(** [e.cfuId || e.ip || "unknown"] *)
Definition clientIdOf (e : UpdateCheckEvent) : string :=
  if String.eqb (cfuId e) "" then orUnknown (ip e) else cfuId e.

(** [`${e.target || "unknown"}-${e.arch || "unknown"}`] *)
Definition platformOf (e : UpdateCheckEvent) : string :=
  orUnknown (ev_target e) +:+ "-" +:+ orUnknown (ev_arch e).

(** [set.add(x)] on a [Set], which keeps insertion order. *)
Definition setAdd (x : string) (set : list string) : list string :=
  if bool_decide (x ∈ set) then set else set ++ [x].

(** [if (!clients[v]) clients[v] = new Set(); clients[v].add(clientId)].
    When [v] is an inherited name and no own property, [clients[v]] is
    truthy and has no [add]: the call throws, which is [None]. *)
Definition addClient (clients : gmap string (list string)) (v clientId : string)
  : option (gmap string (list string)) :=
  match clients !! v with
  | Some set => Some (<[v := setAdd clientId set]> clients)
  | None =>
      if inherited v then None
      else Some (<[v := setAdd clientId []]> clients)
  end.

(** [counts[k] = (counts[k] || 0) + 1].  When [k] is an inherited name
    and no own property the sum is not a number, which is [None] too;
    [aggregateDay] does not get there, the line before has thrown. *)
Definition countUp (counts : gmap string Z) (k : string) : option (gmap string Z) :=
  match counts !! k with
  | Some n => Some (<[k := (if n =? 0 then 0 else n) + 1]> counts)
  | None =>
      if inherited k then None
      else Some (<[k := 0 + 1]> counts)
  end.

(** The body of the loop [for (const e of events)]. *)
Definition aggregateStep (acc : DayStats) (e : UpdateCheckEvent) : option DayStats :=
  clients ← addClient (day_clients acc) (versionOf e) (clientIdOf e);
  requests ← countUp (day_requests acc) (versionOf e);
  platforms ← countUp (day_platforms acc) (platformOf e);
  Some {| day_clients := clients; day_requests := requests; day_platforms := platforms |}.

Fixpoint aggregateLoop (acc : DayStats) (events : list UpdateCheckEvent) : option DayStats :=
  match events with
  | [] => Some acc
  | e :: events' => acc' ← aggregateStep acc e; aggregateLoop acc' events'
  end.

(** [aggregateDay(events)]; [None] when it throws. *)
Definition aggregateDay (events : list UpdateCheckEvent) : option DayStats :=
  aggregateLoop {| day_clients := ∅; day_requests := ∅; day_platforms := ∅ |} events.

(** How many of the events have the key [k] under [key]. *)
Definition occurrences (key : UpdateCheckEvent -> string) (k : string)
    (events : list UpdateCheckEvent) : Z :=
  Z.of_nat (length (List.filter (fun e => String.eqb (key e) k) events)).

(** The sum of all the counts of a table. *)
Definition totalCount (counts : gmap string Z) : Z :=
  map_fold (fun _ n sum => n + sum) 0 counts.

(** Two checks of one day: the same client twice on 0.1.20. *)
Definition sampleEvent (version client : string) : UpdateCheckEvent :=
  {| ts := "2026-03-01T00:00:00.000Z"; ev_product := "test-tauri"; ip := "10.0.0.1";
     ev_target := "darwin"; ev_arch := "aarch64"; currentVersion := version;
     latestVersion := "0.1.21"; updateAvailable := true; userAgent := "";
     cfuId := client; checkReason := "" |}.

(** [s] contains a ["-"]. *)
Fixpoint hasDash (s : string) : bool :=
  match s with
  | EmptyString => false
  | String c s' => Ascii.eqb c "-"%char || hasDash s'
  end.

(** What the loop of [aggregateDay] keeps: the two tables indexed by
    version have the same keys, none of them an inherited name. *)
Definition tablesAgree (acc : DayStats) : Prop :=
  forall k, (is_Some (day_clients acc !! k) <-> is_Some (day_requests acc !! k))
            /\ (is_Some (day_clients acc !! k) -> inherited k = false).

(** The ids that the events of version [v] add, in this order, to the
    set [set]. *)
Definition clientsOf (v : string) (set : list string) (events : list UpdateCheckEvent)
  : list string :=
  foldl (fun set e => if String.eqb (versionOf e) v then setAdd (clientIdOf e) set else set)
    set events.

(** Three checks of one day. *)
Definition sampleDay : list UpdateCheckEvent :=
  [ sampleEvent "0.1.20" "client-a"; sampleEvent "0.1.20" "client-a";
    sampleEvent "0.1.19" "client-b" ].

(** ** src/github.ts: fetching the releases *)

Record TauriFetchResult := {
  tauri_latest : LatestJson;
  tauri_freshNotes : list VersionNotes
}.

Record SimpleFetchResult := {
  simple_latest : SimpleRelease;
  simple_freshNotes : list VersionNotes
}.

(** A request as [fetch(url, { headers })] sends it. *)
Record HttpRequest := { url : string; req_headers : gmap string string }.

(** The [Response] of a [fetch], with what [res.json()] yields, taken to
    have the type the code casts it to. *)
Record HttpResponse (A : Type) := {
  ok : bool;
  res_status : Z;
  statusText : string;
  json : A
}.
Arguments ok {A}.
Arguments res_status {A}.
Arguments statusText {A}.
Arguments json {A}.

(** How a promise settles: with a value, or with an [Error] of this
    message. *)
Inductive Settled (A : Type) :=
| Fulfilled (a : A)
| RejectedWith (message : string).
Arguments Fulfilled {A}.
Arguments RejectedWith {A}.

(** The network as the two functions see it: what the releases API and
    what the download of an asset answer to a request, or the failure of
    the [fetch] itself. *)
Record Network := {
  api : HttpRequest -> Settled (HttpResponse (list GitHubRelease));
  download : HttpRequest -> Settled (HttpResponse LatestJson)
}.

(** What an [async] function did: how its promise settled and the
    requests it sent, in order. *)
Record Fetch (A : Type) := { settled : Settled A; sent : list HttpRequest }.
Arguments settled {A}.
Arguments sent {A}.

Definition makeHeaders (product : ProductConfig) (githubToken : string)
  : gmap string string :=
  let headers :=
    <["User-Agent" := id product +:+ "-update-server"]>
      (<["Accept" := "application/vnd.github+json"]> ∅) in
  if negb (String.eqb githubToken "")
  then <["Authorization" := "Bearer " +:+ githubToken]> headers
  else headers.

(** [`https://api.github.com/repos/${product.githubRepo}/releases?per_page=100`] *)
Definition releasesUrl (product : ProductConfig) : string :=
  "https://api.github.com/repos/" +:+ githubRepo product +:+ "/releases?per_page=100".

(** [releases.filter((r) => r.tag_name.startsWith(product.tagPrefix))] *)
Definition withPrefix (product : ProductConfig) (releases : list GitHubRelease)
  : list GitHubRelease :=
  List.filter (fun r => JS.startsWith (tag_name r) (tagPrefix product)) releases.

(** Fetch releases for a Tauri product (has latest.json asset with platform binaries). *)
Definition fetchTauriReleases (net : Network) (product : ProductConfig) (githubToken : string)
  : Fetch (option TauriFetchResult) :=
  let headers := makeHeaders product githubToken in
  let request := {| url := releasesUrl product; req_headers := headers |} in
  match api net request with
  | RejectedWith message => {| settled := RejectedWith message; sent := [request] |}
  | Fulfilled res =>
      if negb (ok res) then
        {| settled := RejectedWith ("GitHub API returned " +:+ pretty (res_status res)
                                    +:+ ": " +:+ statusText res);
           sent := [request] |}
      else
        let releases := json res in
        let filtered := withPrefix product releases in
        match filtered !! 0%nat with
        | None => {| settled := Fulfilled None; sent := [request] |}
        | Some latestRelease =>
            match List.find (fun a => String.eqb (asset_name a) "latest.json")
                    (assets latestRelease) with
            | None => {| settled := Fulfilled None; sent := [request] |}
            | Some asset =>
                let jsonRequest :=
                  {| url := browser_download_url asset;
                     req_headers := {["User-Agent" := id product +:+ "-update-server"]} |} in
                match download net jsonRequest with
                | RejectedWith message =>
                    {| settled := RejectedWith message; sent := [request; jsonRequest] |}
                | Fulfilled jsonRes =>
                    if negb (ok jsonRes) then
                      {| settled := RejectedWith ("Failed to fetch latest.json: "
                                                  +:+ pretty (res_status jsonRes));
                         sent := [request; jsonRequest] |}
                    else
                      let latest := json jsonRes in
                      let freshNotes := extractVersionNotes filtered (tagPrefix product) in
                      {| settled := Fulfilled (Some {| tauri_latest := latest;
                                                       tauri_freshNotes := freshNotes |});
                         sent := [request; jsonRequest] |}
                end
            end
        end
  end.

(** Fetch releases for a non-Tauri product (just version + notes from tags).
    [now] is [new Date().toISOString()]. *)
Definition fetchSimpleReleases (net : Network) (product : ProductConfig)
    (githubToken : string) (now : string) : Fetch (option SimpleFetchResult) :=
  let headers := makeHeaders product githubToken in
  let request := {| url := releasesUrl product; req_headers := headers |} in
  match api net request with
  | RejectedWith message => {| settled := RejectedWith message; sent := [request] |}
  | Fulfilled res =>
      if negb (ok res) then
        {| settled := RejectedWith ("GitHub API returned " +:+ pretty (res_status res)
                                    +:+ ": " +:+ statusText res);
           sent := [request] |}
      else
        let releases := json res in
        let filtered := withPrefix product releases in
        match filtered !! 0%nat with
        | None => {| settled := Fulfilled None; sent := [request] |}
        | Some latestRelease =>
            let version :=
              JS.sliceFrom (tag_name latestRelease)
                (Z.of_nat (String.length (tagPrefix product))) in
            let latest :=
              {| simple_version := version;
                 simple_notes := releaseNotes latestRelease;
                 simple_pub_date :=
                   match published_at latestRelease with
                   | Some p => if String.eqb p "" then now else p
                   | None => now
                   end |} in
            let freshNotes := extractVersionNotes filtered (tagPrefix product) in
            {| settled := Fulfilled (Some {| simple_latest := latest;
                                             simple_freshNotes := freshNotes |});
               sent := [request] |}
        end
  end.

(** A network whose releases API answers 200 with [releases] and whose
    downloads answer 200 with [manifest]. *)
Definition answering (releases : list GitHubRelease) (manifest : LatestJson) : Network :=
  {| api := fun _ => Fulfilled {| ok := true; res_status := 200; statusText := "OK";
                                  json := releases |};
     download := fun _ => Fulfilled {| ok := true; res_status := 200; statusText := "OK";
                                       json := manifest |} |}.

(** Releases as the API lists them: a release of another product first. *)
Definition otherRelease : GitHubRelease :=
  {| tag_name := "extension-v9.9"; body := Some "other product";
     published_at := None; assets := [] |}.

Definition newestRelease : GitHubRelease :=
  {| tag_name := "v0.4.6"; body := Some ("- New feature" +:+ JS.LF +:+ "## Download");
     published_at := Some "2026-02-28T00:00:00.000Z";
     assets := [ {| asset_name := "latest.json";
                    browser_download_url := "https://example.test/latest.json" |} ] |}.

Definition olderRelease : GitHubRelease :=
  {| tag_name := "v0.4.5"; body := None; published_at := None; assets := [] |}.

Definition sampleReleases : list GitHubRelease :=
  [otherRelease; newestRelease; olderRelease].

(** ** src/products.ts and the start of src/server.ts: the tables *)

(** Build hostname -> product lookup map *)
Definition buildProductByHostname (products : list ProductConfig)
  : gmap string ProductConfig :=
  foldl (fun m p => foldl (fun m h => <[h := p]> m) m (hostnames p)) ∅ products.

(** Build id -> product lookup map *)
Definition buildProductById (products : list ProductConfig) : gmap string ProductConfig :=
  foldl (fun m p => <[id p := p]> m) ∅ products.





(** The last element of [l] that satisfies [f]. *)
Definition findLast {A : Type} (f : A -> bool) (l : list A) : option A :=
  List.find f (rev l).


(** ** Vocabulary for the request listener *)

(** [s] contains the code unit [c]. *)
Fixpoint hasChar (c : ascii) (s : string) : bool :=
  match s with
  | EmptyString => false
  | String d s' => Ascii.eqb d c || hasChar c s'
  end.

(** The header that [resolveProduct] reads the hostname from:
    [x-forwarded-host] when present, else [host], else the empty string. *)
Definition hostHeader (req : Request) : string :=
  match headers req !! "x-forwarded-host" with
  | Some forwardedHost => forwardedHost
  | None => header req "host"
  end.

(** The product of a hostname: the one that lists it, else the default
    product. *)
Definition productOfHost (env : Env) (host : string) : option ProductConfig :=
  match productByHostname env !! host with
  | Some p => Some p
  | None => productById env !! defaultProductId env
  end.

(** ** src/products.ts: validateProducts *)

(** A value as [JSON.parse] yields it. *)
#[warnings="-register-all"]
Inductive Json :=
| JNull
| JBool (b : bool)
| JNumber (n : Z)
| JString (s : string)
| JArray (items : list Json)
| JObject (fields : list (string * Json)).

(** [(p as Record<string, unknown>)[key]] for the keys that
    [validateProducts] reads, none of which an object or an array
    inherits: the own property of that name, the last one when the text
    had the key twice; [None] is [undefined]. *)
Definition property (p : Json) (key : string) : option Json :=
  match p with
  | JObject fields => snd <$> findLast (fun field => String.eqb (fst field) key) fields
  | _ => None
  end.

(** [typeof p === "object" && p !== null]: arrays are objects too. *)
Definition isObjectLike (p : Json) : bool :=
  match p with
  | JArray _ | JObject _ => true
  | _ => false
  end.

(** [typeof v === "string"] *)
Definition isString (v : option Json) : bool :=
  match v with
  | Some (JString _) => true
  | _ => false
  end.

(** [Array.isArray(v)] *)
Definition isArray (v : option Json) : bool :=
  match v with
  | Some (JArray _) => true
  | _ => false
  end.

(** [typeof v === "boolean"] *)
Definition isBoolean (v : option Json) : bool :=
  match v with
  | Some (JBool _) => true
  | _ => false
  end.

(** The body of the loop [for (let i = 0; i < data.length; i++)]: the
    message of the error it throws, if it throws. *)
Definition checkProduct (i : nat) (p : Json) : option string :=
  let prefix := "products[" +:+ pretty i +:+ "]" in
  if negb (isObjectLike p) then Some (prefix +:+ ": must be an object")
  else
    match List.find (fun key => negb (isString (property p key)))
            ["id"; "displayName"; "githubRepo"; "tagPrefix"] with
    | Some key => Some (prefix +:+ "." +:+ key +:+ ": must be a string")
    | None =>
        if negb (isArray (property p "hostnames"))
        then Some (prefix +:+ ".hostnames: must be an array of strings")
        else if negb (isBoolean (property p "tauriUpdates"))
        then Some (prefix +:+ ".tauriUpdates: must be a boolean")
        else None
    end.

Fixpoint checkFrom (i : nat) (items : list Json) : option string :=
  match items with
  | [] => None
  | p :: items' =>
      match checkProduct i p with
      | Some message => Some message
      | None => checkFrom (S i) items'
      end
  end.

(** How [validateProducts] ends: it returns its argument, or throws. *)
Inductive Validated :=
| Accepted (products : list Json)
| Refused (message : string).

Definition validateProducts (data : Json) : Validated :=
  match data with
  | JArray items =>
      if (length items =? 0)%nat
      then Refused "Products config must contain at least one product"
      else match checkFrom 0 items with
           | Some message => Refused message
           | None => Accepted items
           end
  | _ => Refused "Products config must be a JSON array"
  end.

(** An entry with the six fields of a [ProductConfig], each of its kind;
    what the elements of [hostnames] are is left open. *)
Definition hasProductFields (p : Json) : Prop :=
  exists id displayName githubRepo tagPrefix hostnames tauriUpdates,
    property p "id" = Some (JString id)
    /\ property p "displayName" = Some (JString displayName)
    /\ property p "githubRepo" = Some (JString githubRepo)
    /\ property p "tagPrefix" = Some (JString tagPrefix)
    /\ property p "hostnames" = Some (JArray hostnames)
    /\ property p "tauriUpdates" = Some (JBool tauriUpdates).

(** The first entry of [products.sample.json], and one whose hostname is
    a number. *)
Definition sampleProduct (hostname : Json) : Json :=
  JObject [ ("id", JString "jstorrent"); ("displayName", JString "JSTorrent");
            ("hostnames", JArray [hostname]); ("githubRepo", JString "kzahel/JSTorrent");
            ("tagPrefix", JString "tauri-app-v"); ("tauriUpdates", JBool true) ].

(** ** src/stats.ts: parseDayFile, and the lines of src/analytics.ts *)

(** The line feed, as a code unit. *)
Definition LFchar : ascii := ascii_of_nat 10.

(** The text that [AnalyticsLogger.log] writes for an entry:
    [`${JSON.stringify(entry)}\n`]. *)
Definition logLine (stringify : UpdateCheckEvent -> string) (entry : UpdateCheckEvent)
  : string :=
  stringify entry +:+ JS.LF.

(** The events of one line of a day file: none for a blank line
    ([!line.trim()]) and none for a line that [JSON.parse] rejects
    ([parse] is [None] where it throws). *)
Definition parseLine (parse : string -> option UpdateCheckEvent) (line : string)
  : list UpdateCheckEvent :=
  if String.eqb (JS.trim line) "" then []
  else match parse line with
       | Some event => [event]
       | None => []
       end.

(** [parseDayFile(filePath)], on what [fs.readFileSync] yields for the
    path: the content of the file, or [None] where it throws. *)
Definition parseDayFile (parse : string -> option UpdateCheckEvent) (file : option string)
  : list UpdateCheckEvent :=
  match file with
  | None => []
  | Some content => concat (map (parseLine parse) (JS.split LFchar content))
  end.

(** What the logger has written to a day file after logging [entries]
    in this order. *)
Definition written (stringify : UpdateCheckEvent -> string) (entries : list UpdateCheckEvent)
  : string :=
  foldr (fun entry rest => logLine stringify entry +:+ rest) "" entries.

(** A stand-in for [JSON.stringify] and [JSON.parse] on the entries of
    one product and day: the client version between braces. *)
Definition sampleStringify (e : UpdateCheckEvent) : string :=
  "{" +:+ currentVersion e +:+ "}".

Definition sampleParse (line : string) : option UpdateCheckEvent :=
  if String.eqb line "{0.1.20}" then Some (sampleEvent "0.1.20" "client-a")
  else if String.eqb line "{0.1.19}" then Some (sampleEvent "0.1.19" "client-a")
  else None.

(** * Properties *)

(** ** Characters *)

Lemma digit_not_space c : JS.isDigit c = true -> JS.isWhiteSpace c = false.
Proof. destruct c as [[] [] [] [] [] [] [] []]; vm_compute; congruence. Qed.

Lemma digit_not_sign c : JS.isDigit c = true -> c <> "-"%char /\ c <> "+"%char.
Proof. destruct c as [[] [] [] [] [] [] [] []]; vm_compute; split; congruence. Qed.

(** ** Version tuples *)

Section Tuples.

Lemma lexCompare_antisym ta : forall tb, lexCompare ta tb = - lexCompare tb ta.
Proof.
  induction ta as [|x ta IH]; intros [|y tb]; simpl; try reflexivity.
  destruct (Z.ltb_spec x y), (Z.ltb_spec y x); try lia. apply IH.
Qed.

Lemma lexCompare_refl ta : lexCompare ta ta = 0.
Proof.
  induction ta as [|x ta IH]; simpl; [reflexivity|].
  rewrite Z.ltb_irrefl. exact IH.
Qed.

Lemma lexCompare_range ta : forall tb,
  lexCompare ta tb = -1 \/ lexCompare ta tb = 0 \/ lexCompare ta tb = 1.
Proof.
  induction ta as [|x ta IH]; intros [|y tb]; simpl; auto.
  destruct (x <? y); auto. destruct (y <? x); auto.
Qed.

Lemma padTo_nil n : padTo (S n) [] = 0 :: padTo n [].
Proof. unfold padTo. simpl. now rewrite Nat.sub_0_r. Qed.

Lemma padTo_cons n x t : padTo (S n) (x :: t) = x :: padTo n t.
Proof. reflexivity. Qed.

Lemma padTo_length n t : (length t <= n)%nat -> length (padTo n t) = n.
Proof. intros H. unfold padTo. rewrite length_app, repeat_length. lia. Qed.

(** Reading the padded tuple is reading the tuple with [0] for a
    missing segment. *)
Lemma padTo_lookup n t j :
  default 0 (padTo n t !! j) = default 0 (t !! j).
Proof.
  unfold padTo. destruct (Nat.lt_ge_cases j (length t)) as [Hlt|Hge].
  - now rewrite lookup_app_l.
  - rewrite lookup_app_r by assumption. rewrite (lookup_ge_None_2 t j) by assumption.
    simpl. destruct (repeat 0 (n - length t) !! (j - length t)%nat) as [z|] eqn:E; [|reflexivity].
    apply list_elem_of_lookup_2, list_elem_of_In, repeat_spec in E. now subst.
Qed.

(** The loop of [sortVersions] reads its arrays only through [ka[i]]:
    dropping the first element of both shifts the index. *)
Lemma sortVersionsLoop_shift ka kb ka' kb' todo : forall i,
  (forall j, ka !! S j = ka' !! j) ->
  (forall j, kb !! S j = kb' !! j) ->
  sortVersionsLoop ka kb (S i) todo = sortVersionsLoop ka' kb' i todo.
Proof.
  induction todo as [|todo IH]; intros i Ha Hb; simpl; [reflexivity|].
  rewrite Ha, Hb. destruct (negb _); [reflexivity|]. now apply IH.
Qed.

Lemma sortVersionsLoop_antisym ka kb todo : forall i,
  sortVersionsLoop ka kb i todo = - sortVersionsLoop kb ka i todo.
Proof.
  induction todo as [|todo IH]; intros i; simpl; [reflexivity|].
  set (x := JS.orZero (ka !! i)). set (y := JS.orZero (kb !! i)).
  destruct (Z.eqb_spec (x - y) 0), (Z.eqb_spec (y - x) 0); simpl; try lia.
  apply IH.
Qed.

Lemma sortVersionsLoop_refl ka todo : forall i, sortVersionsLoop ka ka i todo = 0.
Proof.
  induction todo as [|todo IH]; intros i; simpl; [reflexivity|].
  rewrite Z.sub_diag. simpl. apply IH.
Qed.

(** The loop of [sortVersions] has the sign of the lexicographic
    comparison of the zero-padded tuples. *)
Lemma sortVersionsLoop_sgn n : forall ka kb,
  (length ka <= n)%nat -> (length kb <= n)%nat ->
  Z.sgn (sortVersionsLoop ka kb 0 n) = lexCompare (padTo n ka) (padTo n kb).
Proof.
  induction n as [|n IH]; intros ka kb Ha Hb.
  - destruct ka, kb; simpl in *; try lia; reflexivity.
  - assert (Hstep : forall x y ka' kb',
              (length ka' <= n)%nat -> (length kb' <= n)%nat ->
              JS.orZero (ka !! 0%nat) = x -> JS.orZero (kb !! 0%nat) = y ->
              (forall j, ka !! S j = ka' !! j) -> (forall j, kb !! S j = kb' !! j) ->
              Z.sgn (sortVersionsLoop ka kb 0 (S n))
              = lexCompare (x :: padTo n ka') (y :: padTo n kb')).
    { intros x y ka' kb' Ha' Hb' Hx Hy Hsa Hsb. simpl. rewrite Hx, Hy.
      destruct (Z.eqb_spec (x - y) 0) as [E|E]; simpl.
      - rewrite (sortVersionsLoop_shift ka kb ka' kb') by assumption.
        rewrite IH by assumption.
        destruct (Z.ltb_spec x y), (Z.ltb_spec y x); lia.
      - destruct (Z.ltb_spec x y), (Z.ltb_spec y x); lia. }
    destruct ka as [|x ka], kb as [|y kb]; simpl in Ha, Hb;
      rewrite ?padTo_nil, ?padTo_cons;
      apply Hstep; simpl; auto; lia.
Qed.

Lemma lexCompare_eq_iff p : forall q, length p = length q ->
  (lexCompare p q = 0 <-> forall j, default 0 (p !! j) = default 0 (q !! j)).
Proof.
  induction p as [|x p IH]; intros [|y q] Hlen; simpl in Hlen; try discriminate.
  - split; auto.
  - injection Hlen as Hlen. simpl.
    destruct (Z.ltb_spec x y) as [Hxy|Hxy]; [|destruct (Z.ltb_spec y x) as [Hyx|Hyx]].
    + split; [discriminate|]. intros H. specialize (H 0%nat). simpl in H. lia.
    + split; [discriminate|]. intros H. specialize (H 0%nat). simpl in H. lia.
    + rewrite (IH q Hlen). split.
      * intros H [|j]; simpl; [lia|apply H].
      * intros H j. apply (H (S j)).
Qed.

Lemma lexCompare_gt_iff p : forall q, length p = length q ->
  (lexCompare p q = 1 <->
   exists i, (forall j, (j < i)%nat -> default 0 (p !! j) = default 0 (q !! j))
             /\ default 0 (q !! i) < default 0 (p !! i)).
Proof.
  induction p as [|x p IH]; intros [|y q] Hlen; simpl in Hlen; try discriminate.
  - simpl. split; [discriminate|]. intros [i [_ H]]. simpl in H. lia.
  - injection Hlen as Hlen. simpl.
    destruct (Z.ltb_spec x y) as [Hxy|Hxy]; [|destruct (Z.ltb_spec y x) as [Hyx|Hyx]].
    + split; [discriminate|]. intros [[|i] [Hpre H]]; simpl in H; [lia|].
      specialize (Hpre 0%nat). simpl in Hpre. lia.
    + split; [|reflexivity]. intros _. exists 0%nat. split; [lia|assumption].
    + rewrite (IH q Hlen). split.
      * intros [i [Hpre H]]. exists (S i). split; [|exact H].
        intros [|j] Hj; simpl; [lia|]. apply Hpre. lia.
      * intros [[|i] [Hpre H]]; simpl in H; [lia|].
        exists i. split; [|exact H]. intros j Hj. apply (Hpre (S j)). lia.
Qed.

End Tuples.

(** ** Parsing segments *)

Lemma digitsPrefix_seen s : forall acc, snd (JS.digitsPrefix s acc true) = true.
Proof.
  induction s as [|c s IH]; intros acc; simpl; [reflexivity|].
  destruct (JS.isDigit c); [apply IH|reflexivity].
Qed.

Lemma digitsPrefix_acc s : forall acc seen seen',
  fst (JS.digitsPrefix s acc seen) = fst (JS.digitsPrefix s acc seen').
Proof.
  induction s as [|c s IH]; intros acc seen seen'; simpl; [reflexivity|].
  destruct (JS.isDigit c); reflexivity.
Qed.

Lemma validSegment_inv seg :
  validSegment seg = true ->
  exists c rest, seg = String c rest /\ JS.isDigit c = true /\ JS.allDigits rest = true.
Proof.
  unfold validSegment. destruct seg as [|c rest]; simpl; [discriminate|].
  intros H. apply andb_prop in H as [Hc Hr]. eauto.
Qed.

(** On a segment made of digits, [parseInt] reads the whole segment. *)
Lemma parseInt10_valid seg :
  validSegment seg = true ->
  JS.parseInt10 seg = Some (fst (JS.digitsPrefix seg 0 false)).
Proof.
  intros H. destruct (validSegment_inv seg H) as (c & rest & -> & Hc & Hr).
  pose proof (digit_not_space c Hc) as Hws.
  unfold JS.parseInt10. simpl JS.trimStart. rewrite Hws.
  assert (Hsign : (let '(sign, rest0) :=
                     match String c rest with
                     | String "-"%char r => (-1, r)
                     | String "+"%char r => (1, r)
                     | _ => (1, String c rest)
                     end in
                   match JS.digitsPrefix rest0 0 false with
                   | (n, true) => Some (sign * n)
                   | (_, false) => None
                   end)
                  = match JS.digitsPrefix (String c rest) 0 false with
                    | (n, true) => Some (1 * n)
                    | (_, false) => None
                    end).
  { destruct c as [[] [] [] [] [] [] [] []]; try reflexivity; vm_compute in Hc; discriminate. }
  rewrite Hsign. simpl. rewrite Hc.
  pose proof (digitsPrefix_seen rest (0 * 10 + JS.digitValue c)) as Hseen.
  destruct (JS.digitsPrefix rest (0 * 10 + JS.digitValue c) true) as [n seen].
  simpl in Hseen. subst seen. simpl. f_equal. lia.
Qed.

Lemma verKey_valid v : isValidVersion v = true -> verKey v = versionTuple v.
Proof.
  unfold isValidVersion, verKey, versionTuple. intros H.
  apply andb_prop in H as [_ H]. rewrite forallb_forall in H.
  apply map_ext_in. intros seg Hin. specialize (H seg Hin).
  rewrite (parseInt10_valid seg H). unfold parseSegment. now rewrite H.
Qed.

(** ** The comparison of versions *)

Lemma compareVersions_antisym a b : compareVersions a b = - compareVersions b a.
Proof.
  unfold compareVersions. rewrite (Nat.max_comm (length (versionTuple b))).
  apply lexCompare_antisym.
Qed.

Lemma compareVersions_refl a : compareVersions a a = 0.
Proof. unfold compareVersions. apply lexCompare_refl. Qed.

Lemma compareVersions_padded_lengths a b :
  let n := Nat.max (length (versionTuple a)) (length (versionTuple b)) in
  length (padTo n (versionTuple a)) = length (padTo n (versionTuple b)).
Proof. intros n. rewrite !padTo_length; lia. Qed.

Lemma compareVersions_eq_iff a b :
  compareVersions a b = 0 <-> forall j, segmentAt a j = segmentAt b j.
Proof.
  unfold compareVersions, segmentAt.
  rewrite lexCompare_eq_iff by apply compareVersions_padded_lengths.
  split; intros H j; specialize (H j); rewrite ?padTo_lookup in *; exact H.
Qed.

Lemma compareVersions_gt_iff a b :
  compareVersions a b = 1 <->
  exists i, (forall j, (j < i)%nat -> segmentAt a j = segmentAt b j)
            /\ segmentAt b i < segmentAt a i.
Proof.
  unfold compareVersions, segmentAt.
  rewrite lexCompare_gt_iff by apply compareVersions_padded_lengths.
  split; intros [i [Hpre H]]; exists i; rewrite ?padTo_lookup in *; (split; [|exact H]);
    intros j Hj; specialize (Hpre j Hj); rewrite ?padTo_lookup in *; exact Hpre.
Qed.

Lemma sortVersionsCmp_antisym a b : sortVersionsCmp a b = - sortVersionsCmp b a.
Proof.
  unfold sortVersionsCmp. rewrite (Nat.max_comm (length (verKey b))).
  apply sortVersionsLoop_antisym.
Qed.

Lemma sortVersionsCmp_refl a : sortVersionsCmp a a = 0.
Proof. apply sortVersionsLoop_refl. Qed.

(** On valid versions the comparator of the dashboard and
    [compareVersions] order alike. *)
Lemma sortVersionsCmp_sgn a b :
  isValidVersion a = true -> isValidVersion b = true ->
  Z.sgn (sortVersionsCmp a b) = compareVersions a b.
Proof.
  intros Ha Hb. unfold sortVersionsCmp, compareVersions.
  rewrite (verKey_valid a Ha), (verKey_valid b Hb).
  apply sortVersionsLoop_sgn; lia.
Qed.

Lemma compareVersions_range a b :
  compareVersions a b = -1 \/ compareVersions a b = 0 \/ compareVersions a b = 1.
Proof. apply lexCompare_range. Qed.

(** [compareVersions] sees a version only through its zero-padded
    segments. *)
Lemma compareVersions_segments a a' b b' :
  (forall j, segmentAt a j = segmentAt a' j) ->
  (forall j, segmentAt b j = segmentAt b' j) ->
  compareVersions a b = compareVersions a' b'.
Proof.
  intros Ha Hb.
  assert (Hgt : forall u u' v v',
             (forall j, segmentAt u j = segmentAt u' j) ->
             (forall j, segmentAt v j = segmentAt v' j) ->
             compareVersions u v = 1 -> compareVersions u' v' = 1).
  { intros u u' v v' Hu Hv H. apply compareVersions_gt_iff in H as [i [Hpre H]].
    apply compareVersions_gt_iff. exists i. split.
    - intros j Hj. rewrite <- Hu, <- Hv. now apply Hpre.
    - now rewrite <- Hu, <- Hv. }
  destruct (compareVersions_range a b) as [H|[H|H]]; rewrite H; symmetry.
  - rewrite compareVersions_antisym.
    rewrite (Hgt b b' a a' Hb Ha); [reflexivity|]. rewrite compareVersions_antisym, H. reflexivity.
  - apply compareVersions_eq_iff. intros j. rewrite <- Ha, <- Hb.
    now apply compareVersions_eq_iff.
  - now apply (Hgt a a' b b').
Qed.

Lemma split_nonempty sep s : JS.split sep s <> [].
Proof.
  destruct s as [|c s]; simpl; [discriminate|].
  destruct (Ascii.eqb c sep); [discriminate|]. destruct (JS.split sep s); discriminate.
Qed.

Lemma split_dot_zero a : JS.split "."%char (a +:+ ".0") = JS.split "."%char a ++ ["0"].
Proof.
  induction a as [|c a IH]; [reflexivity|].
  simpl. destruct (Ascii.eqb c "."%char).
  - now rewrite IH.
  - rewrite IH. pose proof (split_nonempty "."%char a) as Hne.
    destruct (JS.split "."%char a); [contradiction|reflexivity].
Qed.

(** A trailing [.0] leaves every zero-padded segment as it was. *)
Lemma segmentAt_dot_zero a j : segmentAt (a +:+ ".0") j = segmentAt a j.
Proof.
  unfold segmentAt, versionTuple. rewrite split_dot_zero, map_app.
  change (map parseSegment ["0"]) with (repeat 0 (1 - 0)%nat).
  set (t := map parseSegment (JS.split "."%char a)).
  pose proof (padTo_lookup (S (length t)) t j) as H. unfold padTo in H.
  now replace (S (length t) - length t)%nat with (1 - 0)%nat in H by lia.
Qed.

(** ** aggregateNotes *)

Lemma isNewer_spec cur n :
  isNewer cur n = true <->
  isValidVersion (version n) = true /\ 0 < compareVersions (version n) cur.
Proof. unfold isNewer. rewrite andb_true_iff, Z.ltb_lt. reflexivity. Qed.

Lemma filter_none {A} (f : A -> bool) l :
  (forall x, In x l -> f x = false) -> List.filter f l = [].
Proof.
  induction l as [|x l IH]; intros H; simpl; [reflexivity|].
  rewrite (H x) by now left. apply IH. intros y Hy. apply H. now right.
Qed.

Lemma filter_one {A} (f : A -> bool) pre x post :
  f x = true ->
  (forall y, In y (pre ++ post) -> f y = false) ->
  List.filter f (pre ++ x :: post) = [x].
Proof.
  intros Hx H. rewrite List.filter_app. simpl. rewrite Hx.
  rewrite !filter_none; [reflexivity| |]; intros y Hy; apply H, in_or_app; auto.
Qed.

Lemma filter_sublist {A} (f : A -> bool) l : sublist (List.filter f l) l.
Proof.
  induction l as [|x l IH]; simpl; [constructor|].
  destruct (f x); now constructor.
Qed.

Lemma filter_StronglySorted {A} (R : A -> A -> Prop) (f : A -> bool) l :
  StronglySorted R l -> StronglySorted R (List.filter f l).
Proof.
  induction 1 as [|x l Hl IH Hx]; simpl; [constructor|].
  destruct (f x); [|exact IH]. constructor; [exact IH|].
  rewrite List.Forall_forall in *. intros y Hy. apply filter_In in Hy as [Hy _]. now apply Hx.
Qed.

Lemma sortByVersion_sorted l : StronglySorted ascending l -> sortByVersion l = l.
Proof.
  induction 1 as [|x l Hl IH Hx]; [reflexivity|].
  change (sortByVersion (x :: l)) with (insertByVersion x (sortByVersion l)).
  rewrite IH. destruct l as [|m l]; [reflexivity|].
  simpl. inversion Hx as [|? ? Hxm _]; subst. unfold ascending in Hxm.
  destruct (Z.leb_spec (compareVersions (version x) (version m)) 0); [reflexivity|lia].
Qed.

(** C6. For every list of notes and every current version,
    [aggregateNotes] keeps exactly the entries whose version is valid and
    strictly greater than the current version; it returns the empty
    string when no entry matches, and the notes text of the single
    matching entry, with no heading, when exactly one matches. *)
Theorem aggregateNotes_keeps_newer (allNotes : list VersionNotes) (current : string) :
  (forall n, In n (List.filter (isNewer current) allNotes) <->
             In n allNotes /\ isValidVersion (version n) = true
             /\ 0 < compareVersions (version n) current)
  /\ aggregateNotes allNotes current
     = aggregateNotes (List.filter (isNewer current) allNotes) current
  /\ ((forall n, In n allNotes ->
         ~ (isValidVersion (version n) = true /\ 0 < compareVersions (version n) current)) ->
      aggregateNotes allNotes current = "")
  /\ (forall pre n post,
        allNotes = pre ++ n :: post ->
        isValidVersion (version n) = true ->
        0 < compareVersions (version n) current ->
        (forall m, In m (pre ++ post) ->
           ~ (isValidVersion (version m) = true /\ 0 < compareVersions (version m) current)) ->
        aggregateNotes allNotes current = notes n).
Proof.
  split; [|split; [|split]].
  - intros n. rewrite filter_In, isNewer_spec. reflexivity.
  - unfold aggregateNotes.
    replace (List.filter (isNewer current) (List.filter (isNewer current) allNotes))
      with (List.filter (isNewer current) allNotes); [reflexivity|].
    induction allNotes as [|x l IH]; simpl; [reflexivity|].
    destruct (isNewer current x) eqn:E; simpl; rewrite ?E; congruence.
  - intros H. unfold aggregateNotes. rewrite filter_none; [reflexivity|].
    intros n Hn. destruct (isNewer current n) eqn:E; [|reflexivity].
    apply isNewer_spec in E. now destruct (H n Hn).
  - intros pre n post -> Hv Hc H. unfold aggregateNotes.
    rewrite (filter_one (isNewer current) pre n post); [reflexivity| |].
    + now apply isNewer_spec.
    + intros m Hm. destruct (isNewer current m) eqn:E; [|reflexivity].
      apply isNewer_spec in E. now destruct (H m Hm).
Qed.

Lemma aggregateNotes_keeps_newer_witness :
  isValidVersion "0.1.21" = true /\ 0 < compareVersions "0.1.21" "0.1.20"
  /\ aggregateNotes freshNotes "0.1.20" = "- Remember window position across restarts".
Proof.
  split; [reflexivity|]. split; [reflexivity|].
  destruct (aggregateNotes_keeps_newer freshNotes "0.1.20") as (_ & _ & _ & H).
  apply (H [] {| version := "0.1.21"; notes := "- Remember window position across restarts" |}
           (tl freshNotes)); [reflexivity|reflexivity|reflexivity|].
  intros m Hm [Hv Hc]. simpl in Hm.
  destruct Hm as [<-|[<-|[<-|[]]]]; vm_compute in Hc; discriminate.
Defined.

(** C1, as the specification states it, fails: with the notes of
    [test/server.test.ts], which list the newest release first, and a
    client on 0.1.18, three notes are newer and [aggregateNotes] returns
    their sections newest first, not in ascending version order. *)
Lemma aggregateNotes_keeps_input_order_counterexample :
  (1 < length (List.filter (isNewer "0.1.18") freshNotes))%nat
  /\ aggregateNotes freshNotes "0.1.18"
     = "## 0.1.21" +:+ JS.LF +:+ "- Remember window position across restarts"
       +:+ JS.LF +:+ JS.LF +:+
       "## 0.1.20" +:+ JS.LF +:+ "- Add magnet/torrent routing" +:+ JS.LF
       +:+ "- Launch desktop app from extension"
       +:+ JS.LF +:+ JS.LF +:+
       "## 0.1.19" +:+ JS.LF +:+ "- Add profile picker UI"
  /\ aggregateNotes freshNotes "0.1.18" <> aggregateNotesAscending freshNotes "0.1.18"
  /\ aggregateNotes freshNotes "0.1.18" <> aggregateNotes (rev freshNotes) "0.1.18".
Proof.
  split; [vm_compute; lia|]. split; [vm_compute; reflexivity|].
  split; vm_compute; discriminate.
Qed.

(** C1, amended. When more than one note has a valid version strictly
    newer than the current version, [aggregateNotes] returns those notes
    as ["## {version}\n{notes}"] sections joined by a blank line, in the
    order in which they stand in the input list; the sections are in
    ascending version order when the input list is. *)
Theorem aggregateNotes_sections_in_input_order
    (allNotes : list VersionNotes) (current : string) :
  (1 < length (List.filter (isNewer current) allNotes))%nat ->
  aggregateNotes allNotes current
  = JS.join (JS.LF +:+ JS.LF) (map section (List.filter (isNewer current) allNotes))
  /\ sublist (List.filter (isNewer current) allNotes) allNotes
  /\ (StronglySorted ascending allNotes ->
      StronglySorted ascending (List.filter (isNewer current) allNotes)
      /\ aggregateNotes allNotes current = aggregateNotesAscending allNotes current).
Proof.
  intros Hlen.
  assert (Heq : aggregateNotes allNotes current
                = JS.join (JS.LF +:+ JS.LF)
                    (map section (List.filter (isNewer current) allNotes))).
  { unfold aggregateNotes.
    destruct (List.filter (isNewer current) allNotes) as [|x [|y l]]; simpl in Hlen; try lia.
    reflexivity. }
  split; [exact Heq|]. split; [apply filter_sublist|].
  intros Hsorted.
  pose proof (filter_StronglySorted ascending (isNewer current) allNotes Hsorted) as Hf.
  split; [exact Hf|].
  rewrite Heq. unfold aggregateNotesAscending. rewrite (sortByVersion_sorted _ Hf).
  destruct (List.filter (isNewer current) allNotes) as [|x [|y l]]; simpl in Hlen; try lia.
  reflexivity.
Qed.

Lemma aggregateNotes_sections_in_input_order_witness :
  (1 < length (List.filter (isNewer "0.1.18") (rev freshNotes)))%nat
  /\ aggregateNotes (rev freshNotes) "0.1.18"
     = JS.join (JS.LF +:+ JS.LF)
         (map section (List.filter (isNewer "0.1.18") (rev freshNotes))).
Proof.
  assert (H : (1 < length (List.filter (isNewer "0.1.18") (rev freshNotes)))%nat)
    by (vm_compute; lia).
  split; [exact H|].
  exact (proj1 (aggregateNotes_sections_in_input_order (rev freshNotes) "0.1.18" H)).
Defined.

(** ** compare *)

(** C8. For all valid versions [a] and [b]: [compare(a, b) = -compare(b, a)]
    and [compare(a, a) = 0]; the shorter tuple is padded with trailing
    zeros (a trailing [.0] changes nothing, so "1.2" equals "1.2.0"); the
    order is the lexicographic one on the integer segments (so
    "2.0" > "1.99" and "0.1.21" > "0.1.20").  The comparator of
    [sortVersions] in [src/stats.ts] obeys the same laws and has the same
    sign, for segments that a JavaScript number holds exactly. *)
Theorem compareVersions_laws (a b : string) :
  isValidVersion a = true -> isValidVersion b = true ->
  compareVersions a b = - compareVersions b a
  /\ compareVersions a a = 0
  /\ (compareVersions a b = -1 \/ compareVersions a b = 0 \/ compareVersions a b = 1)
  /\ compareVersions (a +:+ ".0") b = compareVersions a b
  /\ compareVersions a (b +:+ ".0") = compareVersions a b
  /\ (compareVersions a b = 0 <-> forall j, segmentAt a j = segmentAt b j)
  /\ (compareVersions a b = 1 <->
      exists i, (forall j, (j < i)%nat -> segmentAt a j = segmentAt b j)
                /\ segmentAt b i < segmentAt a i)
  /\ compareVersions "1.2" "1.2.0" = 0
  /\ 0 < compareVersions "2.0" "1.99"
  /\ 0 < compareVersions "0.1.21" "0.1.20"
  /\ (safeKey (verKey a) -> safeKey (verKey b) ->
      Z.sgn (sortVersionsCmp a b) = compareVersions a b
      /\ sortVersionsCmp a b = - sortVersionsCmp b a
      /\ sortVersionsCmp a a = 0).
Proof.
  intros Ha Hb.
  split; [apply compareVersions_antisym|].
  split; [apply compareVersions_refl|].
  split; [apply compareVersions_range|].
  split; [apply compareVersions_segments; [apply segmentAt_dot_zero|reflexivity]|].
  split; [apply compareVersions_segments; [reflexivity|apply segmentAt_dot_zero]|].
  split; [apply compareVersions_eq_iff|].
  split; [apply compareVersions_gt_iff|].
  do 3 (split; [reflexivity|]).
  intros _ _.
  split; [now apply sortVersionsCmp_sgn|].
  split; [apply sortVersionsCmp_antisym|apply sortVersionsCmp_refl].
Qed.

Lemma compareVersions_laws_witness :
  isValidVersion "2.0" = true /\ isValidVersion "1.99" = true
  /\ safeKey (verKey "2.0") /\ safeKey (verKey "1.99")
  /\ compareVersions "2.0" "1.99" = - compareVersions "1.99" "2.0"
  /\ Z.sgn (sortVersionsCmp "2.0" "1.99") = compareVersions "2.0" "1.99".
Proof.
  assert (Ha : safeKey (verKey "2.0")).
  { change (verKey "2.0") with [2; 0].
    repeat (constructor; [change MAX_SAFE_INTEGER with 9007199254740991; lia|]).
    constructor. }
  assert (Hb : safeKey (verKey "1.99")).
  { change (verKey "1.99") with [1; 99].
    repeat (constructor; [change MAX_SAFE_INTEGER with 9007199254740991; lia|]).
    constructor. }
  destruct (compareVersions_laws "2.0" "1.99" eq_refl eq_refl)
    as (Hanti & _ & _ & _ & _ & _ & _ & _ & _ & _ & Hstats).
  split; [reflexivity|]. split; [reflexivity|].
  split; [exact Ha|]. split; [exact Hb|].
  split; [exact Hanti|exact (proj1 (Hstats Ha Hb))].
Defined.

(** ** findPlatformUpdate *)

(** C5. [findPlatformUpdate] returns [null] if and only if the key
    ["{target}-{arch}"] is absent from [latest.platforms]; otherwise it
    returns the version and date of [latest], the url and signature of
    the artifact found, and the notes the caller supplied. *)
Theorem findPlatformUpdate_lookup
    (latest : LatestJson) (target arch notes : string) :
  (findPlatformUpdate latest target arch notes = None
   <-> platforms latest !! (target +:+ "-" +:+ arch) = None)
  /\ (forall artifact,
        platforms latest !! (target +:+ "-" +:+ arch) = Some artifact ->
        findPlatformUpdate latest target arch notes
        = Some {| update_version := latest_version latest;
                  update_notes := notes;
                  update_pub_date := latest_pub_date latest;
                  update_url := entry_url artifact;
                  update_signature := entry_signature artifact |}).
Proof.
  unfold findPlatformUpdate. split.
  - destruct (platforms latest !! (target +:+ "-" +:+ arch)); split; congruence.
  - intros artifact ->. reflexivity.
Qed.

Lemma findPlatformUpdate_lookup_witness :
  platforms mockLatest !! ("darwin" +:+ "-" +:+ "aarch64")
  = Some {| entry_signature := "sig-darwin-aarch64";
            entry_url := "https://github.com/example/releases/download/v0.1.21/App_aarch64.app.tar.gz" |}
  /\ findPlatformUpdate mockLatest "darwin" "aarch64" "notes"
     = Some {| update_version := "0.1.21";
               update_notes := "notes";
               update_pub_date := "2026-02-11T07:33:31.665Z";
               update_url := "https://github.com/example/releases/download/v0.1.21/App_aarch64.app.tar.gz";
               update_signature := "sig-darwin-aarch64" |}
  /\ findPlatformUpdate mockLatest "freebsd" "aarch64" "notes" = None.
Proof.
  assert (H : platforms mockLatest !! ("darwin" +:+ "-" +:+ "aarch64")
              = Some {| entry_signature := "sig-darwin-aarch64";
                        entry_url := "https://github.com/example/releases/download/v0.1.21/App_aarch64.app.tar.gz" |})
    by (vm_compute; reflexivity).
  split; [exact H|]. split.
  - exact (proj2 (findPlatformUpdate_lookup mockLatest "darwin" "aarch64" "notes") _ H).
  - apply (proj1 (findPlatformUpdate_lookup mockLatest "freebsd" "aarch64" "notes")).
    vm_compute; reflexivity.
Defined.

(** C10. Two manifests that differ at most in their [notes] give the same
    result for every target, architecture and notes argument; the notes of
    a resolved update are the notes argument. *)
Theorem findPlatformUpdate_ignores_manifest_notes
    (latest1 latest2 : LatestJson) (target arch notes : string) :
  latest_version latest1 = latest_version latest2 ->
  latest_pub_date latest1 = latest_pub_date latest2 ->
  platforms latest1 = platforms latest2 ->
  findPlatformUpdate latest1 target arch notes = findPlatformUpdate latest2 target arch notes
  /\ (forall u, findPlatformUpdate latest1 target arch notes = Some u -> update_notes u = notes).
Proof.
  intros Hv Hd Hp. unfold findPlatformUpdate. rewrite Hv, Hd, Hp. split; [reflexivity|].
  intros u. destruct (platforms latest2 !! (target +:+ "-" +:+ arch)); [|discriminate].
  intros [= <-]. reflexivity.
Qed.

(** [latest] with its [notes] field replaced. *)
Lemma findPlatformUpdate_ignores_manifest_notes_witness :
  findPlatformUpdate mockLatest "linux" "x86_64" "caller notes"
  = findPlatformUpdate
      {| latest_version := latest_version mockLatest;
         latest_notes := "other notes";
         latest_pub_date := latest_pub_date mockLatest;
         platforms := platforms mockLatest |}
      "linux" "x86_64" "caller notes".
Proof.
  exact (proj1 (findPlatformUpdate_ignores_manifest_notes mockLatest
                  {| latest_version := latest_version mockLatest;
                     latest_notes := "other notes";
                     latest_pub_date := latest_pub_date mockLatest;
                     platforms := platforms mockLatest |}
                  "linux" "x86_64" "caller notes" eq_refl eq_refl eq_refl)).
Defined.

(** ** The handlers *)

(** C2. For every Tauri update check against a cached latest release, the
    update-available decision (the one logged) is true if and only if
    [findPlatformUpdate] found an artifact and
    [compare(latest.version, currentVersion) > 0]; when it is false the
    handler answers 204 with no body, when it is true 200 with the
    resolved update. *)
Theorem handleTauriUpdateCheck_decision
    (now : string) (req : Request) (productId : string) (latest : LatestJson)
    (allNotes : list VersionNotes) (target arch current : string) :
  exists event,
    logged (handleTauriUpdateCheck now req productId (Some latest) allNotes target arch current)
    = [event]
    /\ currentVersion event = current
    /\ latestVersion event = latest_version latest
    /\ (updateAvailable event = true <->
        is_Some (findPlatformUpdate latest target arch (aggregateNotes allNotes current))
        /\ 0 < compareVersions (latest_version latest) current)
    /\ (updateAvailable event = false ->
        response (handleTauriUpdateCheck now req productId (Some latest) allNotes
                    target arch current)
        = {| status := 204; payload := NoBody |})
    /\ (updateAvailable event = true ->
        exists update,
          findPlatformUpdate latest target arch (aggregateNotes allNotes current) = Some update
          /\ response (handleTauriUpdateCheck now req productId (Some latest) allNotes
                         target arch current)
             = {| status := 200; payload := JsonUpdate (Some update) |}).
Proof.
  unfold handleTauriUpdateCheck.
  set (platform := findPlatformUpdate latest target arch (aggregateNotes allNotes current)).
  set (available := bool_decide (is_Some platform)
                    && (0 <? compareVersions (latest_version latest) current)).
  assert (Hav : available = true
                <-> is_Some platform /\ 0 < compareVersions (latest_version latest) current).
  { unfold available. rewrite andb_true_iff, bool_decide_eq_true, Z.ltb_lt. reflexivity. }
  destruct available eqn:E; simpl; eexists;
    (split; [reflexivity|]); simpl; (split; [reflexivity|]); (split; [reflexivity|]);
    (split; [exact Hav|]); (split; [|]); try discriminate; try reflexivity.
  intros _. destruct (proj1 Hav eq_refl) as [[update Hu] _].
  exists update. rewrite Hu. split; reflexivity.
Qed.

Lemma handleTauriUpdateCheck_decision_witness :
  response (handleTauriUpdateCheck (now testEnv) (fetchFrom "tauri.test" "/tauri/darwin/aarch64/0.1.21")
              "test-tauri" (Some mockLatest) freshNotes "darwin" "aarch64" "0.1.21")
  = {| status := 204; payload := NoBody |}.
Proof.
  destruct (handleTauriUpdateCheck_decision (now testEnv)
              (fetchFrom "tauri.test" "/tauri/darwin/aarch64/0.1.21")
              "test-tauri" mockLatest freshNotes "darwin" "aarch64" "0.1.21")
    as (event & Hlog & _ & _ & _ & H204 & _).
  apply H204. injection Hlog as <-. reflexivity.
Defined.

(** C3. For every simple-product version check that supplies a current
    version, the update-available decision (the one logged) is
    [compare(latest.version, currentVersion) > 0] and nothing else; when
    it is false the answer is 204 with no body, when it is true 200 with
    the version and date of [latest] and the aggregated notes. *)
Theorem handleVersionCheck_decision
    (now : string) (req : Request) (productId : string) (latest : SimpleRelease)
    (allNotes : list VersionNotes) (current : string) :
  current <> "" ->
  exists event,
    logged (handleVersionCheck now req productId (Some latest) allNotes (Some current))
    = [event]
    /\ currentVersion event = current
    /\ latestVersion event = simple_version latest
    /\ ev_target event = "" /\ ev_arch event = ""
    /\ (updateAvailable event = true <-> 0 < compareVersions (simple_version latest) current)
    /\ (updateAvailable event = false ->
        response (handleVersionCheck now req productId (Some latest) allNotes (Some current))
        = {| status := 204; payload := NoBody |})
    /\ (updateAvailable event = true ->
        response (handleVersionCheck now req productId (Some latest) allNotes (Some current))
        = {| status := 200;
             payload := JsonRelease (simple_version latest)
                          (aggregateNotes allNotes current)
                          (simple_pub_date latest) |}).
Proof.
  intros Hne. unfold handleVersionCheck, supplied.
  destruct (String.eqb_spec current "") as [->|_]; [contradiction|].
  destruct (0 <? compareVersions (simple_version latest) current) eqn:E; simpl;
    eexists; (split; [reflexivity|]); simpl; do 4 (split; [reflexivity|]);
    rewrite <- Z.ltb_lt, E; (split; [reflexivity|]); (split; [|]);
    try discriminate; reflexivity.
Qed.

Lemma handleVersionCheck_decision_witness :
  "0.4.5" <> ""
  /\ response (handleVersionCheck (now testEnv) (fetchFrom "simple.test" "/version/0.4.5")
                 "test-simple" (Some mockSimple) simpleNotes (Some "0.4.5"))
     = {| status := 200;
          payload := JsonRelease "0.4.6" "- New feature" "2026-02-28T00:00:00.000Z" |}.
Proof.
  assert (Hne : "0.4.5" <> "") by discriminate.
  split; [exact Hne|].
  destruct (handleVersionCheck_decision (now testEnv) (fetchFrom "simple.test" "/version/0.4.5")
              "test-simple" mockSimple simpleNotes "0.4.5" Hne)
    as (event & Hlog & _ & _ & _ & _ & _ & _ & H200).
  rewrite H200; [reflexivity|]. injection Hlog as <-. reflexivity.
Defined.

(** ** The request listener *)

Lemma segmentsOf_nonempty p s : In s (segmentsOf p) -> s <> "".
Proof.
  unfold segmentsOf. rewrite filter_In. intros [_ H] ->. discriminate.
Qed.

Lemma route_tauri_valid env req state target arch current :
  route env req = CallTauriUpdateCheck state target arch current ->
  isValidVersion current = true.
Proof.
  unfold route. intros H.
  repeat case_match; try discriminate.
  injection H as <- <- <- <-.
  match goal with E : negb (isValidVersion _) = false |- _ =>
    apply negb_false_iff in E; exact E end.
Qed.

Lemma route_version_valid env req state given current :
  route env req = CallVersionCheck state given ->
  supplied given = Some current ->
  isValidVersion current = true.
Proof.
  unfold route. intros H Hs.
  repeat case_match; try discriminate; injection H as <- <-; simplify_eq;
    match goal with E : negb (isValidVersion _) = false |- _ =>
      apply negb_false_iff in E; exact E end.
Qed.

Lemma awaited_cases env handled :
  awaited env handled = handled
  \/ awaited env handled
     = {| response := sendJson 500 (JsonError "Internal server error"); logged := [] |}
     /\ exists event, In event (logged handled) /\ logThrows env event = true.
Proof.
  unfold awaited. destruct (existsb _ _) eqn:E; [right|left; reflexivity].
  split; [reflexivity|]. apply existsb_exists in E. exact E.
Qed.

Lemma awaited_logged env handled event :
  In event (logged (awaited env handled)) ->
  In event (logged handled) /\ awaited env handled = handled.
Proof. unfold awaited. destruct (existsb _ _); simpl; [contradiction|auto]. Qed.

(** Splits on whether the handler of the goal came back or threw in
    [analytics.log]. *)
Ltac on_awaited :=
  match goal with
  | |- context [awaited ?env ?handled] =>
      destruct (awaited_cases env handled) as [-> | [-> _]]
  end.

Lemma server_logged_valid env req event :
  In event (logged (server env req)) -> isValidVersion (currentVersion event) = true.
Proof.
  unfold server. destruct (route env req) as [r|state target arch current|state given|state] eqn:R;
    try (simpl; contradiction).
  - pose proof (route_tauri_valid _ _ _ _ _ _ R) as Hv.
    destruct (asTauriCache (cache state)) as [[latest|]|]; try (simpl; contradiction);
      intros H; apply awaited_logged in H as [H _]; revert H; simpl; try contradiction.
    destruct (negb _); simpl; intros [<-|[]]; exact Hv.
  - intros H; apply awaited_logged in H as [H _]; revert H.
    unfold handleVersionCheck.
    destruct (asSimpleCache (cache state)) as [latest|]; simpl; try contradiction.
    destruct (supplied given) as [current|] eqn:S; simpl; try contradiction.
    pose proof (route_version_valid _ _ _ _ _ R S) as Hv.
    destruct (negb _); simpl; intros [<-|[]]; exact Hv.
  - destruct (asSimpleCache (cache state)); simpl; contradiction.
Qed.

(** C7, as the specification states it, fails: a request to
    [/tauri/:target/:arch/:currentVersion] with an invalid version, sent
    to the host of a product without Tauri updates, is answered 404, and
    one sent with another method than GET is answered 405. *)
Lemma invalid_version_other_status_counterexample :
  isValidVersion "not-a-version" = false
  /\ segmentsOf "/tauri/darwin/aarch64/not-a-version"
     = ["tauri"; "darwin"; "aarch64"; "not-a-version"]
  /\ response (server testEnv (fetchFrom "simple.test" "/tauri/darwin/aarch64/not-a-version"))
     = {| status := 404; payload := JsonError "This product does not use Tauri updates" |}
  /\ response (server testEnv
                 {| method := "POST"; pathname := "/version/bad";
                    headers := <["x-forwarded-host" := "simple.test"]> ∅;
                    remoteAddress := None |})
     = {| status := 405; payload := NoBody |}.
Proof. repeat split; vm_compute; reflexivity. Qed.

(** C7, amended. No request makes the listener call a handler, or log a
    check, with a client version that fails [isValidVersion].  A GET
    request that resolves to a product with initialised state is answered
    400 "Invalid version format", without any handler being called, when
    it is for [/version/:currentVersion], or for
    [/tauri/:target/:arch/:currentVersion] of a product with Tauri
    updates, and its version is invalid.  A request stopped by an earlier
    guard gets the answer of that guard, whatever its version: 405 for a
    method other than GET, 404 for an unknown product, 500 for a product
    without state, 404 for [/tauri] on a product without Tauri updates;
    no handler is called and nothing is logged. *)
Theorem invalid_version_rejected (env : Env) (req : Request) :
  (forall state target arch current,
     route env req = CallTauriUpdateCheck state target arch current ->
     isValidVersion current = true)
  /\ (forall state given current,
        route env req = CallVersionCheck state given ->
        supplied given = Some current ->
        isValidVersion current = true)
  /\ (forall event, In event (logged (server env req)) ->
        isValidVersion (currentVersion event) = true)
  /\ (forall product state,
        method req = "GET" ->
        resolveProduct env req = Some product ->
        productStates env !! id product = Some state ->
        (forall target arch current,
           segmentsOf (pathname req) = ["tauri"; target; arch; current] ->
           tauriUpdates product = true ->
           isValidVersion current = false ->
           route env req = Reply (sendJson 400 (JsonError "Invalid version format"))
           /\ server env req
              = {| response := sendJson 400 (JsonError "Invalid version format");
                   logged := [] |})
        /\ (forall current rest,
              segmentsOf (pathname req) = "version" :: current :: rest ->
              isValidVersion current = false ->
              route env req = Reply (sendJson 400 (JsonError "Invalid version format"))
              /\ server env req
                 = {| response := sendJson 400 (JsonError "Invalid version format");
                      logged := [] |}))
  /\ (method req <> "GET" ->
      route env req = Reply {| status := 405; payload := NoBody |}
      /\ server env req = {| response := {| status := 405; payload := NoBody |};
                             logged := [] |})
  /\ (method req = "GET" ->
      segmentsOf (pathname req) !! 0%nat <> Some "health" ->
      (resolveProduct env req = None ->
       route env req = Reply (sendJson 404 (JsonError "Unknown product for this hostname"))
       /\ server env req
          = {| response := sendJson 404 (JsonError "Unknown product for this hostname");
               logged := [] |})
      /\ (forall product,
            resolveProduct env req = Some product ->
            productStates env !! id product = None ->
            route env req = Reply (sendJson 500 (JsonError "Product state not initialized"))
            /\ server env req
               = {| response := sendJson 500 (JsonError "Product state not initialized");
                    logged := [] |})
      /\ (forall product state target arch current,
            resolveProduct env req = Some product ->
            productStates env !! id product = Some state ->
            segmentsOf (pathname req) = ["tauri"; target; arch; current] ->
            tauriUpdates product = false ->
            route env req
            = Reply (sendJson 404 (JsonError "This product does not use Tauri updates"))
            /\ server env req
               = {| response :=
                      sendJson 404 (JsonError "This product does not use Tauri updates");
                    logged := [] |})).
Proof.
  assert (Hserver : forall r, route env req = Reply r ->
                      server env req = {| response := r; logged := [] |}).
  { intros r Hr. unfold server. now rewrite Hr. }
  assert (Hreply : forall r, route env req = Reply r ->
                     route env req = Reply r
                     /\ server env req = {| response := r; logged := [] |}).
  { intros r Hr. split; [exact Hr|now apply Hserver]. }
  split; [intros; eapply route_tauri_valid; eassumption|].
  split; [intros; eapply route_version_valid; eassumption|].
  split; [apply server_logged_valid|].
  split; [|split].
  2: { intros Hmethod. apply Hreply. unfold route.
       destruct (String.eqb_spec (method req) "GET"); [contradiction|reflexivity]. }
  2: { intros Hget Hhealth.
       assert (Hfirst : firstIs (segmentsOf (pathname req)) "health" = false)
         by (apply bool_decide_eq_false; exact Hhealth).
       split; [|split].
       - intros Hres. apply Hreply. unfold route. now rewrite Hget, Hfirst, Hres.
       - intros product Hres Hst. apply Hreply. unfold route.
         now rewrite Hget, Hfirst, Hres, Hst.
       - intros product state target arch current Hres Hst Hseg Htauri. apply Hreply.
         unfold route. rewrite Hget, Hseg, Hres, Hst, Htauri. reflexivity. }
  intros product state Hget Hres Hst.
  split.
  - intros target arch current Hseg Htauri Hinv.
    assert (Hr : route env req = Reply (sendJson 400 (JsonError "Invalid version format"))).
    { unfold route. rewrite Hget, Hseg, Hres, Hst, Htauri. simpl. now rewrite Hinv. }
    split; [exact Hr|now apply Hserver].
  - intros current rest Hseg Hinv.
    assert (Hne : current <> "").
    { apply (segmentsOf_nonempty (pathname req)). rewrite Hseg. right. now left. }
    assert (Hr : route env req = Reply (sendJson 400 (JsonError "Invalid version format"))).
    { unfold route. rewrite Hget, Hseg, Hres, Hst. simpl. unfold supplied.
      destruct (String.eqb_spec current ""); [contradiction|]. now rewrite Hinv. }
    split; [exact Hr|now apply Hserver].
Qed.

Lemma invalid_version_rejected_witness :
  method (fetchFrom "tauri.test" "/tauri/darwin/aarch64/not-a-version") = "GET"
  /\ resolveProduct testEnv (fetchFrom "tauri.test" "/tauri/darwin/aarch64/not-a-version")
     = Some testTauri
  /\ isValidVersion "not-a-version" = false
  /\ server testEnv (fetchFrom "tauri.test" "/tauri/darwin/aarch64/not-a-version")
     = {| response := sendJson 400 (JsonError "Invalid version format"); logged := [] |}.
Proof.
  split; [reflexivity|]. split; [vm_compute; reflexivity|]. split; [reflexivity|].
  destruct (invalid_version_rejected testEnv
              (fetchFrom "tauri.test" "/tauri/darwin/aarch64/not-a-version"))
    as (_ & _ & _ & H & _).
  destruct (H testTauri {| product := testTauri; cache := TauriCache (Some mockLatest);
                           notesStore := freshNotes |})
    as [Htauri _]; [reflexivity|vm_compute; reflexivity|vm_compute; reflexivity|].
  apply (Htauri "darwin" "aarch64" "not-a-version"); reflexivity.
Defined.

(** ** Strings *)

Lemma prefix_empty s : String.prefix "" s = true.
Proof. destruct s; reflexivity. Qed.

Lemma prefix_app p : forall r, String.prefix p (p +:+ r) = true.
Proof.
  induction p as [|c p IH]; intros r; simpl; [apply prefix_empty|].
  destruct (ascii_dec c c); [apply IH|contradiction].
Qed.

Lemma prefix_inv p : forall s, String.prefix p s = true -> exists r, s = p +:+ r.
Proof.
  induction p as [|c p IH]; intros s H.
  - exists s. reflexivity.
  - destruct s as [|d s]; simpl in H; [discriminate|].
    destruct (ascii_dec c d) as [->|]; [|discriminate].
    destruct (IH s H) as [r ->]. exists r. reflexivity.
Qed.

Lemma length_append a b :
  String.length (a +:+ b) = (String.length a + String.length b)%nat.
Proof. induction a as [|c a IH]; simpl; [reflexivity|now rewrite IH]. Qed.

Lemma substring_all s : String.substring 0 (String.length s) s = s.
Proof. induction s as [|c s IH]; simpl; [reflexivity|now rewrite IH]. Qed.

Lemma substring_take pre rest :
  String.substring 0 (String.length pre) (pre +:+ rest) = pre.
Proof.
  induction pre as [|c pre IH]; simpl; [destruct rest; reflexivity|now rewrite IH].
Qed.

Lemma substring_drop pre rest :
  String.substring (String.length pre) (String.length rest) (pre +:+ rest) = rest.
Proof. induction pre as [|c pre IH]; simpl; [apply substring_all|exact IH]. Qed.

(** [(pre + rest).slice(0, pre.length)] is [pre]. *)
Lemma slice_take pre rest :
  JS.slice (pre +:+ rest) 0 (Z.of_nat (String.length pre)) = pre.
Proof.
  unfold JS.slice, JS.relIndex. rewrite length_append.
  destruct (Z.ltb_spec 0 0); [lia|].
  destruct (Z.ltb_spec (Z.of_nat (String.length pre)) 0); [lia|].
  replace (Z.to_nat (Z.min 0 _)) with 0%nat by lia.
  replace (Z.to_nat _) with (String.length pre) by lia.
  apply substring_take.
Qed.

(** [(pre + rest).slice(pre.length)] is [rest]. *)
Lemma sliceFrom_drop pre rest :
  JS.sliceFrom (pre +:+ rest) (Z.of_nat (String.length pre)) = rest.
Proof.
  unfold JS.sliceFrom, JS.slice, JS.relIndex. rewrite length_append.
  destruct (Z.ltb_spec (Z.of_nat (String.length pre)) 0); [lia|].
  destruct (Z.ltb_spec (Z.of_nat (String.length pre + String.length rest)) 0); [lia|].
  replace (Z.to_nat (Z.min (Z.of_nat (String.length pre)) _)) with (String.length pre) by lia.
  replace (Z.to_nat _) with (String.length rest) by lia.
  apply substring_drop.
Qed.

Lemma indexOfFrom_eq pat s i :
  JS.indexOfFrom pat s i
  = if String.prefix pat s then i
    else match s with
         | EmptyString => -1
         | String _ s' => JS.indexOfFrom pat s' (i + 1)
         end.
Proof. destruct s; reflexivity. Qed.

Lemma indexOfFrom_first pat pre : forall b post k,
  firstOccurrence pat b pre post ->
  JS.indexOfFrom pat b k = k + Z.of_nat (String.length pre).
Proof.
  induction pre as [|c pre IH]; intros b post k [-> Hmin].
  - rewrite indexOfFrom_eq. change ("" +:+ pat +:+ post) with (pat +:+ post).
    rewrite prefix_app. simpl. lia.
  - change (String c pre +:+ pat +:+ post) with (String c (pre +:+ pat +:+ post)) in *.
    rewrite indexOfFrom_eq.
    destruct (String.prefix pat (String c (pre +:+ pat +:+ post))) eqn:E.
    + apply prefix_inv in E as [r Hr].
      specialize (Hmin "" r Hr). simpl in Hmin. lia.
    + rewrite (IH (pre +:+ pat +:+ post) post (k + 1)).
      * simpl String.length. lia.
      * split; [reflexivity|]. intros pre' post' H.
        specialize (Hmin (String c pre') post'). simpl in Hmin.
        rewrite H in Hmin. specialize (Hmin eq_refl). lia.
Qed.

Lemma indexOfFrom_none pat b : forall k,
  noOccurrence pat b -> JS.indexOfFrom pat b k = -1.
Proof.
  induction b as [|c b IH]; intros k Hno.
  - rewrite indexOfFrom_eq. destruct (String.prefix pat "") eqn:E; [|reflexivity].
    apply prefix_inv in E as [r Hr]. now destruct (Hno "" r).
  - rewrite indexOfFrom_eq. destruct (String.prefix pat (String c b)) eqn:E.
    + apply prefix_inv in E as [r Hr]. now destruct (Hno "" r).
    + apply IH. intros pre post H. apply (Hno (String c pre) post). simpl. now rewrite H.
Qed.

(** ** extractVersionNotes *)

Lemma stripDownloadSection_first b pre post :
  firstOccurrence "## Download" b pre post ->
  stripDownloadSection b = JS.trim pre.
Proof.
  intros H. unfold stripDownloadSection, JS.indexOf.
  rewrite (indexOfFrom_first _ pre b post 0 H).
  destruct (Z.eqb_spec (0 + Z.of_nat (String.length pre)) (-1)); [lia|].
  destruct H as [-> _]. now rewrite Z.add_0_l, slice_take.
Qed.

Lemma stripDownloadSection_none b :
  noOccurrence "## Download" b -> stripDownloadSection b = JS.trim b.
Proof.
  intros H. unfold stripDownloadSection, JS.indexOf.
  now rewrite (indexOfFrom_none _ b 0 H).
Qed.

Lemma filter_map_swap {A B} (f : B -> bool) (g : A -> B) l :
  List.filter f (map g l) = map g (List.filter (fun x => f (g x)) l).
Proof.
  induction l as [|x l IH]; simpl; [reflexivity|].
  destruct (f (g x)); simpl; now rewrite IH.
Qed.

Lemma length_pos_nonempty s :
  (0 <? String.length s)%nat = negb (String.eqb s "").
Proof. destruct s; reflexivity. Qed.

(** C9. [extractVersionNotes] returns, in order, one note for each
    release whose body is non-empty once everything from the first
    "## Download" on is removed and the rest is trimmed; the version of a
    note is the tag of its release without the tag prefix; a release with
    no body, or with a body that comes out empty, gives no note. *)
Theorem extractVersionNotes_spec (releases : list GitHubRelease) (tagPrefix : string) :
  extractVersionNotes releases tagPrefix
  = map (noteOf tagPrefix)
      (List.filter (fun r => negb (String.eqb (releaseNotes r) "")) releases)
  /\ (forall n, In n (extractVersionNotes releases tagPrefix) <->
                exists r, In r releases /\ releaseNotes r <> "" /\ n = noteOf tagPrefix r)
  /\ (forall r v, tag_name r = tagPrefix +:+ v -> version (noteOf tagPrefix r) = v)
  /\ (forall r, body r = None -> releaseNotes r = "")
  /\ (forall r b, body r = Some b -> noOccurrence "## Download" b ->
                  releaseNotes r = JS.trim b)
  /\ (forall r b pre post, body r = Some b -> firstOccurrence "## Download" b pre post ->
                           releaseNotes r = JS.trim pre).
Proof.
  assert (Heq : extractVersionNotes releases tagPrefix
                = map (noteOf tagPrefix)
                    (List.filter (fun r => negb (String.eqb (releaseNotes r) "")) releases)).
  { unfold extractVersionNotes. rewrite filter_map_swap. f_equal.
    apply filter_ext. intros r. simpl. apply length_pos_nonempty. }
  split; [exact Heq|]. split; [|split; [|split; [|split]]].
  - intros n. rewrite Heq, in_map_iff. split.
    + intros (r & <- & Hr). apply filter_In in Hr as [Hin Hne]. exists r.
      repeat split; [exact Hin|]. intros E. rewrite E in Hne. discriminate.
    + intros (r & Hin & Hne & ->). exists r. split; [reflexivity|].
      apply filter_In. split; [exact Hin|].
      destruct (String.eqb_spec (releaseNotes r) ""); [contradiction|reflexivity].
  - intros r v Htag. unfold noteOf. simpl. rewrite Htag. apply sliceFrom_drop.
  - intros r Hb. unfold releaseNotes. now rewrite Hb.
  - intros r b Hb Hno. unfold releaseNotes. rewrite Hb.
    destruct (String.eqb_spec b "") as [->|_]; [reflexivity|].
    now apply stripDownloadSection_none.
  - intros r b pre post Hb Hfirst. unfold releaseNotes. rewrite Hb.
    destruct (String.eqb_spec b "") as [->|_].
    + destruct Hfirst as [Hfirst _]. destruct pre; discriminate.
    + now apply (stripDownloadSection_first b pre post).
Qed.

Lemma extractVersionNotes_spec_witness :
  tag_name releaseWithDownloads = "v" +:+ "0.4.6"
  /\ firstOccurrence "## Download"
       ("- New feature" +:+ JS.LF +:+ JS.LF +:+ "## Download" +:+ JS.LF +:+ "- app.dmg")
       ("- New feature" +:+ JS.LF +:+ JS.LF) (JS.LF +:+ "- app.dmg")
  /\ version (noteOf "v" releaseWithDownloads) = "0.4.6"
  /\ releaseNotes releaseWithDownloads = "- New feature".
Proof.
  assert (Hfirst : firstOccurrence "## Download"
            ("- New feature" +:+ JS.LF +:+ JS.LF +:+ "## Download" +:+ JS.LF +:+ "- app.dmg")
            ("- New feature" +:+ JS.LF +:+ JS.LF) (JS.LF +:+ "- app.dmg")).
  { split; [reflexivity|]. intros pre' post' H.
    do 15 (destruct pre' as [|? pre']; [discriminate H|]). simpl. lia. }
  destruct (extractVersionNotes_spec [releaseWithDownloads] "v") as (_ & _ & Hv & _ & _ & Hn).
  split; [reflexivity|]. split; [exact Hfirst|]. split.
  - apply Hv. reflexivity.
  - rewrite (Hn releaseWithDownloads _ _ _ eq_refl Hfirst). reflexivity.
Defined.

(** ** The cache *)

Lemma get_returns {T W} (producer : W -> Cache.Outcome T * W) c now w :
  exists v, Cache.result (Cache.get producer c now w) = Cache.Returns v.
Proof.
  unfold Cache.get, Cache.refresh. destruct (Cache.fresh c now); simpl; [eauto|].
  destruct (producer w) as [[v|err] w']; simpl; eauto.
Qed.

(** The run of the test "returns stale data on fetch error": a first
    [get()], then one 60 ms later with a TTL of 50 ms. *)
Lemma cache_test_stale_on_error :
  Cache.result (Cache.get failsSecond (Cache.create 50 None) 0 0%nat)
  = Cache.Returns (Some "data-1")
  /\ Cache.result
       (Cache.get failsSecond
          (Cache.after (Cache.get failsSecond (Cache.create 50 None) 0 0%nat)) 60
          (Cache.world (Cache.get failsSecond (Cache.create 50 None) 0 0%nat)))
     = Cache.Returns (Some "data-1")
  /\ Cache.world
       (Cache.get failsSecond
          (Cache.after (Cache.get failsSecond (Cache.create 50 None) 0 0%nat)) 60
          (Cache.world (Cache.get failsSecond (Cache.create 50 None) 0 0%nat)))
     = 2%nat.
Proof. repeat split; vm_compute; reflexivity. Qed.

(** The run of the test "returns null when first fetch fails". *)
Lemma cache_test_first_fetch_fails :
  Cache.result (Cache.get alwaysFails (Cache.create (T := string) 1000 None) 0 0%nat)
  = Cache.Returns None.
Proof. reflexivity. Qed.

(** [refresh] is the settlement of the producer invocation it starts. *)
Lemma refresh_settled {T W} (producer : W -> Cache.Outcome T * W) c now w :
  Cache.result (Cache.refresh producer c now w)
  = Cache.result (Cache.settled c now (producer w).1)
  /\ Cache.after (Cache.refresh producer c now w)
     = Cache.after (Cache.settled c now (producer w).1)
  /\ Cache.effects (Cache.refresh producer c now w)
     = Cache.effects (Cache.settled c now (producer w).1)
  /\ Cache.world (Cache.refresh producer c now w) = (producer w).2.
Proof.
  unfold Cache.refresh. destruct (producer w) as [[v|err] w']; simpl; auto.
Qed.

Lemma get_due {T W} (producer : W -> Cache.Outcome T * W) c now w :
  Cache.fresh c now = None ->
  Cache.get producer c now w = Cache.refresh producer c now w.
Proof. unfold Cache.get. now intros ->. Qed.

Lemma fresh_expired {T} (c : Cache.t T) e now :
  Cache.entry c = Some e -> Cache.ttlMs c <= now - Cache.fetchedAt e ->
  Cache.fresh c now = None.
Proof.
  unfold Cache.fresh. intros -> H.
  destruct (Z.ltb_spec (now - Cache.fetchedAt e) (Cache.ttlMs c)); [lia|reflexivity].
Qed.

(** C4. When a refresh is due and the producer fails, [get()] returns the
    value of the previous entry when there is one and [null] when there
    is none; the failure is logged, the entry is left as it was, and no
    [get()] ends with an exception.  So a producer that succeeds once
    and then fails gives its first value again to a [get()] after the
    TTL has expired, and a producer that fails the first time gives
    [null], with nothing cached, so that the next [get()] invokes it
    again.  When the failing invocation is awaited by several callers,
    each of them gets this same result, the later ones without a
    producer call of their own. *)
Theorem get_stale_on_error {T W : Type}
    (producer : W -> Cache.Outcome T * W) (c : Cache.t T) (now : Z) (w w' : W)
    (err : string) :
  Cache.fresh c now = None ->
  producer w = (Cache.Failed err, w') ->
  Cache.result (Cache.get producer c now w) = Cache.Returns (Cache.value <$> Cache.entry c)
  /\ (forall e, Cache.entry c = Some e ->
        Cache.result (Cache.get producer c now w) = Cache.Returns (Some (Cache.value e)))
  /\ (Cache.entry c = None ->
        Cache.result (Cache.get producer c now w) = Cache.Returns None)
  /\ Cache.effects (Cache.get producer c now w) = [Cache.LogFailure err]
  /\ Cache.after (Cache.get producer c now w) = c
  /\ (forall c0 now0 w0 e,
        Cache.result (Cache.get producer c0 now0 w0) <> Cache.Throws e)
  /\ (forall ttl path now0 w0 v,
        producer w0 = (Cache.Produced v, w) ->
        ttl <= now - now0 ->
        Cache.result (Cache.get producer (Cache.create ttl path) now0 w0)
        = Cache.Returns (Some v)
        /\ Cache.world (Cache.get producer (Cache.create ttl path) now0 w0) = w
        /\ Cache.result
             (Cache.get producer
                (Cache.after (Cache.get producer (Cache.create ttl path) now0 w0)) now
                (Cache.world (Cache.get producer (Cache.create ttl path) now0 w0)))
           = Cache.Returns (Some v)
        /\ Cache.world
             (Cache.get producer
                (Cache.after (Cache.get producer (Cache.create ttl path) now0 w0)) now
                (Cache.world (Cache.get producer (Cache.create ttl path) now0 w0)))
           = w')
  /\ (forall ttl path,
        Cache.result (Cache.get producer (Cache.create ttl path) now w) = Cache.Returns None
        /\ Cache.after (Cache.get producer (Cache.create ttl path) now w)
           = Cache.create ttl path
        /\ forall later, Cache.fresh (Cache.create (T := T) ttl path) later = None)
  /\ (forall first others later,
        Cache.arrive {| Cache.current := c; Cache.inflight := None |} first now
        = Cache.Started {| Cache.current := c;
                           Cache.inflight := Some {| Cache.waiters := [first] |} |}
        /\ Cache.arrive {| Cache.current := c;
                           Cache.inflight := Some {| Cache.waiters := first :: others |} |}
             later now
           = Cache.Joined {| Cache.current := c;
                             Cache.inflight :=
                               Some {| Cache.waiters := (first :: others) ++ [later] |} |})
  /\ (forall pending settledAt,
        Cache.delivered
          (Cache.settle {| Cache.current := c; Cache.inflight := Some pending |} settledAt
             (producer w).1)
        = map (fun caller => (caller, Cache.result (Cache.get producer c now w)))
            (Cache.waiters pending)
        /\ Cache.shared
             (Cache.settle {| Cache.current := c; Cache.inflight := Some pending |} settledAt
                (producer w).1)
           = {| Cache.current := c; Cache.inflight := None |}
        /\ Cache.done
             (Cache.settle {| Cache.current := c; Cache.inflight := Some pending |} settledAt
                (producer w).1)
           = [Cache.LogFailure err]).
Proof.
  intros Hdue Hfail.
  assert (Hget : Cache.get producer c now w
                 = {| Cache.result := Cache.Returns (Cache.value <$> Cache.entry c);
                      Cache.after := c; Cache.world := w';
                      Cache.effects := [Cache.LogFailure err] |}).
  { unfold Cache.get, Cache.refresh. now rewrite Hdue, Hfail. }
  rewrite Hget. cbn [Cache.result Cache.after Cache.world Cache.effects].
  split; [reflexivity|]. split; [intros e ->; reflexivity|].
  split; [intros ->; reflexivity|]. split; [reflexivity|]. split; [reflexivity|].
  split.
  { intros c0 now0 w0 e H. destruct (get_returns producer c0 now0 w0) as [v Hv]. congruence. }
  split.
  { intros ttl path now0 w0 v Hfirst Httl.
    assert (H0 : Cache.get producer (Cache.create ttl path) now0 w0
                 = {| Cache.result := Cache.Returns (Some v);
                      Cache.after :=
                        {| Cache.entry := Some {| Cache.value := v; Cache.fetchedAt := now0 |};
                           Cache.ttlMs := ttl; Cache.persistPath := path |};
                      Cache.world := w;
                      Cache.effects := match path with
                                       | Some file => [Cache.Persist file v]
                                       | None => []
                                       end |}).
    { unfold Cache.get, Cache.refresh. simpl. now rewrite Hfirst. }
    rewrite H0. cbn [Cache.result Cache.after Cache.world].
    split; [reflexivity|]. split; [reflexivity|].
    rewrite get_due by (eapply fresh_expired; [reflexivity|exact Httl]).
    unfold Cache.refresh. rewrite Hfail. split; reflexivity. }
  split.
  { intros ttl path. rewrite get_due by reflexivity. unfold Cache.refresh. rewrite Hfail.
    split; [reflexivity|]. split; [reflexivity|]. intros later. reflexivity. }
  split.
  { intros first others later. unfold Cache.arrive.
    cbn [Cache.current Cache.inflight]. rewrite Hdue. split; reflexivity. }
  intros pending settledAt. rewrite Hfail. split; [reflexivity|]. split; reflexivity.
Qed.

Lemma get_stale_on_error_witness :
  Cache.fresh (Cache.after (Cache.get failsSecond (Cache.create 50 None) 0 0%nat)) 60 = None
  /\ failsSecond 0%nat = (Cache.Produced "data-1", 1%nat)
  /\ failsSecond 1%nat = (Cache.Failed "fail", 2%nat)
  /\ Cache.result (Cache.get failsSecond (Cache.create 50 None) 0 0%nat)
     = Cache.Returns (Some "data-1")
  /\ Cache.result
       (Cache.get failsSecond
          (Cache.after (Cache.get failsSecond (Cache.create 50 None) 0 0%nat)) 60
          (Cache.world (Cache.get failsSecond (Cache.create 50 None) 0 0%nat)))
     = Cache.Returns (Some "data-1")
  /\ Cache.world
       (Cache.get failsSecond
          (Cache.after (Cache.get failsSecond (Cache.create 50 None) 0 0%nat)) 60
          (Cache.world (Cache.get failsSecond (Cache.create 50 None) 0 0%nat)))
     = 2%nat.
Proof.
  split; [reflexivity|]. split; [reflexivity|]. split; [reflexivity|].
  destruct (get_stale_on_error failsSecond
              (Cache.after (Cache.get failsSecond (Cache.create 50 None) 0 0%nat))
              60 1%nat 2%nat "fail" eq_refl eq_refl)
    as (_ & _ & _ & _ & _ & _ & Hrun & _).
  destruct (Hrun 50 None 0 0%nat "data-1" eq_refl) as (H1 & _ & H2 & H3); [lia|].
  split; [exact H1|]. split; [exact H2|exact H3].
Defined.

(** ** The comparator of sortVersions *)

Lemma sortVersionsLoop_beyond ka kb m : forall i,
  (length ka <= i)%nat -> (length kb <= i)%nat -> sortVersionsLoop ka kb i m = 0.
Proof.
  induction m as [|m IH]; intros i Ha Hb; simpl; [reflexivity|].
  rewrite (lookup_ge_None_2 ka i Ha), (lookup_ge_None_2 kb i Hb). simpl.
  apply IH; lia.
Qed.

Lemma sortVersionsLoop_extend ka kb m n : forall i,
  (length ka <= i + n)%nat -> (length kb <= i + n)%nat ->
  sortVersionsLoop ka kb i (n + m) = sortVersionsLoop ka kb i n.
Proof.
  induction n as [|n IH]; intros i Ha Hb.
  - simpl. apply sortVersionsLoop_beyond; lia.
  - simpl. destruct (negb _); [reflexivity|]. apply IH; lia.
Qed.

(** The comparator may run its loop up to any bound past both keys. *)
Lemma sortVersionsCmp_upto a b n :
  (length (verKey a) <= n)%nat -> (length (verKey b) <= n)%nat ->
  sortVersionsCmp a b = sortVersionsLoop (verKey a) (verKey b) 0 n.
Proof.
  intros Ha Hb. unfold sortVersionsCmp.
  set (k := Nat.max (length (verKey a)) (length (verKey b))).
  replace n with (k + (n - k))%nat by lia.
  symmetry. apply sortVersionsLoop_extend; lia.
Qed.

Lemma lexCompare_trans p : forall q r,
  length p = length q -> length q = length r ->
  (lexCompare p q <= 0 -> lexCompare q r <= 0 -> lexCompare p r <= 0)
  /\ (lexCompare p q < 0 -> lexCompare q r <= 0 -> lexCompare p r < 0)
  /\ (lexCompare p q <= 0 -> lexCompare q r < 0 -> lexCompare p r < 0).
Proof.
  induction p as [|x p IH]; intros [|y q] [|z r] Hpq Hqr; simpl in *; try discriminate;
    try lia.
  injection Hpq as Hpq. injection Hqr as Hqr. specialize (IH q r Hpq Hqr).
  destruct (Z.ltb_spec x y), (Z.ltb_spec y x), (Z.ltb_spec y z), (Z.ltb_spec z y),
    (Z.ltb_spec x z), (Z.ltb_spec z x); try lia; exact IH.
Qed.

Lemma sortVersionsCmp_sgn_upto a b n :
  (length (verKey a) <= n)%nat -> (length (verKey b) <= n)%nat ->
  Z.sgn (sortVersionsCmp a b) = lexCompare (padTo n (verKey a)) (padTo n (verKey b)).
Proof.
  intros Ha Hb. rewrite (sortVersionsCmp_upto a b n Ha Hb).
  now apply sortVersionsLoop_sgn.
Qed.

Lemma sortVersionsCmp_trans a b c :
  (sortVersionsCmp a b <= 0 -> sortVersionsCmp b c <= 0 -> sortVersionsCmp a c <= 0)
  /\ (sortVersionsCmp a b < 0 -> sortVersionsCmp b c <= 0 -> sortVersionsCmp a c < 0)
  /\ (sortVersionsCmp a b <= 0 -> sortVersionsCmp b c < 0 -> sortVersionsCmp a c < 0).
Proof.
  set (n := Nat.max (length (verKey a)) (Nat.max (length (verKey b)) (length (verKey c)))).
  pose proof (sortVersionsCmp_sgn_upto a b n ltac:(lia) ltac:(lia)) as Hab.
  pose proof (sortVersionsCmp_sgn_upto b c n ltac:(lia) ltac:(lia)) as Hbc.
  pose proof (sortVersionsCmp_sgn_upto a c n ltac:(lia) ltac:(lia)) as Hac.
  pose proof (lexCompare_trans (padTo n (verKey a)) (padTo n (verKey b)) (padTo n (verKey c)))
    as H.
  rewrite !padTo_length in H by lia. specialize (H eq_refl eq_refl).
  rewrite <- Hab, <- Hbc, <- Hac in H. lia.
Qed.

Lemma sortVersionsLoop_zero ka kb n : forall i,
  sortVersionsLoop ka kb i n = 0 <->
  forall j, (i <= j < i + n)%nat -> JS.orZero (ka !! j) = JS.orZero (kb !! j).
Proof.
  induction n as [|n IH]; intros i; simpl.
  - split; [intros _ j Hj; lia|reflexivity].
  - destruct (Z.eqb_spec (JS.orZero (ka !! i) - JS.orZero (kb !! i)) 0) as [E|E]; simpl.
    + rewrite IH. split.
      * intros H j Hj. destruct (decide (j = i)) as [->|]; [lia|apply H; lia].
      * intros H j Hj. apply H. lia.
    + split; [intros H; contradiction|]. intros H. specialize (H i ltac:(lia)). lia.
  Qed.

Lemma sortVersionsLoop_first ka kb n : forall i0 i,
  (i0 <= i < i0 + n)%nat ->
  (forall j, (i0 <= j < i)%nat -> JS.orZero (ka !! j) = JS.orZero (kb !! j)) ->
  JS.orZero (ka !! i) <> JS.orZero (kb !! i) ->
  sortVersionsLoop ka kb i0 n = JS.orZero (ka !! i) - JS.orZero (kb !! i).
Proof.
  induction n as [|n IH]; intros i0 i Hi Hpre Hne; [lia|]. simpl.
  destruct (decide (i0 = i)) as [->|Hn].
  - destruct (Z.eqb_spec (JS.orZero (ka !! i) - JS.orZero (kb !! i)) 0); [lia|reflexivity].
  - rewrite (Hpre i0) by lia. rewrite Z.sub_diag. simpl.
    apply IH; [lia| |exact Hne]. intros j Hj. apply Hpre. lia.
Qed.

Lemma keyAt_beyond v i : (length (verKey v) <= i)%nat -> keyAt v i = 0.
Proof. intros H. unfold keyAt. now rewrite (lookup_ge_None_2 _ _ H). Qed.

(** X1. The comparator of [sortVersions] returns 0 exactly when the two
    keys agree at every index ([0] standing for a missing or non-numeric
    segment), and otherwise the difference of the keys at the first index
    where they differ. *)
Theorem sortVersionsCmp_first_difference (a b : string) :
  safeKey (verKey a) -> safeKey (verKey b) ->
  (sortVersionsCmp a b = 0 <-> forall j, keyAt a j = keyAt b j)
  /\ (forall i, (forall j, (j < i)%nat -> keyAt a j = keyAt b j) ->
                keyAt a i <> keyAt b i ->
                sortVersionsCmp a b = keyAt a i - keyAt b i).
Proof.
  intros _ _. unfold sortVersionsCmp, keyAt.
  set (n := Nat.max (length (verKey a)) (length (verKey b))). split.
  - rewrite sortVersionsLoop_zero. split.
    + intros H j. destruct (Nat.lt_ge_cases j n) as [Hj|Hj]; [apply H; lia|].
      rewrite !lookup_ge_None_2 by lia. reflexivity.
    + intros H j _. apply H.
  - intros i Hpre Hne. apply sortVersionsLoop_first; [|intros j Hj; apply Hpre; lia|exact Hne].
    destruct (Nat.lt_ge_cases i n) as [Hi|Hi]; [lia|].
    rewrite !lookup_ge_None_2 in Hne by lia. contradiction.
Qed.

Lemma sortVersionsCmp_first_difference_witness :
  safeKey (verKey "0.1.25") /\ safeKey (verKey "0.1.20")
  /\ sortVersionsCmp "0.1.25" "0.1.20" = 5.
Proof.
  assert (Ha : safeKey (verKey "0.1.25")).
  { change (verKey "0.1.25") with [0; 1; 25].
    repeat (constructor; [change MAX_SAFE_INTEGER with 9007199254740991; lia|]).
    constructor. }
  assert (Hb : safeKey (verKey "0.1.20")).
  { change (verKey "0.1.20") with [0; 1; 20].
    repeat (constructor; [change MAX_SAFE_INTEGER with 9007199254740991; lia|]).
    constructor. }
  split; [exact Ha|]. split; [exact Hb|].
  apply (proj2 (sortVersionsCmp_first_difference "0.1.25" "0.1.20" Ha Hb) 2%nat).
  - intros [|[|j]] Hj; try reflexivity. lia.
  - discriminate.
Defined.

(** X2. The comparator of [sortVersions] is a consistent comparator on
    all strings, valid versions or not: it is reflexive, changes sign
    when its arguments are swapped, and is transitive. *)
Theorem sortVersionsCmp_consistent (a b c : string) :
  safeKey (verKey a) -> safeKey (verKey b) -> safeKey (verKey c) ->
  sortVersionsCmp a a = 0
  /\ sortVersionsCmp a b = - sortVersionsCmp b a
  /\ (sortVersionsCmp a b = 0 -> sortVersionsCmp b c = 0 -> sortVersionsCmp a c = 0)
  /\ (sortVersionsCmp a b < 0 -> sortVersionsCmp b c < 0 -> sortVersionsCmp a c < 0)
  /\ (sortVersionsCmp a b <= 0 -> sortVersionsCmp b c <= 0 -> sortVersionsCmp a c <= 0).
Proof.
  intros _ _ _.
  split; [apply sortVersionsCmp_refl|]. split; [apply sortVersionsCmp_antisym|].
  pose proof (sortVersionsCmp_trans a b c) as (Hle & Hlt & _).
  pose proof (sortVersionsCmp_trans c b a) as (Hle' & _ & _).
  rewrite (sortVersionsCmp_antisym c b), (sortVersionsCmp_antisym b a),
    (sortVersionsCmp_antisym c a) in Hle'.
  repeat split; lia.
Qed.

Lemma sortVersionsCmp_consistent_witness :
  safeKey (verKey "1.2") /\ safeKey (verKey "1.2.0") /\ safeKey (verKey "1.2.0.0")
  /\ sortVersionsCmp "1.2" "1.2.0.0" = 0.
Proof.
  assert (Ha : safeKey (verKey "1.2")).
  { change (verKey "1.2") with [1; 2].
    repeat (constructor; [change MAX_SAFE_INTEGER with 9007199254740991; lia|]).
    constructor. }
  assert (Hb : safeKey (verKey "1.2.0")).
  { change (verKey "1.2.0") with [1; 2; 0].
    repeat (constructor; [change MAX_SAFE_INTEGER with 9007199254740991; lia|]).
    constructor. }
  assert (Hc : safeKey (verKey "1.2.0.0")).
  { change (verKey "1.2.0.0") with [1; 2; 0; 0].
    repeat (constructor; [change MAX_SAFE_INTEGER with 9007199254740991; lia|]).
    constructor. }
  split; [exact Ha|]. split; [exact Hb|]. split; [exact Hc|].
  destruct (sortVersionsCmp_consistent "1.2" "1.2.0" "1.2.0.0" Ha Hb Hc)
    as (_ & _ & Heq & _).
  apply Heq; reflexivity.
Defined.

(** ** sortVersions *)

(** Proves [safeKey (verKey v)] for a literal [v]. *)
Ltac safe_key :=
  unfold safeKey;
  match goal with
  | |- Forall _ ?k => let k' := eval vm_compute in k in change k with k'
  end;
  repeat (constructor; [change MAX_SAFE_INTEGER with 9007199254740991; lia|]);
  constructor.

Lemma sortInsert_perm {A} (cmp : A -> A -> Z) x l :
  Permutation (sortInsert cmp x l) (x :: l).
Proof.
  induction l as [|y l IH]; simpl; [reflexivity|].
  destruct (cmp x y <=? 0); [reflexivity|].
  rewrite IH. apply perm_swap.
Qed.

Lemma arraySort_perm {A} (cmp : A -> A -> Z) l : Permutation (arraySort cmp l) l.
Proof.
  induction l as [|x l IH]; simpl; [reflexivity|].
  rewrite sortInsert_perm. now constructor.
Qed.

Lemma versionLe_total a b : versionLe a b \/ versionLe b a.
Proof. unfold versionLe. rewrite (sortVersionsCmp_antisym b a). lia. Qed.

Lemma versionLe_trans a b c : versionLe a b -> versionLe b c -> versionLe a c.
Proof. unfold versionLe. apply sortVersionsCmp_trans. Qed.

Lemma sortInsert_sorted x l :
  StronglySorted versionLe l -> StronglySorted versionLe (sortInsert sortVersionsCmp x l).
Proof.
  induction 1 as [|y l Hl IH Hy]; simpl; [repeat constructor|].
  destruct (Z.leb_spec (sortVersionsCmp x y) 0) as [Hxy|Hxy].
  - constructor; [now constructor|]. constructor; [exact Hxy|].
    rewrite List.Forall_forall in *. intros z Hz.
    apply (versionLe_trans x y z); [exact Hxy|now apply Hy].
  - constructor; [exact IH|].
    rewrite List.Forall_forall in *. intros z Hz.
    apply (Permutation_in _ (sortInsert_perm sortVersionsCmp x l)) in Hz.
    destruct Hz as [<-|Hz]; [|now apply Hy].
    destruct (versionLe_total y x) as [H|H]; [exact H|unfold versionLe in H; lia].
Qed.

Lemma sortVersions_sorted versions : StronglySorted versionLe (sortVersions versions).
Proof.
  induction versions as [|x l IH]; simpl; [constructor|].
  now apply sortInsert_sorted.
Qed.

(** Among equal versions, insertion keeps the new element first. *)
Lemma sortInsert_first_le x l :
  Forall (versionLe x) l -> sortInsert sortVersionsCmp x l = x :: l.
Proof.
  intros H. destruct l as [|y l]; [reflexivity|]. simpl.
  inversion H as [|? ? Hxy _]; subst. unfold versionLe in Hxy.
  destruct (Z.leb_spec (sortVersionsCmp x y) 0); [reflexivity|lia].
Qed.

(** X3. [sortVersions] returns the versions it was given, each as often
    as it was given, in ascending order of the comparator; its last
    element, which the dashboard shows as the latest version, is not
    below any version of the input; a list already in order is returned
    as it is. *)
Theorem sortVersions_ascending (versions : list string) :
  Forall (fun v => safeKey (verKey v)) versions ->
  Permutation (sortVersions versions) versions
  /\ StronglySorted versionLe (sortVersions versions)
  /\ (forall v latest, In v versions -> last (sortVersions versions) = Some latest ->
                       sortVersionsCmp v latest <= 0)
  /\ (StronglySorted versionLe versions -> sortVersions versions = versions).
Proof.
  intros _.
  pose proof (arraySort_perm sortVersionsCmp versions) as Hperm.
  pose proof (sortVersions_sorted versions) as Hsorted.
  split; [exact Hperm|]. split; [exact Hsorted|]. split.
  - intros v latest Hin Hlast. fold (sortVersions versions) in Hperm.
    apply (Permutation_in _ (Permutation_sym Hperm)) in Hin.
    revert Hsorted Hin Hlast. generalize (sortVersions versions) as l.
    induction l as [|x l IH]; intros Hs Hin Hlast; [contradiction|].
    inversion Hs as [|? ? Hl Hx]; subst.
    destruct l as [|y l].
    + simpl in Hlast. injection Hlast as <-. destruct Hin as [<-|[]].
      apply Z.eq_le_incl, sortVersionsCmp_refl.
    + assert (Hlast' : last (y :: l) = Some latest) by exact Hlast.
      destruct Hin as [<-|Hin]; [|now apply IH].
      rewrite List.Forall_forall in Hx. apply Hx.
      apply last_Some in Hlast' as [l' Hl']. rewrite Hl'. apply in_or_app. right. now left.
  - clear Hperm Hsorted. intros Hs. induction Hs as [|x l Hl IH Hx]; [reflexivity|].
    change (sortVersions (x :: l)) with (sortInsert sortVersionsCmp x (sortVersions l)).
    rewrite IH. now apply sortInsert_first_le.
Qed.

Lemma sortVersions_ascending_witness :
  Forall (fun v => safeKey (verKey v)) ["0.1.21"; "0.1.9"]
  /\ (forall latest, last (sortVersions ["0.1.21"; "0.1.9"]) = Some latest ->
                     sortVersionsCmp "0.1.9" latest <= 0)
  /\ sortVersions ["0.1.21"; "0.1.9"] = ["0.1.9"; "0.1.21"].
Proof.
  assert (H : Forall (fun v => safeKey (verKey v)) ["0.1.21"; "0.1.9"]).
  { repeat (constructor; [safe_key|]). constructor. }
  split; [exact H|]. split; [|reflexivity].
  intros latest Hlast.
  destruct (sortVersions_ascending ["0.1.21"; "0.1.9"] H) as (_ & _ & Hmax & _).
  apply (Hmax "0.1.9" latest); [right; now left|exact Hlast].
Defined.

(** ** aggregateDay *)

Lemma hasDash_app s t : hasDash (s +:+ "-" +:+ t) = true.
Proof. induction s as [|c s IH]; simpl; [reflexivity|]. rewrite IH. apply orb_true_r. Qed.

Lemma inherited_no_dash k : inherited k = true -> hasDash k = false.
Proof.
  unfold inherited, inheritedNames. intros H. apply bool_decide_eq_true in H.
  repeat (apply elem_of_cons in H as [->|H]; [reflexivity|]).
  now apply elem_of_nil in H.
Qed.

Lemma platformOf_own e : inherited (platformOf e) = false.
Proof.
  destruct (inherited (platformOf e)) eqn:E; [|reflexivity].
  apply inherited_no_dash in E. unfold platformOf in E. now rewrite hasDash_app in E.
Qed.

Lemma countUp_None counts k :
  countUp counts k = None <-> counts !! k = None /\ inherited k = true.
Proof.
  unfold countUp. destruct (counts !! k); [split; [discriminate|intros [? _]; discriminate]|].
  destruct (inherited k); split; try discriminate; auto. intros [_ ?]. discriminate.
Qed.

Lemma countUp_Some counts k counts' :
  countUp counts k = Some counts' ->
  counts' = <[k := default 0 (counts !! k) + 1]> counts.
Proof.
  unfold countUp. destruct (counts !! k) as [n|]; simpl.
  - intros [= <-]. now destruct (Z.eqb_spec n 0) as [->|].
  - destruct (inherited k); [discriminate|]. now intros [= <-].
Qed.

Lemma addClient_None clients v c :
  addClient clients v c = None <-> clients !! v = None /\ inherited v = true.
Proof.
  unfold addClient. destruct (clients !! v); [split; [discriminate|intros [? _]; discriminate]|].
  destruct (inherited v); split; try discriminate; auto. intros [_ ?]. discriminate.
Qed.

Lemma addClient_Some clients v c clients' :
  addClient clients v c = Some clients' ->
  clients' = <[v := setAdd c (default [] (clients !! v))]> clients.
Proof.
  unfold addClient. destruct (clients !! v) as [set|]; simpl.
  - now intros [= <-].
  - destruct (inherited v); [discriminate|]. now intros [= <-].
Qed.

Lemma aggregateStep_Some acc e acc' :
  aggregateStep acc e = Some acc' ->
  acc' = {| day_clients :=
              <[versionOf e := setAdd (clientIdOf e)
                                 (default [] (day_clients acc !! versionOf e))]>
                (day_clients acc);
            day_requests :=
              <[versionOf e := default 0 (day_requests acc !! versionOf e) + 1]>
                (day_requests acc);
            day_platforms :=
              <[platformOf e := default 0 (day_platforms acc !! platformOf e) + 1]>
                (day_platforms acc) |}.
Proof.
  unfold aggregateStep.
  destruct (addClient _ _ _) as [c|] eqn:Ec; simpl; [|discriminate].
  destruct (countUp (day_requests acc) _) as [r|] eqn:Er; simpl; [|discriminate].
  destruct (countUp (day_platforms acc) _) as [p|] eqn:Ep; simpl; [|discriminate].
  intros [= <-].
  now rewrite (addClient_Some _ _ _ _ Ec), (countUp_Some _ _ _ Er), (countUp_Some _ _ _ Ep).
Qed.

Lemma aggregateStep_None acc e :
  tablesAgree acc ->
  (aggregateStep acc e = None <-> inherited (versionOf e) = true).
Proof.
  intros Hagree. destruct (Hagree (versionOf e)) as [Hdom Hown].
  unfold aggregateStep.
  destruct (addClient _ _ _) as [c|] eqn:Ec; simpl.
  - assert (Hinh : inherited (versionOf e) = false).
    { destruct (day_clients acc !! versionOf e) as [set|] eqn:E; [apply Hown; eauto|].
      destruct (inherited (versionOf e)) eqn:Ei; [|reflexivity].
      assert (addClient (day_clients acc) (versionOf e) (clientIdOf e) = None)
        by now apply addClient_None.
      congruence. }
    destruct (countUp (day_requests acc) _) as [r|] eqn:Er; simpl.
    + destruct (countUp (day_platforms acc) _) as [p|] eqn:Ep; simpl.
      * rewrite Hinh. split; discriminate.
      * apply countUp_None in Ep as [_ Ep]. now rewrite platformOf_own in Ep.
    + apply countUp_None in Er as [_ Er]. congruence.
  - apply addClient_None in Ec as [_ Ec]. now rewrite Ec.
Qed.

Lemma aggregateStep_agree acc e acc' :
  tablesAgree acc -> aggregateStep acc e = Some acc' -> tablesAgree acc'.
Proof.
  intros Hagree Hstep.
  assert (Hinh : inherited (versionOf e) = false).
  { destruct (inherited (versionOf e)) eqn:E; [|reflexivity].
    apply (aggregateStep_None acc e Hagree) in E. congruence. }
  rewrite (aggregateStep_Some _ _ _ Hstep). intros k. simpl.
  destruct (decide (versionOf e = k)) as [<-|Hne].
  - rewrite !lookup_insert_eq. split; [split; eauto|auto].
  - rewrite !lookup_insert_ne by assumption. apply Hagree.
Qed.

Lemma aggregateLoop_None events : forall acc,
  tablesAgree acc ->
  (aggregateLoop acc events = None
   <-> Exists (fun e => inherited (versionOf e) = true) events).
Proof.
  induction events as [|e events IH]; intros acc Hagree; simpl.
  - split; [discriminate|]. intros H. inversion H.
  - destruct (aggregateStep acc e) as [acc'|] eqn:E; simpl.
    + rewrite (IH acc' (aggregateStep_agree _ _ _ Hagree E)).
      split; [now right|]. intros H. inversion H as [? ? He|]; subst; [|assumption].
      apply (aggregateStep_None acc e Hagree) in He. congruence.
    + split; [|reflexivity]. intros _. left. now apply (aggregateStep_None acc e Hagree).
Qed.

Lemma occurrences_cons key k e events :
  occurrences key k (e :: events)
  = (if String.eqb (key e) k then 1 else 0) + occurrences key k events.
Proof.
  unfold occurrences. simpl. destruct (String.eqb (key e) k); simpl; lia.
Qed.

Lemma occurrences_nonneg key k events : 0 <= occurrences key k events.
Proof. unfold occurrences. lia. Qed.

Lemma occurrences_pos key k events :
  0 < occurrences key k events <-> exists e, In e events /\ key e = k.
Proof.
  induction events as [|e events IH]; [unfold occurrences; simpl; split; [lia|intros (? & [] & _)]|].
  rewrite occurrences_cons. pose proof (occurrences_nonneg key k events).
  destruct (String.eqb_spec (key e) k) as [E|E].
  - split; [|lia]. intros _. exists e. split; [now left|exact E].
  - rewrite Z.add_0_l, IH. split.
    + intros (x & Hx & Hk). exists x. split; [now right|exact Hk].
    + intros (x & [<-|Hx] & Hk); [contradiction|]. eauto.
Qed.

(** A table of counts after one more [counts[k] = (counts[k] || 0) + 1]. *)
Lemma counted_lookup (counts : gmap string Z) k j :
  default 0 (<[k := default 0 (counts !! k) + 1]> counts !! j)
  = default 0 (counts !! j) + (if String.eqb k j then 1 else 0)
  /\ (is_Some (<[k := default 0 (counts !! k) + 1]> counts !! j)
      <-> is_Some (counts !! j) \/ k = j).
Proof.
  destruct (String.eqb_spec k j) as [<-|Hne].
  - rewrite lookup_insert_eq. simpl. split; [reflexivity|]. split; eauto.
  - rewrite lookup_insert_ne by assumption. split; [lia|]. split; [auto|].
    intros [H|H]; [exact H|contradiction].
Qed.

Lemma aggregateLoop_counts events : forall acc d,
  aggregateLoop acc events = Some d ->
  forall k,
    default 0 (day_requests d !! k)
    = default 0 (day_requests acc !! k) + occurrences versionOf k events
    /\ (is_Some (day_requests d !! k)
        <-> is_Some (day_requests acc !! k) \/ 0 < occurrences versionOf k events)
    /\ default 0 (day_platforms d !! k)
       = default 0 (day_platforms acc !! k) + occurrences platformOf k events
    /\ (is_Some (day_platforms d !! k)
        <-> is_Some (day_platforms acc !! k) \/ 0 < occurrences platformOf k events).
Proof.
  induction events as [|e events IH]; intros acc d Hloop k.
  - simpl in Hloop. injection Hloop as <-. unfold occurrences. simpl.
    rewrite !Z.add_0_r. repeat split; auto; intros [H|H]; auto; lia.
  - simpl in Hloop. destruct (aggregateStep acc e) as [acc'|] eqn:E; [|discriminate].
    simpl in Hloop. destruct (IH acc' d Hloop k) as (Hr & Hrs & Hp & Hps).
    rewrite (aggregateStep_Some _ _ _ E) in Hr, Hrs, Hp, Hps. simpl in Hr, Hrs, Hp, Hps.
    destruct (counted_lookup (day_requests acc) (versionOf e) k) as [Hr1 Hr2].
    destruct (counted_lookup (day_platforms acc) (platformOf e) k) as [Hp1 Hp2].
    rewrite Hr1 in Hr. rewrite Hr2 in Hrs. rewrite Hp1 in Hp. rewrite Hp2 in Hps.
    rewrite !occurrences_cons.
    pose proof (occurrences_nonneg versionOf k events).
    pose proof (occurrences_nonneg platformOf k events).
    destruct (String.eqb_spec (versionOf e) k), (String.eqb_spec (platformOf e) k);
      (split; [lia|]); (split; [rewrite Hrs; intuition lia|]); (split; [lia|]);
      rewrite Hps; intuition lia.
Qed.

Lemma totalCount_bump (counts : gmap string Z) k :
  totalCount (<[k := default 0 (counts !! k) + 1]> counts) = totalCount counts + 1.
Proof.
  unfold totalCount.
  destruct (counts !! k) as [n|] eqn:E; simpl.
  - rewrite <- insert_delete_eq.
    rewrite map_fold_insert_L; [|intros; lia|apply lookup_delete_eq].
    rewrite (map_fold_delete_L _ _ k n counts); [lia|intros; lia|exact E].
  - rewrite map_fold_insert_L; [lia|intros; lia|exact E].
Qed.

Lemma aggregateLoop_totals events : forall acc d,
  aggregateLoop acc events = Some d ->
  totalCount (day_requests d) = totalCount (day_requests acc) + Z.of_nat (length events)
  /\ totalCount (day_platforms d)
     = totalCount (day_platforms acc) + Z.of_nat (length events).
Proof.
  induction events as [|e events IH]; intros acc d Hloop.
  - simpl in Hloop. injection Hloop as <-. simpl. lia.
  - simpl in Hloop. destruct (aggregateStep acc e) as [acc'|] eqn:E; [|discriminate].
    simpl in Hloop. destruct (IH acc' d Hloop) as [Hr Hp].
    rewrite (aggregateStep_Some _ _ _ E) in Hr, Hp. simpl in Hr, Hp.
    rewrite totalCount_bump in Hr, Hp. simpl length. lia.
Qed.

(** X4. [aggregateDay] throws exactly when the version of some event
    ([currentVersion], or "unknown" when that is empty) is a property
    name that objects inherit, such as "constructor" or "toString". *)
Theorem aggregateDay_throws_iff (events : list UpdateCheckEvent) :
  aggregateDay events = None
  <-> Exists (fun e => inherited (versionOf e) = true) events.
Proof.
  apply aggregateLoop_None. intros k. simpl. rewrite !lookup_empty.
  split; [split|]; intros [x Hx]; discriminate.
Qed.

(** X5. When [aggregateDay] returns, [requests] has one entry for each
    version that occurs in the events and [platforms] one for each
    platform that occurs, each holding the number of events with that
    key; the counts of either table add up to the number of events. *)
Theorem aggregateDay_counts (events : list UpdateCheckEvent) (d : DayStats) :
  aggregateDay events = Some d ->
  (forall v, day_requests d !! v
             = if occurrences versionOf v events =? 0 then None
               else Some (occurrences versionOf v events))
  /\ (forall p, day_platforms d !! p
                = if occurrences platformOf p events =? 0 then None
                  else Some (occurrences platformOf p events))
  /\ totalCount (day_requests d) = Z.of_nat (length events)
  /\ totalCount (day_platforms d) = Z.of_nat (length events).
Proof.
  intros Hd. unfold aggregateDay in Hd.
  pose proof (aggregateLoop_counts events _ d Hd) as Hcounts.
  pose proof (aggregateLoop_totals events _ d Hd) as [Hr Hp]. simpl in Hr, Hp.
  unfold totalCount at 2 in Hr. unfold totalCount at 2 in Hp.
  rewrite map_fold_empty in Hr, Hp.
  split; [|split; [|split; lia]].
  - intros v. destruct (Hcounts v) as (Hv & Hs & _). simpl in Hv, Hs.
    rewrite lookup_empty in Hv, Hs. simpl in Hv.
    destruct (Z.eqb_spec (occurrences versionOf v events) 0) as [E|E].
    + destruct (day_requests d !! v) eqn:El; [|reflexivity].
      assert (0 < occurrences versionOf v events); [|lia].
      destruct (proj1 Hs (mk_is_Some _ _ eq_refl)) as [[x Hx]|H]; [discriminate|exact H].
    + destruct (day_requests d !! v) eqn:El; simpl in Hv; [now subst|lia].
  - intros p. destruct (Hcounts p) as (_ & _ & Hv & Hs). simpl in Hv, Hs.
    rewrite lookup_empty in Hv, Hs. simpl in Hv.
    destruct (Z.eqb_spec (occurrences platformOf p events) 0) as [E|E].
    + destruct (day_platforms d !! p) eqn:El; [|reflexivity].
      assert (0 < occurrences platformOf p events); [|lia].
      destruct (proj1 Hs (mk_is_Some _ _ eq_refl)) as [[x Hx]|H]; [discriminate|exact H].
    + destruct (day_platforms d !! p) eqn:El; simpl in Hv; [now subst|lia].
Qed.

Lemma aggregateDay_counts_witness :
  is_Some (aggregateDay sampleDay)
  /\ (aggregateDay sampleDay ≫= fun d => day_requests d !! "0.1.20") = Some 2
  /\ (totalCount ∘ day_platforms <$> aggregateDay sampleDay) = Some 3.
Proof.
  destruct (aggregateDay sampleDay) as [d|] eqn:E; [|vm_compute in E; discriminate].
  destruct (aggregateDay_counts sampleDay d E) as (Hr & _ & _ & Hp).
  split; [eauto|]. simpl. split; [rewrite Hr; reflexivity|rewrite Hp; reflexivity].
Defined.

Lemma setAdd_elem x y set : y ∈ setAdd x set <-> y ∈ set \/ y = x.
Proof.
  unfold setAdd. case_bool_decide as Hx.
  - split; [auto|]. intros [H| ->]; assumption.
  - rewrite elem_of_app, list_elem_of_singleton. reflexivity.
Qed.

Lemma setAdd_NoDup x set : NoDup set -> NoDup (setAdd x set).
Proof.
  intros H. unfold setAdd. case_bool_decide as Hx; [exact H|].
  apply NoDup_app. split; [exact H|]. split; [|apply NoDup_singleton].
  intros y Hy Hyx. apply list_elem_of_singleton in Hyx. now subst.
Qed.

Lemma setAdd_length x set : (length (setAdd x set) <= S (length set))%nat.
Proof.
  unfold setAdd. case_bool_decide; [lia|]. rewrite length_app. simpl. lia.
Qed.

Lemma clientsOf_cons v set e events :
  clientsOf v set (e :: events)
  = clientsOf v (if String.eqb (versionOf e) v then setAdd (clientIdOf e) set else set) events.
Proof. reflexivity. Qed.

Lemma clientsOf_elem v events : forall set c,
  c ∈ clientsOf v set events
  <-> c ∈ set \/ exists e, In e events /\ versionOf e = v /\ clientIdOf e = c.
Proof.
  induction events as [|e events IH]; intros set c.
  - simpl. split; [auto|]. intros [H|(? & [] & _)]. exact H.
  - rewrite clientsOf_cons, IH. destruct (String.eqb_spec (versionOf e) v) as [E|E].
    + rewrite setAdd_elem. split.
      * intros [[H| ->]|(x & Hx & Hv & Hc)]; [auto| |].
        -- right. exists e. split; [now left|auto].
        -- right. exists x. split; [now right|auto].
      * intros [H|(x & [<-|Hx] & Hv & Hc)]; [auto| |].
        -- left. right. now symmetry.
        -- right. eauto.
    + split.
      * intros [H|(x & Hx & Hv & Hc)]; [auto|]. right. exists x. split; [now right|auto].
      * intros [H|(x & [<-|Hx] & Hv & Hc)]; [auto|contradiction|]. right. eauto.
Qed.

Lemma clientsOf_NoDup v events : forall set, NoDup set -> NoDup (clientsOf v set events).
Proof.
  induction events as [|e events IH]; intros set H; [exact H|].
  rewrite clientsOf_cons. apply IH. destruct (String.eqb _ _); [now apply setAdd_NoDup|exact H].
Qed.

Lemma clientsOf_length v events : forall set,
  Z.of_nat (length (clientsOf v set events))
  <= Z.of_nat (length set) + occurrences versionOf v events.
Proof.
  induction events as [|e events IH]; intros set.
  - unfold occurrences. simpl. lia.
  - rewrite clientsOf_cons, occurrences_cons.
    destruct (String.eqb (versionOf e) v).
    + pose proof (IH (setAdd (clientIdOf e) set)). pose proof (setAdd_length (clientIdOf e) set).
      lia.
    + pose proof (IH set). lia.
Qed.

Lemma aggregateLoop_clients events : forall acc d,
  aggregateLoop acc events = Some d ->
  forall v,
    default [] (day_clients d !! v) = clientsOf v (default [] (day_clients acc !! v)) events
    /\ (is_Some (day_clients d !! v)
        <-> is_Some (day_clients acc !! v) \/ 0 < occurrences versionOf v events).
Proof.
  induction events as [|e events IH]; intros acc d Hloop v.
  - simpl in Hloop. injection Hloop as <-. unfold occurrences. simpl.
    split; [reflexivity|]. split; [auto|]. intros [H|H]; [exact H|lia].
  - simpl in Hloop. destruct (aggregateStep acc e) as [acc'|] eqn:E; [|discriminate].
    simpl in Hloop. destruct (IH acc' d Hloop v) as [Hc Hs].
    rewrite (aggregateStep_Some _ _ _ E) in Hc, Hs. simpl in Hc, Hs.
    rewrite clientsOf_cons, occurrences_cons.
    pose proof (occurrences_nonneg versionOf v events).
    destruct (String.eqb_spec (versionOf e) v) as [Ev|Ev].
    + rewrite Ev in Hc, Hs. rewrite lookup_insert_eq in Hc, Hs. simpl in Hc.
      split; [exact Hc|]. rewrite Hs. split; [intros _; right; lia|eauto].
    + rewrite lookup_insert_ne in Hc, Hs by assumption.
      split; [exact Hc|]. rewrite Hs. split; (intros [?|?]; [auto|right; lia]).
Qed.

(** X6. When [aggregateDay] returns, [clients] has the same versions as
    [requests]; the ids listed for a version are the client ids
    ([cfuId], else [ip], else "unknown") of the events of that version,
    each once, in the order of their first check; there is at least one
    of them and no more than there were requests. *)
Theorem aggregateDay_clients (events : list UpdateCheckEvent) (d : DayStats) :
  aggregateDay events = Some d ->
  forall v,
    (is_Some (day_clients d !! v) <-> is_Some (day_requests d !! v))
    /\ (forall ids, day_clients d !! v = Some ids ->
          ids = clientsOf v [] events
          /\ NoDup ids
          /\ (forall c, In c ids <->
                        exists e, In e events /\ versionOf e = v /\ clientIdOf e = c)
          /\ ids <> []
          /\ Z.of_nat (length ids) <= default 0 (day_requests d !! v)).
Proof.
  intros Hd v. unfold aggregateDay in Hd.
  destruct (aggregateLoop_clients events _ d Hd v) as [Hc Hs].
  destruct (aggregateLoop_counts events _ d Hd v) as (Hr & Hrs & _).
  cbn [day_clients day_requests] in Hc, Hs, Hr, Hrs.
  rewrite lookup_empty in Hc, Hs. rewrite lookup_empty in Hr, Hrs. simpl in Hc, Hr.
  assert (Hno : forall A, ~ is_Some (@None A)) by (intros A [x Hx]; discriminate).
  split.
  - rewrite Hs, Hrs. split; (intros [H|H]; [now apply Hno in H|now right]).
  - intros ids Hids. rewrite Hids in Hc. simpl in Hc. subst ids.
    assert (Hocc : 0 < occurrences versionOf v events).
    { destruct (proj1 Hs (mk_is_Some _ _ Hids)) as [H|H]; [now apply Hno in H|exact H]. }
    split; [reflexivity|]. split; [apply clientsOf_NoDup, NoDup_nil_2|].
    assert (Hmem : forall c, In c (clientsOf v [] events) <->
                     exists e, In e events /\ versionOf e = v /\ clientIdOf e = c).
    { intros c. rewrite <- list_elem_of_In, clientsOf_elem. split.
      - intros [H|H]; [now apply elem_of_nil in H|exact H].
      - auto. }
    split; [exact Hmem|]. split.
    + apply occurrences_pos in Hocc as (e & He & Hv).
      intros Hnil. assert (Hin : In (clientIdOf e) (clientsOf v [] events))
        by (apply Hmem; eauto).
      rewrite Hnil in Hin. exact Hin.
    + rewrite Hr. pose proof (clientsOf_length v events []). simpl in *. lia.
Qed.

Lemma aggregateDay_clients_witness :
  is_Some (aggregateDay sampleDay)
  /\ (aggregateDay sampleDay ≫= fun d => day_clients d !! "0.1.20") = Some ["client-a"].
Proof.
  destruct (aggregateDay sampleDay) as [d|] eqn:E; [|vm_compute in E; discriminate].
  split; [eauto|]. simpl.
  destruct (aggregateDay_clients sampleDay d E "0.1.20") as [Hdom Hids].
  destruct (day_clients d !! "0.1.20") as [ids|] eqn:Ec.
  - destruct (Hids ids eq_refl) as (-> & _). reflexivity.
  - exfalso. assert (H : is_Some (day_requests d !! "0.1.20")).
    { apply (aggregateLoop_counts sampleDay _ d E "0.1.20"). right. reflexivity. }
    apply Hdom in H. destruct H as [x Hx]. discriminate.
Defined.

(** ** Fetching the releases *)

Lemma filter_first {A} (f : A -> bool) skipped r rest :
  (forall x, In x skipped -> f x = false) -> f r = true ->
  List.filter f (skipped ++ r :: rest) !! 0%nat = Some r.
Proof.
  intros Hs Hr. rewrite List.filter_app, (filter_none f skipped Hs). simpl. now rewrite Hr.
Qed.

Lemma filter_head_None {A} (f : A -> bool) l :
  List.filter f l !! 0%nat = None <-> forall x, In x l -> f x = false.
Proof.
  induction l as [|x l IH]; simpl.
  - split; [intros _ ? []|reflexivity].
  - destruct (f x) eqn:E; simpl.
    + split; [discriminate|]. intros H. specialize (H x (or_introl eq_refl)). congruence.
    + rewrite IH. split; [intros H y [<-|Hy]; auto|intros H y Hy; apply H; now right].
Qed.

Lemma startsWith_iff s p : JS.startsWith s p = true <-> exists v, s = p +:+ v.
Proof.
  unfold JS.startsWith. split; [apply prefix_inv|]. intros [v ->]. apply prefix_app.
Qed.

Lemma extractVersionNotes_In releases prefix n :
  In n (extractVersionNotes releases prefix)
  <-> exists r, In r releases /\ n = noteOf prefix r /\ releaseNotes r <> "".
Proof.
  unfold extractVersionNotes. rewrite filter_In, in_map_iff. split.
  - intros [(r & <- & Hr) Hlen]. exists r. split; [exact Hr|]. split; [reflexivity|].
    simpl in Hlen. intros E. rewrite E in Hlen. discriminate.
  - intros (r & Hr & -> & Hne). split; [eauto|]. simpl.
    destruct (releaseNotes r); [contradiction|reflexivity].
Qed.

(** The notes taken from the releases of a product: each comes from a
    release whose tag is the prefix followed by the version of the note. *)
Lemma freshNotes_from_tags product releases n :
  In n (extractVersionNotes (withPrefix product releases) (tagPrefix product)) ->
  exists r, In r releases
            /\ tag_name r = tagPrefix product +:+ version n
            /\ notes n = releaseNotes r
            /\ notes n <> "".
Proof.
  intros H. apply extractVersionNotes_In in H as (r & Hr & -> & Hne).
  unfold withPrefix in Hr. apply filter_In in Hr as [Hr Hp].
  apply startsWith_iff in Hp as [v Hv].
  exists r. split; [exact Hr|]. simpl. rewrite Hv, sliceFrom_drop. auto.
Qed.

Lemma extractVersionNotes_head r releases prefix :
  releaseNotes r <> "" ->
  extractVersionNotes (r :: releases) prefix !! 0%nat = Some (noteOf prefix r).
Proof.
  intros Hne. unfold extractVersionNotes. simpl.
  destruct (releaseNotes r) eqn:E; [contradiction|]. simpl.
  unfold noteOf. now rewrite E.
Qed.

Lemma withPrefix_first product skipped r rest :
  (forall x, In x skipped -> JS.startsWith (tag_name x) (tagPrefix product) = false) ->
  JS.startsWith (tag_name r) (tagPrefix product) = true ->
  withPrefix product (skipped ++ r :: rest) = r :: withPrefix product rest.
Proof.
  intros Hs Hr. unfold withPrefix.
  rewrite List.filter_app, (filter_none _ skipped Hs). simpl. now rewrite Hr.
Qed.

(** X7. With a successful answer of the releases API, [fetchSimpleReleases]
    resolves to [null] exactly when no release has a tag that starts
    with the tag prefix.  Otherwise the latest release is the first such
    release in the order of the answer: its version is the tag without
    the prefix, its notes the stripped body, its date [published_at] or
    else the current time.  Every fresh note comes from a release whose
    tag is the prefix followed by the version of the note and is not
    empty, and the note of the latest release, when it has one, comes
    first. *)
Theorem fetchSimpleReleases_latest
    (net : Network) (product : ProductConfig) (githubToken now : string)
    (res : HttpResponse (list GitHubRelease)) :
  api net {| url := releasesUrl product;
             req_headers := makeHeaders product githubToken |} = Fulfilled res ->
  ok res = true ->
  (settled (fetchSimpleReleases net product githubToken now) = Fulfilled None
   <-> forall r, In r (json res) -> JS.startsWith (tag_name r) (tagPrefix product) = false)
  /\ (forall skipped r rest v,
        json res = skipped ++ r :: rest ->
        (forall x, In x skipped -> JS.startsWith (tag_name x) (tagPrefix product) = false) ->
        tag_name r = tagPrefix product +:+ v ->
        exists result,
          settled (fetchSimpleReleases net product githubToken now) = Fulfilled (Some result)
          /\ simple_version (simple_latest result) = v
          /\ simple_notes (simple_latest result) = releaseNotes r
          /\ simple_pub_date (simple_latest result)
             = match published_at r with
               | Some p => if String.eqb p "" then now else p
               | None => now
               end
          /\ (releaseNotes r <> "" ->
              simple_freshNotes result !! 0%nat
              = Some {| version := v; notes := releaseNotes r |}))
  /\ (forall result n,
        settled (fetchSimpleReleases net product githubToken now) = Fulfilled (Some result) ->
        In n (simple_freshNotes result) ->
        exists r, In r (json res)
                  /\ tag_name r = tagPrefix product +:+ version n
                  /\ notes n = releaseNotes r
                  /\ notes n <> "").
Proof.
  intros Hres Hok. unfold fetchSimpleReleases. rewrite Hres, Hok. simpl.
  split; [|split].
  - destruct (withPrefix product (json res) !! 0%nat) as [r0|] eqn:E; simpl.
    + split; [discriminate|]. intros H. apply filter_head_None in H.
      unfold withPrefix in E. congruence.
    + split; [intros _|reflexivity]. now apply filter_head_None.
  - intros skipped r rest v Hjson Hskipped Htag.
    assert (Hr : JS.startsWith (tag_name r) (tagPrefix product) = true)
      by (apply startsWith_iff; eauto).
    rewrite Hjson, (withPrefix_first product skipped r rest Hskipped Hr). simpl.
    eexists. split; [reflexivity|]. simpl.
    split; [rewrite Htag; apply sliceFrom_drop|]. split; [reflexivity|].
    split; [reflexivity|]. intros Hne.
    rewrite (extractVersionNotes_head r _ _ Hne). unfold noteOf.
    now rewrite Htag, sliceFrom_drop.
  - intros result n. destruct (withPrefix product (json res) !! 0%nat) as [r0|] eqn:E;
      simpl; [|discriminate].
    intros [= <-]. simpl. apply freshNotes_from_tags.
Qed.

Lemma fetchSimpleReleases_latest_witness :
  ok {| ok := true; res_status := 200; statusText := "OK"; json := sampleReleases |} = true
  /\ exists result,
       settled (fetchSimpleReleases (answering sampleReleases mockLatest) testSimple "" "now")
       = Fulfilled (Some result)
       /\ simple_version (simple_latest result) = "0.4.6".
Proof.
  split; [reflexivity|].
  destruct (fetchSimpleReleases_latest (answering sampleReleases mockLatest) testSimple "" "now"
              {| ok := true; res_status := 200; statusText := "OK"; json := sampleReleases |}
              eq_refl eq_refl) as (_ & Hfirst & _).
  destruct (Hfirst [otherRelease] newestRelease [olderRelease] "0.4.6" eq_refl)
    as (result & Hres & Hv & _).
  - intros x [<-|[]]. reflexivity.
  - reflexivity.
  - exists result. split; [exact Hres|exact Hv].
Defined.

Lemma find_first {A} (f : A -> bool) before x after :
  (forall y, In y before -> f y = false) -> f x = true ->
  List.find f (before ++ x :: after) = Some x.
Proof.
  induction before as [|y before IH]; intros Hb Hx; simpl.
  - now rewrite Hx.
  - rewrite (Hb y (or_introl eq_refl)). apply IH; [|exact Hx].
    intros z Hz. apply Hb. now right.
Qed.

Lemma find_None {A} (f : A -> bool) l :
  List.find f l = None <-> forall x, In x l -> f x = false.
Proof.
  induction l as [|x l IH]; simpl.
  - split; [intros _ ? []|reflexivity].
  - destruct (f x) eqn:E.
    + split; [discriminate|]. intros H. specialize (H x (or_introl eq_refl)). congruence.
    + rewrite IH. split; [intros H y [<-|Hy]; auto|intros H y Hy; apply H; now right].
Qed.

(** X8. With a successful answer of the releases API,
    [fetchTauriReleases] looks for [latest.json] in the first release
    whose tag starts with the tag prefix, and in no other: it resolves
    to [null] exactly when there is no such release or that release has
    no asset of this name.  Otherwise it downloads the first asset of
    this name, rejects when the download is not ok, and else resolves to
    the downloaded manifest as it is, with the notes of all the releases
    of the prefix; every such note comes from a release whose tag is the
    prefix followed by the version of the note. *)
Theorem fetchTauriReleases_manifest
    (net : Network) (product : ProductConfig) (githubToken : string)
    (res : HttpResponse (list GitHubRelease)) :
  api net {| url := releasesUrl product;
             req_headers := makeHeaders product githubToken |} = Fulfilled res ->
  ok res = true ->
  (settled (fetchTauriReleases net product githubToken) = Fulfilled None
   <-> (forall r, In r (json res) -> JS.startsWith (tag_name r) (tagPrefix product) = false)
       \/ exists r, withPrefix product (json res) !! 0%nat = Some r
                    /\ forall a, In a (assets r) -> asset_name a <> "latest.json")
  /\ (forall skipped r rest before asset after,
        json res = skipped ++ r :: rest ->
        (forall x, In x skipped -> JS.startsWith (tag_name x) (tagPrefix product) = false) ->
        JS.startsWith (tag_name r) (tagPrefix product) = true ->
        assets r = before ++ asset :: after ->
        (forall a, In a before -> asset_name a <> "latest.json") ->
        asset_name asset = "latest.json" ->
        sent (fetchTauriReleases net product githubToken)
        = [ {| url := releasesUrl product; req_headers := makeHeaders product githubToken |};
            {| url := browser_download_url asset;
               req_headers := {["User-Agent" := id product +:+ "-update-server"]} |} ]
        /\ forall jsonRes,
             download net {| url := browser_download_url asset;
                             req_headers := {["User-Agent" := id product +:+ "-update-server"]} |}
             = Fulfilled jsonRes ->
             settled (fetchTauriReleases net product githubToken)
             = if ok jsonRes
               then Fulfilled
                      (Some {| tauri_latest := json jsonRes;
                               tauri_freshNotes :=
                                 extractVersionNotes (r :: withPrefix product rest)
                                   (tagPrefix product) |})
               else RejectedWith ("Failed to fetch latest.json: "
                                  +:+ pretty (res_status jsonRes)))
  /\ (forall result n,
        settled (fetchTauriReleases net product githubToken) = Fulfilled (Some result) ->
        In n (tauri_freshNotes result) ->
        exists r, In r (json res)
                  /\ tag_name r = tagPrefix product +:+ version n
                  /\ notes n = releaseNotes r
                  /\ notes n <> "").
Proof.
  intros Hres Hok. unfold fetchTauriReleases. rewrite Hres, Hok. simpl.
  assert (Hname : forall a, String.eqb (asset_name a) "latest.json" = false
                            <-> asset_name a <> "latest.json").
  { intros a. destruct (String.eqb_spec (asset_name a) "latest.json"); split; congruence. }
  split; [|split].
  - destruct (withPrefix product (json res) !! 0%nat) as [r0|] eqn:E; simpl.
    + destruct (List.find _ (assets r0)) as [asset|] eqn:F; simpl.
      * split.
        -- destruct (download net _) as [jsonRes|]; simpl; [|discriminate].
           destruct (ok jsonRes); discriminate.
        -- intros [H|(r & Hr & Hassets)].
           ++ apply filter_head_None in H. unfold withPrefix in E. congruence.
           ++ injection Hr as <-. apply find_some in F as [Hin Hn].
              apply String.eqb_eq in Hn. now destruct (Hassets asset Hin).
      * split; [intros _|reflexivity]. right. exists r0. split; [reflexivity|].
        intros a Ha. apply Hname. now apply (proj1 (find_None _ _) F).
    + split; [intros _|reflexivity]. left. now apply filter_head_None.
  - intros skipped r rest before asset after Hjson Hskipped Hr Hassets Hbefore Hasset.
    rewrite Hjson, (withPrefix_first product skipped r rest Hskipped Hr). simpl.
    rewrite Hassets, (find_first _ before asset after).
    + split.
      * destruct (download net _) as [jsonRes|]; simpl; [|reflexivity].
        destruct (ok jsonRes); reflexivity.
      * intros jsonRes ->. simpl. destruct (ok jsonRes); reflexivity.
    + intros a Ha. apply Hname. now apply Hbefore.
    + rewrite Hasset. reflexivity.
  - intros result n. destruct (withPrefix product (json res) !! 0%nat) as [r0|] eqn:E;
      simpl; [|discriminate].
    destruct (List.find _ (assets r0)) as [asset|]; simpl; [|discriminate].
    destruct (download net _) as [jsonRes|]; simpl; [|discriminate].
    destruct (ok jsonRes); simpl; [|discriminate].
    intros [= <-]. simpl. apply freshNotes_from_tags.
Qed.

Lemma fetchTauriReleases_manifest_witness :
  ok {| ok := true; res_status := 200; statusText := "OK"; json := sampleReleases |} = true
  /\ settled (fetchTauriReleases (answering sampleReleases mockLatest) testTauri "token")
     = Fulfilled (Some {| tauri_latest := mockLatest;
                          tauri_freshNotes := [ {| version := "0.4.6";
                                                   notes := "- New feature" |} ] |}).
Proof.
  split; [reflexivity|].
  destruct (fetchTauriReleases_manifest (answering sampleReleases mockLatest) testTauri "token"
              {| ok := true; res_status := 200; statusText := "OK"; json := sampleReleases |}
              eq_refl eq_refl) as (_ & Hfirst & _).
  destruct (Hfirst [otherRelease] newestRelease [olderRelease] []
              {| asset_name := "latest.json";
                 browser_download_url := "https://example.test/latest.json" |} []
              eq_refl) as [_ Hdl].
  - intros x [<-|[]]. reflexivity.
  - reflexivity.
  - reflexivity.
  - intros a [].
  - reflexivity.
  - rewrite (Hdl {| ok := true; res_status := 200; statusText := "OK"; json := mockLatest |}
               eq_refl).
    reflexivity.
Defined.

(** X9. Both fetch functions first ask the releases API of the
    repository of the product, with an [Authorization: Bearer] header
    exactly when a token is configured.  [fetchSimpleReleases] sends
    nothing else; [fetchTauriReleases] sends at most one more request,
    the download of the manifest, and that one carries the [User-Agent]
    header alone: the token is never sent to the download address. *)
Theorem fetch_requests
    (net : Network) (product : ProductConfig) (githubToken now : string) :
  sent (fetchSimpleReleases net product githubToken now)
  = [ {| url := releasesUrl product; req_headers := makeHeaders product githubToken |} ]
  /\ (exists more,
        sent (fetchTauriReleases net product githubToken)
        = {| url := releasesUrl product; req_headers := makeHeaders product githubToken |}
          :: more
        /\ (length more <= 1)%nat
        /\ forall request, In request more ->
             req_headers request = {["User-Agent" := id product +:+ "-update-server"]}
             /\ req_headers request !! "Authorization" = None)
  /\ makeHeaders product githubToken !! "Authorization"
     = (if String.eqb githubToken "" then None else Some ("Bearer " +:+ githubToken))
  /\ makeHeaders product githubToken !! "User-Agent" = Some (id product +:+ "-update-server")
  /\ makeHeaders product githubToken !! "Accept" = Some "application/vnd.github+json".
Proof.
  split; [|split].
  - unfold fetchSimpleReleases. destruct (api net _) as [res|]; [|reflexivity].
    destruct (ok res); simpl; [|reflexivity].
    destruct (withPrefix product (json res) !! 0%nat); reflexivity.
  - unfold fetchTauriReleases.
    assert (Hnone : exists more : list HttpRequest,
              [ {| url := releasesUrl product;
                   req_headers := makeHeaders product githubToken |} ]
              = {| url := releasesUrl product;
                   req_headers := makeHeaders product githubToken |} :: more
              /\ (length more <= 1)%nat
              /\ forall request, In request more ->
                   req_headers request = {["User-Agent" := id product +:+ "-update-server"]}
                   /\ req_headers request !! "Authorization" = None).
    { exists []. split; [reflexivity|]. split; [simpl; lia|intros ? []]. }
    destruct (api net _) as [res|]; [|exact Hnone].
    destruct (ok res); simpl; [|exact Hnone].
    destruct (withPrefix product (json res) !! 0%nat) as [r0|]; [|exact Hnone].
    destruct (List.find _ (assets r0)) as [asset|]; [|exact Hnone].
    assert (Hone : exists more : list HttpRequest,
              [ {| url := releasesUrl product;
                   req_headers := makeHeaders product githubToken |};
                {| url := browser_download_url asset;
                   req_headers := {["User-Agent" := id product +:+ "-update-server"]} |} ]
              = {| url := releasesUrl product;
                   req_headers := makeHeaders product githubToken |} :: more
              /\ (length more <= 1)%nat
              /\ forall request, In request more ->
                   req_headers request = {["User-Agent" := id product +:+ "-update-server"]}
                   /\ req_headers request !! "Authorization" = None).
    { eexists. split; [reflexivity|]. split; [simpl; lia|].
      intros request [<-|[]]. simpl. split; [reflexivity|].
      now apply lookup_singleton_ne. }
    destruct (download net _) as [jsonRes|]; [|exact Hone].
    destruct (ok jsonRes); exact Hone.
  - unfold makeHeaders. destruct (String.eqb githubToken ""); simpl.
    + rewrite !lookup_insert_ne by discriminate. rewrite lookup_empty.
      split; [reflexivity|]. now rewrite lookup_insert_eq, lookup_insert_ne, lookup_insert_eq.
    + rewrite lookup_insert_eq. split; [reflexivity|].
      rewrite !(lookup_insert_ne _ "Authorization") by discriminate.
      now rewrite lookup_insert_eq, lookup_insert_ne, lookup_insert_eq.
Qed.

(** ** The tables of the server *)

Lemma findLast_snoc {A} (f : A -> bool) l x :
  findLast f (l ++ [x]) = if f x then Some x else findLast f l.
Proof. unfold findLast. rewrite rev_app_distr. reflexivity. Qed.

Lemma findLast_Some {A} (f : A -> bool) l x :
  findLast f l = Some x -> In x l /\ f x = true.
Proof.
  unfold findLast. intros H. apply find_some in H as [Hin Hf].
  split; [now apply in_rev|exact Hf].
Qed.

Lemma findLast_None {A} (f : A -> bool) l :
  findLast f l = None <-> forall x, In x l -> f x = false.
Proof.
  unfold findLast. rewrite find_None. split; intros H x Hx; apply H.
  - now apply in_rev in Hx.
  - now apply in_rev.
Qed.

Lemma findLast_is_Some {A} (f : A -> bool) l x :
  In x l -> f x = true -> is_Some (findLast f l).
Proof.
  intros Hin Hf. destruct (findLast f l) eqn:E; [eauto|].
  rewrite findLast_None in E. rewrite (E x Hin) in Hf. discriminate.
Qed.

Lemma insertAll_lookup {A V} (key : A -> string) (val : A -> V) l k :
  foldl (fun (m : gmap string V) x => <[key x := val x]> m) ∅ l !! k
  = val <$> findLast (fun x => String.eqb (key x) k) l.
Proof.
  induction l as [|x l IH] using rev_ind; [apply lookup_empty|].
  rewrite foldl_snoc, findLast_snoc.
  destruct (String.eqb_spec (key x) k) as [<-|Hne].
  - now rewrite lookup_insert_eq.
  - now rewrite lookup_insert_ne.
Qed.

Lemma insertHosts_lookup (p : ProductConfig) hosts (m : gmap string ProductConfig) h :
  foldl (fun m h => <[h := p]> m) m hosts !! h
  = if bool_decide (h ∈ hosts) then Some p else m !! h.
Proof.
  induction hosts as [|x hosts IH] using rev_ind; [reflexivity|].
  rewrite foldl_snoc. destruct (decide (x = h)) as [->|Hne].
  - rewrite lookup_insert_eq, bool_decide_eq_true_2; [reflexivity|].
    apply elem_of_app. right. now apply list_elem_of_singleton.
  - rewrite lookup_insert_ne, IH by assumption.
    rewrite (bool_decide_ext (h ∈ hosts) (h ∈ hosts ++ [x])); [reflexivity|].
    rewrite elem_of_app, list_elem_of_singleton. split; [auto|]. intros [H|H]; [exact H|].
    now subst.
Qed.

Lemma buildProductByHostname_lookup products h :
  buildProductByHostname products !! h
  = findLast (fun p => bool_decide (h ∈ hostnames p)) products.
Proof.
  unfold buildProductByHostname.
  induction products as [|p products IH] using rev_ind; [apply lookup_empty|].
  rewrite foldl_snoc, findLast_snoc, insertHosts_lookup, IH. reflexivity.
Qed.

Lemma unique_by_key {A} (key : A -> string) l x y :
  NoDup (map key l) -> In x l -> In y l -> key x = key y -> x = y.
Proof.
  induction l as [|z l IH]; simpl; intros Hnd Hx Hy Hk; [contradiction|].
  apply NoDup_cons in Hnd as [Hz Hnd].
  assert (Hin : forall w, In w l -> key z <> key w).
  { intros w Hw E. apply Hz. rewrite E. apply list_elem_of_In, in_map, Hw. }
  destruct Hx as [<-|Hx], Hy as [<-|Hy]; [reflexivity| | |now apply IH].
  - now destruct (Hin y Hy).
  - symmetry in Hk. now destruct (Hin x Hx).
Qed.

(** X10. The lookup tables built from the configuration hold, for an id,
    the last product of the configuration with that id and, for a
    hostname, the last product that lists it; they hold nothing for an
    id or a hostname of no product.  When the ids are all different,
    every product is found under its id. *)
Theorem product_tables (products : list ProductConfig) :
  (forall i, buildProductById products !! i
             = findLast (fun p => String.eqb (id p) i) products)
  /\ (forall h, buildProductByHostname products !! h
                = findLast (fun p => bool_decide (h ∈ hostnames p)) products)
  /\ (forall i p, buildProductById products !! i = Some p -> In p products /\ id p = i)
  /\ (forall h p, buildProductByHostname products !! h = Some p ->
                  In p products /\ In h (hostnames p))
  /\ (forall i, buildProductById products !! i = None
                <-> forall p, In p products -> id p <> i)
  /\ (forall h, buildProductByHostname products !! h = None
                <-> forall p, In p products -> ~ In h (hostnames p))
  /\ (NoDup (map id products) ->
      forall p, In p products -> buildProductById products !! id p = Some p).
Proof.
  assert (Hid : forall i, buildProductById products !! i
                          = findLast (fun p => String.eqb (id p) i) products).
  { intros i. unfold buildProductById.
    rewrite (insertAll_lookup id (fun p => p)). now destruct (findLast _ _). }
  pose proof (buildProductByHostname_lookup products) as Hhost.
  split; [exact Hid|]. split; [exact Hhost|]. repeat split.
  - rewrite Hid in H. now apply findLast_Some in H.
  - rewrite Hid in H. apply findLast_Some in H as [_ H]. now apply String.eqb_eq.
  - rewrite Hhost in H. now apply findLast_Some in H.
  - rewrite Hhost in H. apply findLast_Some in H as [_ H].
    apply bool_decide_eq_true in H. now apply list_elem_of_In.
  - rewrite Hid, findLast_None. intros H p Hp. specialize (H p Hp).
    now apply String.eqb_neq.
  - rewrite Hid, findLast_None. intros H p Hp. apply String.eqb_neq. now apply H.
  - rewrite Hhost, findLast_None. intros H p Hp Hin. specialize (H p Hp).
    apply bool_decide_eq_false in H. apply H. now apply list_elem_of_In.
  - rewrite Hhost, findLast_None. intros H p Hp. apply bool_decide_eq_false.
    intros Hin. apply (H p Hp). now apply list_elem_of_In.
  - intros Hnd p Hp. rewrite Hid.
    destruct (findLast_is_Some (fun q => String.eqb (id q) (id p)) products p Hp
                (String.eqb_refl _)) as [q Hq].
    rewrite Hq. f_equal. apply findLast_Some in Hq as [Hin Hk].
    apply String.eqb_eq in Hk. now apply (unique_by_key id products).
Qed.

Lemma product_tables_witness :
  NoDup (map id [testTauri; testSimple])
  /\ buildProductById [testTauri; testSimple] !! "test-simple" = Some testSimple.
Proof.
  assert (Hnd : NoDup (map id [testTauri; testSimple])).
  { simpl. apply NoDup_cons. split; [|apply NoDup_singleton].
    intros H. apply list_elem_of_singleton in H. discriminate. }
  split; [exact Hnd|].
  destruct (product_tables [testTauri; testSimple]) as (_ & _ & _ & _ & _ & _ & H).
  apply (H Hnd testSimple). right. now left.
Defined.

Lemma route_calls_tauri env req state target arch current :
  route env req = CallTauriUpdateCheck state target arch current ->
  exists p, resolveProduct env req = Some p
            /\ productStates env !! id p = Some state
            /\ tauriUpdates p = true.
Proof.
  unfold route. intros H. repeat case_match; try discriminate.
  injection H as <- _ _ _. eexists. repeat split; try eassumption.
  match goal with E : negb (tauriUpdates _) = false |- _ =>
    now apply negb_false_iff in E end.
Qed.

Lemma route_calls_version env req state given :
  route env req = CallVersionCheck state given ->
  exists p, resolveProduct env req = Some p
            /\ productStates env !! id p = Some state
            /\ tauriUpdates p = false.
Proof.
  unfold route. intros H.
  repeat case_match; try discriminate; injection H as <- _; eexists;
    (split; [reflexivity|]); split; assumption.
Qed.








(** ** What the server answers *)

Lemma route_tauri_path env req state target arch current :
  route env req = CallTauriUpdateCheck state target arch current ->
  method req = "GET" /\ segmentsOf (pathname req) = ["tauri"; target; arch; current].
Proof.
  unfold route. intros H. repeat case_match; try discriminate.
  injection H as _ <- <- <-.
  match goal with E : negb (String.eqb (method req) "GET") = false |- _ =>
    apply negb_false_iff, String.eqb_eq in E; split; [exact E|] end.
  match goal with E : firstIs _ "tauri" && _ = true |- _ =>
    apply andb_prop in E as [E1 E2];
    apply bool_decide_eq_true in E1; apply Nat.eqb_eq in E2 end.
  destruct (segmentsOf (pathname req)) as [|s0 [|s1 [|s2 [|s3 [|s4 l]]]]];
    simpl in *; try discriminate; try lia.
  now simplify_eq.
Qed.

Lemma route_version_path env req state given :
  route env req = CallVersionCheck state given ->
  method req = "GET"
  /\ segmentsOf (pathname req) !! 0%nat = Some "version"
  /\ given = segmentsOf (pathname req) !! 1%nat.
Proof.
  unfold route. intros H.
  repeat case_match; try discriminate; injection H as _ <-;
    (match goal with E : negb (String.eqb (method req) "GET") = false |- _ =>
       apply negb_false_iff, String.eqb_eq in E; split; [exact E|] end);
    (split; [|reflexivity]);
    match goal with E : firstIs _ "version" = true |- _ =>
      now apply bool_decide_eq_true in E end.
Qed.

Lemma route_reply_payload env req r :
  route env req = Reply r ->
  (forall data, payload r <> JsonUpdate data)
  /\ (forall v n d, payload r <> JsonRelease v n d)
  /\ status r <> 204.
Proof.
  unfold route. intros H.
  repeat case_match; try discriminate; injection H as <-; simpl;
    repeat split; intros; discriminate.
Qed.

(** X12. The server offers an update only to a client that is behind:
    whenever it answers with an update payload, the request was a GET
    for [/tauri/:target/:arch/:currentVersion] of a product with Tauri
    updates, the version is valid and strictly below the cached latest
    version, the manifest has an artifact for ["{target}-{arch}"], the
    status is 200, and the payload is made of the manifest, that
    artifact and the aggregated notes. *)
Theorem server_update_only_when_newer (env : Env) (req : Request) (data : option PlatformUpdate) :
  payload (response (server env req)) = JsonUpdate data ->
  exists p state latest target arch current artifact,
    method req = "GET"
    /\ segmentsOf (pathname req) = ["tauri"; target; arch; current]
    /\ resolveProduct env req = Some p
    /\ tauriUpdates p = true
    /\ productStates env !! id p = Some state
    /\ cache state = TauriCache (Some latest)
    /\ isValidVersion current = true
    /\ 0 < compareVersions (latest_version latest) current
    /\ platforms latest !! (target +:+ "-" +:+ arch) = Some artifact
    /\ status (response (server env req)) = 200
    /\ data = Some {| update_version := latest_version latest;
                      update_notes := aggregateNotes (notesStore state) current;
                      update_pub_date := latest_pub_date latest;
                      update_url := entry_url artifact;
                      update_signature := entry_signature artifact |}.
Proof.
  unfold server. destruct (route env req) as [r|st t a c|st g|st] eqn:R.
  - simpl. intros H. now apply (route_reply_payload env req r R) in H.
  - pose proof (route_tauri_path _ _ _ _ _ _ R) as [Hget Hseg].
    pose proof (route_tauri_valid _ _ _ _ _ _ R) as Hvalid.
    destruct (route_calls_tauri _ _ _ _ _ _ R) as (p & Hp & Hst & Htauri).
    destruct (cache st) as [[latest|]|[s|]] eqn:Ec; cbn [asTauriCache];
      try (simpl; discriminate).
    on_awaited; [|simpl; discriminate].
    unfold handleTauriUpdateCheck, findPlatformUpdate.
    destruct (platforms latest !! (t +:+ "-" +:+ a)) as [artifact|] eqn:Ea; simpl;
      [|discriminate].
    rewrite ?bool_decide_eq_true_2 by eauto. simpl.
    destruct (Z.ltb_spec 0 (compareVersions (latest_version latest) c)); simpl;
      [|discriminate].
    intros [= <-]. exists p, st, latest, t, a, c, artifact. repeat split; auto.
  - on_awaited; [|simpl; discriminate].
    unfold handleVersionCheck. destruct (asSimpleCache (cache st)); simpl; [|discriminate].
    destruct (supplied g); [destruct (negb _)|]; simpl; discriminate.
  - destruct (asSimpleCache (cache st)); simpl; discriminate.
Qed.

Lemma server_update_only_when_newer_witness :
  exists data,
    payload (response (server testEnv (fetchFrom "tauri.test" "/tauri/darwin/aarch64/0.1.20")))
    = JsonUpdate data
    /\ exists latest, 0 < compareVersions (latest_version latest) "0.1.20".
Proof.
  eexists. split; [vm_compute; reflexivity|].
  destruct (server_update_only_when_newer testEnv
              (fetchFrom "tauri.test" "/tauri/darwin/aarch64/0.1.20") _ eq_refl)
    as (p & st & latest & t & a & c & artifact & _ & Hseg & _ & _ & _ & _ & _ & Hnew & _).
  exists latest. vm_compute in Hseg. injection Hseg as _ _ <-. exact Hnew.
Defined.

(** X13. A request logs at most one check, and only a request that a
    handler answered 200 or 204: the logged [updateAvailable] is true
    exactly when the answer is 200, false exactly when it is 204, and a
    204 is never sent without a logged check.  The logged check carries
    the id of the product of the state, the time of the request and the
    client address of [getClientIp]; a check of a product without Tauri
    updates has an empty target and architecture. *)
Theorem server_logs_what_it_answers (env : Env) (req : Request) :
  (length (logged (server env req)) <= 1)%nat
  /\ (forall event, In event (logged (server env req)) ->
        (updateAvailable event = true /\ status (response (server env req)) = 200
         \/ updateAvailable event = false /\ status (response (server env req)) = 204)
        /\ ts event = now env
        /\ ip event = getClientIp req
        /\ (exists p state,
              resolveProduct env req = Some p
              /\ productStates env !! id p = Some state
              /\ ev_product event = id (product state)
              /\ (tauriUpdates p = false -> ev_target event = "" /\ ev_arch event = "")))
  /\ (status (response (server env req)) = 204 ->
      exists event, logged (server env req) = [event] /\ updateAvailable event = false).
Proof.
  unfold server. destruct (route env req) as [r|st t a c|st g|st] eqn:R.
  - simpl. split; [lia|]. split; [intros ? []|].
    intros H. now apply (route_reply_payload env req r R) in H.
  - destruct (route_calls_tauri _ _ _ _ _ _ R) as (p & Hp & Hst & Htauri).
    destruct (asTauriCache (cache st)) as [[latest|]|];
      try (simpl; split; [lia|]; split; [intros ? []|discriminate]).
    on_awaited; [|simpl; split; [lia|]; split; [intros ? []|discriminate]].
    unfold handleTauriUpdateCheck.
    destruct (bool_decide _ && _); simpl.
    + split; [lia|]. split; [|discriminate].
      intros event [<-|[]]; simpl. split; [auto|]. split; [reflexivity|].
      split; [reflexivity|]. exists p, st. repeat split; auto; congruence.
    + split; [lia|]. split; [|eauto].
      intros event [<-|[]]; simpl. split; [auto|]. split; [reflexivity|].
      split; [reflexivity|]. exists p, st. repeat split; auto; congruence.
  - destruct (route_calls_version _ _ _ _ R) as (p & Hp & Hst & Htauri).
    on_awaited; [|simpl; split; [lia|]; split; [intros ? []|discriminate]].
    unfold handleVersionCheck.
    destruct (asSimpleCache (cache st)) as [latest|]; simpl;
      try (split; [lia|]; split; [intros ? []|discriminate]).
    destruct (supplied g) as [current|]; simpl;
      try (split; [lia|]; split; [intros ? []|discriminate]).
    destruct (0 <? _); simpl.
    + split; [lia|]. split; [|discriminate].
      intros event [<-|[]]; simpl. split; [auto|]. split; [reflexivity|].
      split; [reflexivity|]. exists p, st. repeat split; auto.
    + split; [lia|]. split; [|eauto].
      intros event [<-|[]]; simpl. split; [auto|]. split; [reflexivity|].
      split; [reflexivity|]. exists p, st. repeat split; auto.
  - destruct (asSimpleCache (cache st)); simpl;
      (split; [lia|]; split; [intros ? []|discriminate]).
Qed.

Lemma server_logs_what_it_answers_witness :
  status (response (server testEnv (fetchFrom "tauri.test" "/tauri/darwin/aarch64/0.1.21")))
  = 204
  /\ exists event,
       logged (server testEnv (fetchFrom "tauri.test" "/tauri/darwin/aarch64/0.1.21"))
       = [event]
       /\ updateAvailable event = false.
Proof.
  assert (H : status (response (server testEnv
                (fetchFrom "tauri.test" "/tauri/darwin/aarch64/0.1.21"))) = 204)
    by (vm_compute; reflexivity).
  split; [exact H|].
  exact (proj2 (proj2 (server_logs_what_it_answers testEnv
                         (fetchFrom "tauri.test" "/tauri/darwin/aarch64/0.1.21"))) H).
Defined.

(** ** Hostnames, paths and client addresses *)

Lemma split_app_sep c s : forall t,
  JS.split c (s +:+ String c t) = JS.split c s ++ JS.split c t.
Proof.
  induction s as [|d s IH]; intros t; simpl.
  - now rewrite Ascii.eqb_refl.
  - destruct (Ascii.eqb d c); rewrite IH; [reflexivity|].
    pose proof (split_nonempty c s) as Hne.
    destruct (JS.split c s); [contradiction|reflexivity].
Qed.

Lemma split_no_sep c s : hasChar c s = false -> JS.split c s = [s].
Proof.
  induction s as [|d s IH]; simpl; [reflexivity|].
  intros H. apply orb_false_iff in H as [Hd Hs]. rewrite Hd, (IH Hs). reflexivity.
Qed.

Lemma split_head c name rest :
  hasChar c name = false ->
  JS.split c name !! 0%nat = Some name
  /\ JS.split c (name +:+ String c rest) !! 0%nat = Some name.
Proof.
  intros H. rewrite split_app_sep, (split_no_sep c name H). split; reflexivity.
Qed.

(** X14. [resolveProduct] reads the hostname from [X-Forwarded-Host]
    when that header is present, whatever [Host] says, and from [Host]
    otherwise; it drops a port; it answers the product that lists the
    hostname and falls back on the default product only for a hostname
    that no product lists. *)
Theorem resolveProduct_hostname (env : Env) (req : Request) (name port : string) :
  hasChar ":"%char name = false ->
  hostHeader req = name \/ hostHeader req = name +:+ ":" +:+ port ->
  resolveProduct env req = productOfHost env name
  /\ (forall p, productByHostname env !! name = Some p -> resolveProduct env req = Some p)
  /\ (productByHostname env !! name = None ->
      resolveProduct env req = productById env !! defaultProductId env)
  /\ (forall other forwarded,
        headers req !! "x-forwarded-host" = Some forwarded ->
        headers other !! "x-forwarded-host" = Some forwarded ->
        resolveProduct env other = resolveProduct env req).
Proof.
  intros Hname Hheader.
  assert (Hres : resolveProduct env req = productOfHost env name).
  { unfold resolveProduct. fold (hostHeader req).
    destruct (split_head ":"%char name port Hname) as [H1 H2].
    destruct Hheader as [-> | ->];
      [rewrite H1|change (":" +:+ port) with (String ":"%char port); rewrite H2];
      reflexivity. }
  split; [exact Hres|]. split; [|split].
  - intros p Hp. rewrite Hres. unfold productOfHost. now rewrite Hp.
  - intros Hnone. rewrite Hres. unfold productOfHost. now rewrite Hnone.
  - intros other forwarded Hreq Hother. unfold resolveProduct. now rewrite Hreq, Hother.
Qed.

Lemma resolveProduct_hostname_witness :
  hasChar ":"%char "simple.test" = false
  /\ hostHeader (fetchFrom "simple.test:3100" "/version") = "simple.test" +:+ ":" +:+ "3100"
  /\ resolveProduct testEnv (fetchFrom "simple.test:3100" "/version") = Some testSimple.
Proof.
  split; [reflexivity|]. split; [reflexivity|].
  destruct (resolveProduct_hostname testEnv (fetchFrom "simple.test:3100" "/version")
              "simple.test" "3100" eq_refl (or_intror eq_refl)) as (_ & H & _).
  apply H. vm_compute. reflexivity.
Defined.

Lemma segmentsOf_app s t :
  segmentsOf (s +:+ "/" +:+ t) = segmentsOf s ++ segmentsOf t.
Proof.
  unfold segmentsOf. change ("/" +:+ t) with (String "/"%char t).
  now rewrite split_app_sep, List.filter_app.
Qed.

(** X15. The path segments of a request are what stands between the
    slashes of the path, empty pieces left out: the segments of
    [s + "/" + t] are those of [s] followed by those of [t], so
    leading, trailing and doubled slashes change nothing; a non-empty
    piece without a slash is one segment; no segment is empty or
    contains a slash. *)
Theorem segmentsOf_slashes (s t : string) :
  segmentsOf (s +:+ "/" +:+ t) = segmentsOf s ++ segmentsOf t
  /\ segmentsOf "" = []
  /\ segmentsOf ("/" +:+ s) = segmentsOf s
  /\ segmentsOf (s +:+ "/") = segmentsOf s
  /\ (s <> "" -> hasChar "/"%char s = false -> segmentsOf s = [s])
  /\ (forall segment, In segment (segmentsOf s) ->
        segment <> "" /\ hasChar "/"%char segment = false).
Proof.
  split; [apply segmentsOf_app|]. split; [reflexivity|].
  split; [apply (segmentsOf_app "" s)|]. split.
  - change (s +:+ "/") with (s +:+ "/" +:+ "").
    rewrite (segmentsOf_app s ""). apply app_nil_r.
  - split.
    + intros Hne Hs. unfold segmentsOf. rewrite (split_no_sep _ _ Hs). simpl.
      destruct s; [contradiction|reflexivity].
    + intros segment Hin. split; [now apply (segmentsOf_nonempty s)|].
      unfold segmentsOf in Hin. apply filter_In in Hin as [Hin _].
      revert segment Hin. induction s as [|d s IH]; simpl.
      * intros segment [<-|[]]. reflexivity.
      * destruct (Ascii.eqb d "/"%char) eqn:E.
        -- intros segment [<-|Hin]; [reflexivity|now apply IH].
        -- pose proof (split_nonempty "/"%char s) as Hne.
           destruct (JS.split "/"%char s) as [|h l]; [contradiction|].
           intros segment [<-|Hin]; simpl.
           ++ rewrite E. apply IH. now left.
           ++ apply IH. now right.
Qed.

Lemma segmentsOf_slashes_witness :
  "aarch64" <> "" /\ hasChar "/"%char "aarch64" = false
  /\ segmentsOf "aarch64" = ["aarch64"].
Proof.
  assert (Hne : "aarch64" <> "") by discriminate.
  split; [exact Hne|]. split; [reflexivity|].
  destruct (segmentsOf_slashes "aarch64" "") as (_ & _ & _ & _ & H & _).
  exact (H Hne eq_refl).
Defined.

(** ** Trimming and stripping *)

Lemma append_assoc_s (a b c : string) : (a +:+ b) +:+ c = a +:+ (b +:+ c).
Proof.
  induction a as [|x a IH]; [reflexivity|].
  change (String x ((a +:+ b) +:+ c) = String x (a +:+ (b +:+ c))). now rewrite IH.
Qed.

Lemma trimStart_decomp s : exists l, s = l +:+ JS.trimStart s.
Proof.
  induction s as [|c s [l IH]]; simpl; [now exists ""|].
  destruct (JS.isWhiteSpace c); [|now exists ""].
  exists (String c l). change (String c s = String c (l +:+ JS.trimStart s)).
  now rewrite <- IH.
Qed.

Lemma trimEnd_decomp s : exists r, s = JS.trimEnd s +:+ r.
Proof.
  induction s as [|c s [r IH]]; simpl; [now exists ""|].
  destruct (JS.trimEnd s) as [|d t] eqn:E.
  - destruct (JS.isWhiteSpace c); [now exists (String c s)|].
    exists s. reflexivity.
  - exists r. change (String c s = String c (String d t +:+ r)). now rewrite <- IH.
Qed.

Lemma trimStart_length s : (String.length (JS.trimStart s) <= String.length s)%nat.
Proof.
  induction s as [|c s IH]; simpl; [lia|]. destruct (JS.isWhiteSpace c); simpl; lia.
Qed.

Lemma trimStart_idem s : JS.trimStart (JS.trimStart s) = JS.trimStart s.
Proof.
  induction s as [|c s IH]; simpl; [reflexivity|].
  destruct (JS.isWhiteSpace c) eqn:E; [exact IH|]. simpl. now rewrite E.
Qed.

Lemma trimEnd_idem s : JS.trimEnd (JS.trimEnd s) = JS.trimEnd s.
Proof.
  induction s as [|c s IH]; simpl; [reflexivity|].
  destruct (JS.trimEnd s) as [|d t] eqn:E.
  - destruct (JS.isWhiteSpace c) eqn:W; simpl; [reflexivity|now rewrite W].
  - change (JS.trimEnd (String c (String d t)))
      with (match JS.trimEnd (String d t) with
            | EmptyString =>
                if JS.isWhiteSpace c then EmptyString else String c EmptyString
            | r => String c r
            end).
    now rewrite IH.
Qed.

Lemma trimStart_trimEnd t :
  JS.trimStart t = t -> JS.trimStart (JS.trimEnd t) = JS.trimEnd t.
Proof.
  destruct t as [|c t]; [reflexivity|]. simpl.
  destruct (JS.isWhiteSpace c) eqn:W.
  - intros H. pose proof (trimStart_length t) as Hlen. rewrite H in Hlen. simpl in Hlen. lia.
  - intros _. destruct (JS.trimEnd t); simpl; now rewrite W.
Qed.

Lemma trim_idem s : JS.trim (JS.trim s) = JS.trim s.
Proof.
  unfold JS.trim.
  rewrite (trimStart_trimEnd (JS.trimStart s) (trimStart_idem s)).
  apply trimEnd_idem.
Qed.

Lemma noOccurrence_inside pat l m r :
  noOccurrence pat (l +:+ m +:+ r) -> noOccurrence pat m.
Proof.
  intros H pre post E. apply (H (l +:+ pre) (post +:+ r)).
  rewrite E, !append_assoc_s. reflexivity.
Qed.

Lemma noOccurrence_trim pat s : noOccurrence pat s -> noOccurrence pat (JS.trim s).
Proof.
  intros H. destruct (trimStart_decomp s) as [l Hl].
  destruct (trimEnd_decomp (JS.trimStart s)) as [r Hr].
  apply (noOccurrence_inside pat l _ r). unfold JS.trim. now rewrite <- Hr, <- Hl.
Qed.

Lemma occurs_at_start pat s post : s = "" +:+ pat +:+ post -> String.prefix pat s = true.
Proof. intros ->. exact (prefix_app pat post). Qed.

Lemma occurs_later pat c b d pre post :
  String c b = String d pre +:+ pat +:+ post -> b = pre +:+ pat +:+ post.
Proof.
  intros H. change (String c b = String d (pre +:+ pat +:+ post)) in H. now injection H.
Qed.

(** A text either holds no [pat] or has a first one. *)
Lemma occurrence_cases pat b :
  noOccurrence pat b \/ exists pre post, firstOccurrence pat b pre post.
Proof.
  assert (Hstart : forall s, String.prefix pat s = true ->
                     exists pre post, firstOccurrence pat s pre post).
  { intros s E. apply prefix_inv in E as [r Hr]. exists "", r. split; [exact Hr|].
    intros; simpl; lia. }
  induction b as [|c b IH].
  - destruct (String.prefix pat "") eqn:E; [right; now apply Hstart|].
    left. intros [|d pre] post H.
    + apply occurs_at_start in H. congruence.
    + discriminate.
  - destruct (String.prefix pat (String c b)) eqn:E; [right; now apply Hstart|].
    destruct IH as [Hno|(pre & post & Hb & Hmin)].
    + left. intros [|d pre] post H.
      * apply occurs_at_start in H. congruence.
      * apply occurs_later in H. now apply (Hno pre post).
    + right. exists (String c pre), post. split.
      * change (String c b = String c (pre +:+ pat +:+ post)). now rewrite <- Hb.
      * intros [|d pre'] post' H.
        -- apply occurs_at_start in H. congruence.
        -- apply occurs_later in H. specialize (Hmin pre' post' H). simpl. lia.
Qed.

Lemma firstOccurrence_before pat b pre post :
  pat <> "" -> firstOccurrence pat b pre post -> noOccurrence pat pre.
Proof.
  intros Hpat [Hb Hmin] p q E.
  specialize (Hmin p (q +:+ pat +:+ post)).
  rewrite Hb, E, !append_assoc_s in Hmin. specialize (Hmin eq_refl).
  rewrite !length_append in Hmin. destruct pat; [contradiction|]. simpl in Hmin. lia.
Qed.

(** What [stripDownloadSection] returns is the trimmed form of a text
    without "## Download". *)
Lemma stripDownloadSection_form b :
  exists x, stripDownloadSection b = JS.trim x /\ noOccurrence "## Download" x.
Proof.
  destruct (occurrence_cases "## Download" b) as [Hno|(pre & post & Hfirst)].
  - exists b. split; [now apply stripDownloadSection_none|exact Hno].
  - exists pre. split; [now apply (stripDownloadSection_first b pre post)|].
    apply (firstOccurrence_before _ b pre post); [discriminate|exact Hfirst].
Qed.

(** X16. What [stripDownloadSection] returns holds no "## Download" and
    has no white space at either end, and stripping it again changes
    nothing.  So every note of [extractVersionNotes] is a non-empty,
    trimmed text without a download section. *)
Theorem stripDownloadSection_idempotent (b : string) :
  noOccurrence "## Download" (stripDownloadSection b)
  /\ JS.trim (stripDownloadSection b) = stripDownloadSection b
  /\ stripDownloadSection (stripDownloadSection b) = stripDownloadSection b
  /\ (forall releases tagPrefix n,
        In n (extractVersionNotes releases tagPrefix) ->
        notes n <> ""
        /\ noOccurrence "## Download" (notes n)
        /\ JS.trim (notes n) = notes n
        /\ stripDownloadSection (notes n) = notes n).
Proof.
  assert (Hall : forall b,
            noOccurrence "## Download" (stripDownloadSection b)
            /\ JS.trim (stripDownloadSection b) = stripDownloadSection b
            /\ stripDownloadSection (stripDownloadSection b) = stripDownloadSection b).
  { clear b. intros b. destruct (stripDownloadSection_form b) as (x & -> & Hx).
    pose proof (noOccurrence_trim _ _ Hx) as Hno.
    split; [exact Hno|]. split; [apply trim_idem|].
    rewrite (stripDownloadSection_none _ Hno). apply trim_idem. }
  destruct (Hall b) as (H1 & H2 & H3).
  split; [exact H1|]. split; [exact H2|]. split; [exact H3|].
  intros releases tagPrefix n Hin.
  apply extractVersionNotes_In in Hin as (r & _ & -> & Hne). simpl.
  split; [exact Hne|]. unfold releaseNotes in *.
  destruct (body r) as [text|]; [|contradiction].
  destruct (String.eqb text ""); [contradiction|]. apply Hall.
Qed.

(** X17. The client address that is logged is the first entry of
    [X-Forwarded-For], trimmed, whenever that header is present, whatever
    the address of the socket; without the header it is the address of
    the socket, or "unknown" when there is none. *)
Theorem getClientIp_forwarded (req : Request) :
  (forall first others,
     hasChar ","%char first = false ->
     headers req !! "x-forwarded-for" = Some first
     \/ headers req !! "x-forwarded-for" = Some (first +:+ "," +:+ others) ->
     getClientIp req = JS.trim first)
  /\ (headers req !! "x-forwarded-for" = None ->
      getClientIp req = match remoteAddress req with
                        | Some a => if String.eqb a "" then "unknown" else a
                        | None => "unknown"
                        end)
  /\ (forall other forwarded,
        headers req !! "x-forwarded-for" = Some forwarded ->
        headers other !! "x-forwarded-for" = Some forwarded ->
        getClientIp other = getClientIp req).
Proof.
  split; [|split].
  - intros first others Hfirst Hheader. unfold getClientIp.
    destruct (split_head ","%char first others Hfirst) as [H1 H2].
    destruct Hheader as [-> | ->];
      [rewrite H1|change ("," +:+ others) with (String ","%char others); rewrite H2];
      reflexivity.
  - intros H. unfold getClientIp. now rewrite H.
  - intros other forwarded Hreq Hother. unfold getClientIp. now rewrite Hreq, Hother.
Qed.

Lemma getClientIp_forwarded_witness :
  hasChar ","%char " 203.0.113.7 " = false
  /\ getClientIp {| method := "GET"; pathname := "/version";
                    headers := <["x-forwarded-for" := " 203.0.113.7 , 10.0.0.1"]> ∅;
                    remoteAddress := Some "127.0.0.1" |}
     = "203.0.113.7".
Proof.
  split; [reflexivity|].
  destruct (getClientIp_forwarded
              {| method := "GET"; pathname := "/version";
                 headers := <["x-forwarded-for" := " 203.0.113.7 , 10.0.0.1"]> ∅;
                 remoteAddress := Some "127.0.0.1" |}) as [H _].
  rewrite (H " 203.0.113.7 " " 10.0.0.1" eq_refl); [reflexivity|].
  right. vm_compute. reflexivity.
Defined.

(** ** validateProducts *)

Lemma isString_inv v : isString v = true <-> exists s, v = Some (JString s).
Proof.
  destruct v as [[]|]; simpl; split; try discriminate; eauto; intros [? ?]; discriminate.
Qed.

Lemma isArray_inv v : isArray v = true <-> exists l, v = Some (JArray l).
Proof.
  destruct v as [[]|]; simpl; split; try discriminate; eauto; intros [? ?]; discriminate.
Qed.

Lemma isBoolean_inv v : isBoolean v = true <-> exists b, v = Some (JBool b).
Proof.
  destruct v as [[]|]; simpl; split; try discriminate; eauto; intros [? ?]; discriminate.
Qed.

Lemma checkProduct_None i p : checkProduct i p = None <-> hasProductFields p.
Proof.
  unfold checkProduct, hasProductFields. split.
  - destruct (isObjectLike p); cbn [negb]; [|discriminate].
    destruct (List.find (fun key => negb (isString (property p key)))
                ["id"; "displayName"; "githubRepo"; "tagPrefix"])
      as [key|] eqn:F; [discriminate|].
    rewrite find_None in F.
    destruct (isArray (property p "hostnames")) eqn:Hh; simpl; [|discriminate].
    destruct (isBoolean (property p "tauriUpdates")) eqn:Ht; simpl; [|discriminate].
    intros _.
    assert (Hs : forall key, In key ["id"; "displayName"; "githubRepo"; "tagPrefix"] ->
                   exists s, property p key = Some (JString s)).
    { intros key Hk. apply isString_inv. specialize (F key Hk).
      now apply negb_false_iff in F. }
    destruct (Hs "id") as [a Ha]; [simpl; auto|].
    destruct (Hs "displayName") as [b Hb]; [simpl; auto|].
    destruct (Hs "githubRepo") as [c Hc]; [simpl; auto|].
    destruct (Hs "tagPrefix") as [d Hd]; [simpl; auto|].
    apply isArray_inv in Hh as [hs Hh]. apply isBoolean_inv in Ht as [t Ht].
    exists a, b, c, d, hs, t. auto 10.
  - intros (a & b & c & d & hs & t & Ha & Hb & Hc & Hd & Hh & Ht).
    assert (Hobj : isObjectLike p = true).
    { destruct p; try discriminate; reflexivity. }
    rewrite Hobj. simpl. rewrite Ha, Hb, Hc, Hd, Hh, Ht. reflexivity.
Qed.

Lemma checkProduct_message i p message :
  checkProduct i p = Some message ->
  String.prefix ("products[" +:+ pretty i +:+ "]") message = true.
Proof.
  unfold checkProduct.
  destruct (isObjectLike p); cbn [negb].
  - destruct (List.find (fun key => negb (isString (property p key)))
                ["id"; "displayName"; "githubRepo"; "tagPrefix"]) as [key|].
    + intros [= <-]. rewrite <- append_assoc_s. apply prefix_app.
    + destruct (isArray _); simpl.
      * destruct (isBoolean _); simpl; [discriminate|].
        intros [= <-]. rewrite <- append_assoc_s. apply prefix_app.
      * intros [= <-]. rewrite <- append_assoc_s. apply prefix_app.
  - intros [= <-]. rewrite <- append_assoc_s. apply prefix_app.
Qed.

Lemma checkFrom_None items : forall i,
  checkFrom i items = None <-> Forall hasProductFields items.
Proof.
  induction items as [|p items IH]; intros i; simpl.
  - split; [constructor|reflexivity].
  - destruct (checkProduct i p) as [m|] eqn:E.
    + split; [discriminate|]. intros H. apply Forall_cons in H as [H _].
      apply (checkProduct_None i) in H. congruence.
    + rewrite IH. apply (checkProduct_None i) in E. split.
      * intros H. now constructor.
      * intros H. now apply Forall_cons in H as [_ H].
Qed.

Lemma checkFrom_first good : forall i bad rest,
  Forall hasProductFields good ->
  ~ hasProductFields bad ->
  checkFrom i (good ++ bad :: rest) = checkProduct (i + length good) bad
  /\ checkProduct (i + length good) bad <> None.
Proof.
  induction good as [|p good IH]; intros i bad rest Hgood Hbad; simpl.
  - rewrite Nat.add_0_r. destruct (checkProduct i bad) as [m|] eqn:E.
    + split; [reflexivity|discriminate].
    + now apply checkProduct_None in E.
  - apply Forall_cons in Hgood as [Hp Hgood].
    rewrite (proj2 (checkProduct_None i p) Hp).
    replace (i + S (length good))%nat with (S i + length good)%nat by lia.
    now apply IH.
Qed.

(** X18. [validateProducts] accepts exactly the non-empty arrays whose
    every entry is an object with string fields [id], [displayName],
    [githubRepo] and [tagPrefix], an array [hostnames] and a boolean
    [tauriUpdates], and returns the array as it is; the elements of
    [hostnames] are not looked at.  When an entry fails, the error names
    the index of the first entry that fails. *)
Theorem validateProducts_accepts (data : Json) :
  (forall items, validateProducts data = Accepted items
                 <-> data = JArray items /\ items <> [] /\ Forall hasProductFields items)
  /\ (forall good bad rest,
        data = JArray (good ++ bad :: rest) ->
        Forall hasProductFields good ->
        ~ hasProductFields bad ->
        exists message,
          validateProducts data = Refused message
          /\ String.prefix ("products[" +:+ pretty (length good) +:+ "]") message = true)
  /\ (forall hostname, hasProductFields (sampleProduct hostname)).
Proof.
  split; [|split].
  - intros items. unfold validateProducts. split.
    + destruct data as [| | | |l|]; try discriminate.
      destruct l as [|p l]; [discriminate|]. simpl Nat.eqb. cbv iota.
      destruct (checkFrom 0 (p :: l)) as [m|] eqn:E; [discriminate|].
      intros [= <-]. split; [reflexivity|]. split; [discriminate|].
      now apply (checkFrom_None _ 0%nat).
    + intros (-> & Hne & Hall). destruct items as [|p l]; [contradiction|].
      simpl Nat.eqb. cbv iota.
      now rewrite (proj2 (checkFrom_None (p :: l) 0%nat) Hall).
  - intros good bad rest -> Hgood Hbad. unfold validateProducts.
    destruct (checkFrom_first good 0%nat bad rest Hgood Hbad) as [Heq Hsome].
    simpl in Heq, Hsome.
    replace (length (good ++ bad :: rest) =? 0)%nat with false
      by (symmetry; apply Nat.eqb_neq; rewrite length_app; simpl; lia).
    rewrite Heq. destruct (checkProduct (length good) bad) as [m|] eqn:E; [|contradiction].
    exists m. split; [reflexivity|]. now apply (checkProduct_message _ bad).
  - intros hostname. unfold hasProductFields, sampleProduct.
    exists "jstorrent", "JSTorrent", "kzahel/JSTorrent", "tauri-app-v", [hostname], true.
    repeat split; reflexivity.
Qed.

Lemma validateProducts_accepts_witness :
  validateProducts (JArray [sampleProduct (JNumber 1)]) = Accepted [sampleProduct (JNumber 1)]
  /\ exists message,
       validateProducts (JArray [sampleProduct (JString "updates.jstorrent.com"); JNull])
       = Refused message
       /\ String.prefix ("products[" +:+ pretty 1%nat +:+ "]") message = true.
Proof.
  destruct (validateProducts_accepts (JArray [sampleProduct (JNumber 1)]))
    as (Hacc & _ & Hsample).
  split.
  - apply Hacc. split; [reflexivity|]. split; [discriminate|].
    constructor; [apply Hsample|constructor].
  - destruct (validateProducts_accepts
                (JArray [sampleProduct (JString "updates.jstorrent.com"); JNull]))
      as (_ & Hbad & Hs).
    apply (Hbad [sampleProduct (JString "updates.jstorrent.com")] JNull [] eq_refl).
    + constructor; [apply Hs|constructor].
    + intros (a & b & c & d & hs & t & Ha & _). discriminate.
Defined.

(** ** The /version route *)

(** X19. A GET for [/version] or [/version/:currentVersion] (valid)
    that resolves to a product with state logs nothing unless the
    simple handler compares versions.  For a product with Tauri updates
    the answer is the version and date of the cached manifest, whatever
    the client version; for another product without a client version it
    is the latest release with its own notes; in both cases 500 when
    the cache is empty. *)
Theorem version_route (env : Env) (req : Request) (p : ProductConfig) (state : ProductState)
    (rest : list string) :
  method req = "GET" ->
  resolveProduct env req = Some p ->
  productStates env !! id p = Some state ->
  segmentsOf (pathname req) = "version" :: rest ->
  (forall current more, rest = current :: more -> isValidVersion current = true) ->
  (tauriUpdates p = true ->
   server env req
   = {| response :=
          match asSimpleCache (cache state) with
          | Some latest =>
              sendJson 200 (JsonVersion (simple_version latest) (simple_pub_date latest))
          | None => sendJson 500 (JsonError "Unable to fetch release info")
          end;
        logged := [] |})
  /\ (tauriUpdates p = false -> rest = [] ->
      server env req
      = {| response :=
             match asSimpleCache (cache state) with
             | Some latest =>
                 sendJson 200 (JsonRelease (simple_version latest) (simple_notes latest)
                                 (simple_pub_date latest))
             | None => sendJson 500 (JsonError "Unable to fetch release info")
             end;
           logged := [] |}).
Proof.
  intros Hget Hres Hst Hseg Hvalid.
  assert (Hcheck : match supplied (segmentsOf (pathname req) !! 1%nat) with
                   | Some c => negb (isValidVersion c)
                   | None => false
                   end = false).
  { rewrite Hseg. destruct rest as [|current more]; [reflexivity|]. simpl.
    unfold supplied. destruct (String.eqb current ""); [reflexivity|].
    now rewrite (Hvalid current more eq_refl). }
  assert (Hroute : route env req
                   = if tauriUpdates p then TauriVersion state
                     else CallVersionCheck state (segmentsOf (pathname req) !! 1%nat)).
  { unfold route. rewrite Hget, Hres, Hst. simpl.
    rewrite Hcheck. rewrite Hseg. simpl. reflexivity. }
  split.
  - intros Ht. unfold server. rewrite Hroute, Ht.
    destruct (asSimpleCache (cache state)); reflexivity.
  - intros Ht ->. unfold server. rewrite Hroute, Ht, Hseg. simpl.
    unfold handleVersionCheck. destruct (asSimpleCache (cache state)); reflexivity.
Qed.

Lemma version_route_witness :
  method (fetchFrom "tauri.test" "/version/0.1.20") = "GET"
  /\ resolveProduct testEnv (fetchFrom "tauri.test" "/version/0.1.20") = Some testTauri
  /\ segmentsOf (pathname (fetchFrom "tauri.test" "/version/0.1.20")) = ["version"; "0.1.20"]
  /\ isValidVersion "0.1.20" = true
  /\ server testEnv (fetchFrom "tauri.test" "/version/0.1.20")
     = {| response := sendJson 200 (JsonVersion "0.1.21" "2026-02-11T07:33:31.665Z");
          logged := [] |}.
Proof.
  split; [reflexivity|]. split; [vm_compute; reflexivity|]. split; [reflexivity|].
  split; [reflexivity|].
  destruct (version_route testEnv (fetchFrom "tauri.test" "/version/0.1.20") testTauri
              {| product := testTauri; cache := TauriCache (Some mockLatest);
                 notesStore := freshNotes |} ["0.1.20"]) as [H _].
  - reflexivity.
  - vm_compute. reflexivity.
  - vm_compute. reflexivity.
  - reflexivity.
  - intros current more [= <- _]. reflexivity.
  - rewrite (H eq_refl). reflexivity.
Defined.

(** ** Day files *)

Lemma parseDayFile_app parse a b :
  parseDayFile parse (Some (a +:+ JS.LF +:+ b))
  = parseDayFile parse (Some a) ++ parseDayFile parse (Some b).
Proof.
  unfold parseDayFile. change (JS.LF +:+ b) with (String LFchar b).
  now rewrite split_app_sep, map_app, concat_app.
Qed.

(** X20. [parseDayFile] yields no event for a file it cannot read; it
    reads a file line by line, in order, dropping the blank lines and
    the lines that do not parse.  It reads back what the logger wrote:
    when, for each of the entries, [JSON.parse] undoes [JSON.stringify]
    and the text of the entry is not blank and holds no line feed, the
    file that the logger wrote for the entries gives back these
    entries, in order. *)
Theorem parseDayFile_reads_log
    (parse : string -> option UpdateCheckEvent) (stringify : UpdateCheckEvent -> string)
    (entries : list UpdateCheckEvent) :
  Forall (fun e => parse (stringify e) = Some e
                   /\ hasChar LFchar (stringify e) = false
                   /\ JS.trim (stringify e) <> "") entries ->
  parseDayFile parse (Some (written stringify entries)) = entries
  /\ parseDayFile parse None = []
  /\ (forall a b, parseDayFile parse (Some (a +:+ JS.LF +:+ b))
                  = parseDayFile parse (Some a) ++ parseDayFile parse (Some b))
  /\ (forall line, hasChar LFchar line = false ->
        parseDayFile parse (Some line)
        = if String.eqb (JS.trim line) "" then []
          else match parse line with
               | Some event => [event]
               | None => []
               end).
Proof.
  intros Hentries.
  assert (Hone : forall line, hasChar LFchar line = false ->
            parseDayFile parse (Some line) = parseLine parse line).
  { intros line H. unfold parseDayFile. rewrite (split_no_sep _ _ H). simpl.
    apply app_nil_r. }
  split; [|split; [reflexivity|split; [apply parseDayFile_app|]]].
  - induction Hentries as [|e entries (Hparse & Hline & Hblank) _ IH]; [reflexivity|].
    change (written stringify (e :: entries))
      with ((stringify e +:+ JS.LF) +:+ written stringify entries).
    rewrite append_assoc_s, parseDayFile_app, IH, (Hone _ Hline).
    unfold parseLine. rewrite Hparse.
    destruct (String.eqb_spec (JS.trim (stringify e)) ""); [now destruct Hblank|].
    reflexivity.
  - intros line H. now rewrite (Hone line H).
Qed.

Lemma parseDayFile_reads_log_witness :
  written sampleStringify [sampleEvent "0.1.20" "client-a"; sampleEvent "0.1.19" "client-a"]
  = "{0.1.20}" +:+ JS.LF +:+ "{0.1.19}" +:+ JS.LF
  /\ parseDayFile sampleParse (Some ("{0.1.20}" +:+ JS.LF +:+ "{0.1.19}" +:+ JS.LF))
     = [sampleEvent "0.1.20" "client-a"; sampleEvent "0.1.19" "client-a"].
Proof.
  split; [reflexivity|].
  apply (parseDayFile_reads_log sampleParse sampleStringify
           [sampleEvent "0.1.20" "client-a"; sampleEvent "0.1.19" "client-a"]).
  repeat constructor; try reflexivity; vm_compute; discriminate.
Defined.
